(** * minidrone-js: the Enum container and the InvalidCommandError message

    A shallow embedding of [Enum] (the class exported by the enumeration
    module) and of [InvalidCommandError] (src/InvalidCommandError.js), with
    the part of the JavaScript object model they rely on: property
    descriptors, [Object.defineProperty], [Object.freeze], the order of
    [Object.keys], strict equality and the array methods [indexOf],
    [includes], [findIndex], [filter] and [map].

    Modelling notes.
    - A JavaScript number is an IEEE double.  The model keeps [NaN], the
      negative zero and the integers; the other doubles behave like the
      integers for every operation used by the two classes except
      [toString(16)].  Integer arithmetic is exact: the iota counter only
      takes the values 0, 1, 2, ... and doubles represent those exactly up to
      2^53, a count no process reaches by single increments.  A statement
      that depends on the digits a number is printed with carries the bound
      2^53.
    - Functions and objects are references compared by identity.  What a
      function does when called lives outside the two classes: it is a
      parameter, a transformer of the state [W] of the rest of the program
      that returns or throws ([invoke], for the methods) or is taken to
      return ([call]).
    - [constantCase] (package [case]) and [getTypeName] (./reflection) are
      not part of the sources at hand: they are parameters.
    - A call [e.m(...)] looks [m] up on the instance first: a member named
      like a method of the class comes before the method, and the call then
      throws a TypeError (the member is not a function) or runs a function
      the class does not know.  Module [Prototype] has the methods with
      these lookups and with getters that may throw.  Module [Enum] has,
      next to the constructor, the bodies of [values], [hasValue] and
      [findForValue] on an instance that has no member named [keys] or
      [values] and whose getters return; lemma [Prototype_values_total]
      and its neighbours relate the two. *)

From Stdlib Require Import List String Ascii ZArith NArith Bool Lia Arith.
From Stdlib Require Import Permutation Sorted.
From Stdlib Require DecimalString.
Import ListNotations.

Local Open Scope Z_scope.

(** ** The JavaScript values and objects the classes use *)

Module JS.

(** Numbers: [NaN], [-0] and the integers ([Int 0] is [+0]). *)
Inductive number : Type :=
| NaN
| NegZero
| Int (z : Z).

Definition fn := nat.
Definition ref := nat.

Inductive value : Type :=
| VUndefined
| VNull
| VBoolean (b : bool)
| VNumber (n : number)
| VString (s : string)
| VObject (r : ref)
| VFunction (f : fn).

(** [typeof v === 'function'] and [typeof v === 'number']. *)
Definition is_function (v : value) : bool :=
  match v with VFunction _ => true | _ => false end.

Definition is_number (v : value) : bool :=
  match v with VNumber _ => true | _ => false end.

(** Number::equal: [NaN] equals nothing, the two zeros are equal. *)
Definition number_equal (x y : number) : bool :=
  match x, y with
  | NaN, _ | _, NaN => false
  | NegZero, NegZero => true
  | NegZero, Int z | Int z, NegZero => Z.eqb z 0
  | Int a, Int b => Z.eqb a b
  end.

(** Number::sameValue: [NaN] is itself, the two zeros differ. *)
Definition number_same (x y : number) : bool :=
  match x, y with
  | NaN, NaN => true
  | NegZero, NegZero => true
  | Int a, Int b => Z.eqb a b
  | _, _ => false
  end.

(** Number::sameValueZero: [NaN] is itself, the two zeros are equal. *)
Definition number_same_zero (x y : number) : bool :=
  match x, y with
  | NaN, NaN => true
  | _, _ => number_equal x y
  end.

(** The comparison of two values of the same type, numbers by [num]. *)
Definition equal_by (num : number -> number -> bool) (x y : value) : bool :=
  match x, y with
  | VUndefined, VUndefined => true
  | VNull, VNull => true
  | VBoolean a, VBoolean b => Bool.eqb a b
  | VNumber a, VNumber b => num a b
  | VString a, VString b => String.eqb a b
  | VObject a, VObject b => Nat.eqb a b
  | VFunction a, VFunction b => Nat.eqb a b
  | _, _ => false
  end.

(** [x === y] (IsStrictlyEqual). *)
Definition strict_equals : value -> value -> bool := equal_by number_equal.

(** SameValue, used when a property is redefined. *)
Definition same_value : value -> value -> bool := equal_by number_same.

(** SameValueZero, used by [Array.prototype.includes]. *)
Definition same_value_zero : value -> value -> bool := equal_by number_same_zero.

Definition is_NaN (v : value) : bool :=
  match v with VNumber NaN => true | _ => false end.

(** The type of a value, as [typeof] tells it apart (with [null] apart
    from the objects, as strict equality does). *)
Inductive type_tag : Type :=
| TUndefined | TNull | TBoolean | TNumber | TString | TObject | TFunction.

Definition type_of (v : value) : type_tag :=
  match v with
  | VUndefined => TUndefined
  | VNull => TNull
  | VBoolean _ => TBoolean
  | VNumber _ => TNumber
  | VString _ => TString
  | VObject _ => TObject
  | VFunction _ => TFunction
  end.

(** What is thrown: a TypeError of the language, or any value thrown by
    a function of the program. *)
Inductive exn : Type :=
| TypeError (message : string)
| Thrown (v : value).

Inductive completion (A : Type) : Type :=
| Normal (a : A)
| Throw (e : exn).
Arguments Normal {A} a.
Arguments Throw {A} e.

(** *** Properties and property descriptors *)

Inductive property : Type :=
| DataProperty (v : value) (writable enumerable configurable : bool)
| AccessorProperty (get set : option fn) (enumerable configurable : bool).

Definition prop_enumerable (p : property) : bool :=
  match p with
  | DataProperty _ _ e _ => e
  | AccessorProperty _ _ e _ => e
  end.

Definition prop_configurable (p : property) : bool :=
  match p with
  | DataProperty _ _ _ c => c
  | AccessorProperty _ _ _ c => c
  end.

Definition is_accessor (p : property) : bool :=
  match p with AccessorProperty _ _ _ _ => true | _ => false end.

(** A descriptor as passed to [Object.defineProperty]: every field may be
    absent; [d_get = Some None] is [get: undefined]. *)
Record descriptor : Type := {
  d_value : option value;
  d_writable : option bool;
  d_get : option (option fn);
  d_set : option (option fn);
  d_enumerable : option bool;
  d_configurable : option bool
}.

Definition is_some {A} (o : option A) : bool :=
  match o with Some _ => true | None => false end.

Definition IsAccessorDescriptor (d : descriptor) : bool :=
  is_some (d_get d) || is_some (d_set d).

Definition IsDataDescriptor (d : descriptor) : bool :=
  is_some (d_value d) || is_some (d_writable d).

Definition IsGenericDescriptor (d : descriptor) : bool :=
  negb (IsAccessorDescriptor d) && negb (IsDataDescriptor d).

(** An ordinary object: its own properties in creation order, and
    [[Extensible]]. *)
Record object : Type := {
  properties : list (string * property);
  extensible : bool
}.

Definition empty_object : object :=
  {| properties := []; extensible := true |}.

Fixpoint lookup (k : string) (ps : list (string * property)) : option property :=
  match ps with
  | [] => None
  | (k', p) :: r => if String.eqb k k' then Some p else lookup k r
  end.

(** Replaces the property of an existing key where it stands. *)
Fixpoint replace (k : string) (p : property) (ps : list (string * property))
  : list (string * property) :=
  match ps with
  | [] => []
  | (k', p') :: r =>
      if String.eqb k k' then (k', p) :: r else (k', p') :: replace k p r
  end.

Definition GetOwnProperty (o : object) (k : string) : option property :=
  lookup k (properties o).

Definition default {A} (d : A) (o : option A) : A :=
  match o with Some a => a | None => d end.

Definition same_fn (a b : option fn) : bool :=
  match a, b with
  | None, None => true
  | Some f, Some g => Nat.eqb f g
  | _, _ => false
  end.

(** The checks of ValidateAndApplyPropertyDescriptor on a current property
    that is not configurable. *)
Definition redefinition_allowed (cur : property) (d : descriptor) : bool :=
  if default false (d_configurable d) then false
  else if match d_enumerable d with
          | Some e => negb (Bool.eqb e (prop_enumerable cur))
          | None => false
          end then false
  else if negb (IsGenericDescriptor d)
          && negb (Bool.eqb (IsAccessorDescriptor d) (is_accessor cur)) then false
  else match cur with
       | AccessorProperty g s _ _ =>
           match d_get d with Some g' => same_fn g' g | None => true end
           && match d_set d with Some s' => same_fn s' s | None => true end
       | DataProperty v w _ _ =>
           if w then true
           else negb (default false (d_writable d))
                && match d_value d with Some v' => same_value v' v | None => true end
       end.

(** The property that results from applying [d] to the current one. *)
Definition apply_descriptor (cur : property) (d : descriptor) : property :=
  let e := default (prop_enumerable cur) (d_enumerable d) in
  let c := default (prop_configurable cur) (d_configurable d) in
  match cur with
  | DataProperty v w _ _ =>
      if IsAccessorDescriptor d
      then AccessorProperty (default None (d_get d)) (default None (d_set d)) e c
      else DataProperty (default v (d_value d)) (default w (d_writable d)) e c
  | AccessorProperty g s _ _ =>
      if IsDataDescriptor d
      then DataProperty (default VUndefined (d_value d)) (default false (d_writable d)) e c
      else AccessorProperty (default g (d_get d)) (default s (d_set d)) e c
  end.

(** The property created by [d] on a key that does not exist yet. *)
Definition new_property (d : descriptor) : property :=
  if IsAccessorDescriptor d
  then AccessorProperty (default None (d_get d)) (default None (d_set d))
         (default false (d_enumerable d)) (default false (d_configurable d))
  else DataProperty (default VUndefined (d_value d)) (default false (d_writable d))
         (default false (d_enumerable d)) (default false (d_configurable d)).

(** OrdinaryDefineOwnProperty: [None] is the result [false]. *)
Definition DefineOwnProperty (o : object) (k : string) (d : descriptor)
  : option object :=
  match GetOwnProperty o k with
  | None =>
      if extensible o
      then Some {| properties := properties o ++ [(k, new_property d)];
                   extensible := extensible o |}
      else None
  | Some cur =>
      if prop_configurable cur || redefinition_allowed cur d
      then Some {| properties := replace k (apply_descriptor cur d) (properties o);
                   extensible := extensible o |}
      else None
  end.

Local Open Scope string_scope.

(** [Object.defineProperty(o, k, d)]; the messages are those of V8. *)
Definition Object_defineProperty (o : object) (k : string) (d : descriptor)
  : completion object :=
  if IsAccessorDescriptor d && IsDataDescriptor d
  then Throw (TypeError
    "Invalid property descriptor. Cannot both specify accessors and a value or writable attribute")
  else match DefineOwnProperty o k d with
       | Some o' => Normal o'
       | None =>
           match GetOwnProperty o k with
           | Some _ => Throw (TypeError ("Cannot redefine property: " ++ k))
           | None => Throw (TypeError
               ("Cannot define property " ++ k ++ ", object is not extensible"))
           end
       end.

Local Close Scope string_scope.

(** [Object.freeze(o)]. *)
Definition freeze_property (p : property) : property :=
  match p with
  | DataProperty v _ e _ => DataProperty v false e false
  | AccessorProperty g s e _ => AccessorProperty g s e false
  end.

Definition Object_freeze (o : object) : object :=
  {| properties := map (fun kp => (fst kp, freeze_property (snd kp))) (properties o);
     extensible := false |}.

(** *** The order of own property keys *)

Definition is_digit (c : ascii) : bool :=
  (48 <=? nat_of_ascii c)%nat && (nat_of_ascii c <=? 57)%nat.

Fixpoint digits_value (s : string) (acc : N) : option N :=
  match s with
  | EmptyString => Some acc
  | String c r =>
      if is_digit c
      then digits_value r (10 * acc + N.of_nat (nat_of_ascii c - 48))%N
      else None
  end.

(** An array index: the canonical decimal string of an integer in
    [0, 2^32 - 2]. *)
Definition array_index (s : string) : option N :=
  match s with
  | EmptyString => None
  | String c r =>
      if Ascii.eqb c "0" && negb (String.eqb r EmptyString) then None
      else match digits_value s 0 with
           | Some n => if (n <=? 4294967294)%N then Some n else None
           | None => None
           end
  end.

Definition is_array_index (s : string) : bool := is_some (array_index s).

Fixpoint insert_index (x : N * string) (l : list (N * string)) : list (N * string) :=
  match l with
  | [] => [x]
  | y :: r => if (fst x <=? fst y)%N then x :: l else y :: insert_index x r
  end.

Definition sort_indices (l : list (N * string)) : list (N * string) :=
  fold_right insert_index [] l.

Fixpoint index_keys (ks : list string) : list (N * string) :=
  match ks with
  | [] => []
  | k :: r =>
      match array_index k with
      | Some n => (n, k) :: index_keys r
      | None => index_keys r
      end
  end.

(** OrdinaryOwnPropertyKeys: the array indices in ascending numeric order,
    then the other string keys in creation order. *)
Definition key_order (ks : list string) : list string :=
  map snd (sort_indices (index_keys ks))
  ++ filter (fun k => negb (is_array_index k)) ks.

Definition OwnPropertyKeys (o : object) : list string :=
  key_order (map fst (properties o)).

(** [Object.keys(o)]: the own enumerable string keys. *)
Definition Object_keys (o : object) : list string :=
  filter (fun k => match GetOwnProperty o k with
                   | Some p => prop_enumerable p
                   | None => false
                   end) (OwnPropertyKeys o).

(** An object literal [{k1: v1, k2: v2, ...}]: each entry creates, or
    overwrites where it stands, a writable, enumerable, configurable data
    property.  (An entry written [__proto__: v] is no such entry: it sets
    the prototype and creates no key.  An entry of the list with the key
    [__proto__] stands for the computed key [["__proto__"]: v], which
    does create the property.) *)
Definition CreateDataProperty (o : object) (k : string) (v : value) : object :=
  match GetOwnProperty o k with
  | None => {| properties := properties o ++ [(k, DataProperty v true true true)];
               extensible := extensible o |}
  | Some _ => {| properties := replace k (DataProperty v true true true) (properties o);
                 extensible := extensible o |}
  end.

Definition object_literal (entries : list (string * value)) : object :=
  fold_left (fun o kv => CreateDataProperty o (fst kv) (snd kv)) entries empty_object.

(** *** Arrays *)

(** [s.indexOf(v)]: the first index whose element is strictly equal to [v],
    or -1. *)
Fixpoint indexOf_from (i : Z) (s : list value) (v : value) : Z :=
  match s with
  | [] => -1
  | x :: r => if strict_equals x v then i else indexOf_from (i + 1) r v
  end.

Definition Array_indexOf (s : list value) (v : value) : Z := indexOf_from 0 s v.

(** [s.includes(v)]. *)
Definition Array_includes (s : list value) (v : value) : bool :=
  existsb (fun x => same_value_zero x v) s.

(** [s.findIndex(p)]. *)
Fixpoint findIndex_from {A} (i : Z) (p : A -> bool) (s : list A) : Z :=
  match s with
  | [] => -1
  | x :: r => if p x then i else findIndex_from (i + 1) p r
  end.

Definition Array_findIndex {A} (p : A -> bool) (s : list A) : Z :=
  findIndex_from 0 p s.

(** [s.filter((v, i, s) => p(v, i, s))]. *)
Fixpoint filter_from {A} (i : Z) (p : A -> Z -> bool) (s : list A) : list A :=
  match s with
  | [] => []
  | x :: r => if p x i then x :: filter_from (i + 1) p r else filter_from (i + 1) p r
  end.

Definition Array_filter {A} (p : A -> Z -> list A -> bool) (s : list A) : list A :=
  filter_from 0 (fun v i => p v i s) s.

(** [s[i]] for an integer [i]: [None] is [undefined]. *)
Definition Array_get {A} (s : list A) (i : Z) : option A :=
  if i <? 0 then None else nth_error s (Z.to_nat i).

Section Calls.

(** The state of the rest of the program, and what calling a function
    with a given [this] does to it. *)
Variable W : Type.
Variable call : fn -> object -> W -> value * W.

(** [o[k]] for an own key [k] of [o]. *)
Definition Get (o : object) (k : string) (w : W) : value * W :=
  match GetOwnProperty o k with
  | Some (DataProperty v _ _ _) => (v, w)
  | Some (AccessorProperty (Some g) _ _ _) => call g o w
  | Some (AccessorProperty None _ _ _) => (VUndefined, w)
  | None => (VUndefined, w)
  end.

(** [ks.map(f)] for a callback that runs in the state. *)
Fixpoint Array_map {A B} (f : A -> W -> B * W) (ks : list A) (w : W) : list B * W :=
  match ks with
  | [] => ([], w)
  | k :: r =>
      let (v, w1) := f k w in
      let (vs, w2) := Array_map f r w1 in
      (v :: vs, w2)
  end.

(** [null], an object or a function: what [__proto__] accepts as a
    prototype. *)
Definition is_object_or_null (v : value) : bool :=
  match v with VNull | VObject _ | VFunction _ => true | _ => false end.

(** [o.k = v] (OrdinarySet): the success flag (a failure is a TypeError in
    strict code and is ignored in sloppy code), the object and the state.
    Every inherited property of the objects at hand is a writable data
    property, except [__proto__]: a key [__proto__] that is not an own key
    goes to the inherited setter, which does nothing for a value that is
    not an object or [null], and otherwise changes the prototype, which
    is not part of [object], when the object is extensible and fails when
    it is not (the value is taken to differ from the prototype the object
    has). *)
Definition Set_ (o : object) (k : string) (v : value) (w : W) : bool * object * W :=
  match GetOwnProperty o k with
  | Some (DataProperty _ true e c) =>
      (true, {| properties := replace k (DataProperty v true e c) (properties o);
                extensible := extensible o |}, w)
  | Some (DataProperty _ false _ _) => (false, o, w)
  | Some (AccessorProperty _ (Some s) _ _) => (true, o, snd (call s o w))
  | Some (AccessorProperty _ None _ _) => (false, o, w)
  | None =>
      if String.eqb k "__proto__"
      then (negb (is_object_or_null v) || extensible o, o, w)
      else if extensible o
      then (true, {| properties := properties o ++ [(k, DataProperty v true true true)];
                     extensible := extensible o |}, w)
      else (false, o, w)
  end.

End Calls.

(** [delete o.k]. *)
Definition Delete (o : object) (k : string) : bool * object :=
  match GetOwnProperty o k with
  | None => (true, o)
  | Some p =>
      if prop_configurable p
      then (true, {| properties := filter (fun kp => negb (String.eqb k (fst kp))) (properties o);
                     extensible := extensible o |})
      else (false, o)
  end.

End JS.

(** ** The Enum class *)

Module Enum.

Import JS.

(** The first argument of the constructor: an array of strings, or an
    object given by the entries of its literal. *)
Inductive enums : Type :=
| EArray (rows : list string)
| EMapping (entries : list (string * value)).

Definition isArray (e : enums) : bool :=
  match e with EArray _ => true | EMapping _ => false end.

(** The descriptors the constructor builds. *)
Definition value_init (v : value) : descriptor :=
  {| d_value := Some v; d_writable := None; d_get := None; d_set := None;
     d_enumerable := Some true; d_configurable := None |}.

Definition get_init (f : fn) : descriptor :=
  {| d_value := None; d_writable := None; d_get := Some (Some f); d_set := None;
     d_enumerable := Some true; d_configurable := None |}.

(** The descriptor [init] of the mapping branch: a getter when
    [typeof enums[key] === 'function'], a value otherwise. *)
Definition init_for (v : value) : descriptor :=
  match v with
  | VFunction f => get_init f
  | _ => value_init v
  end.

(** The static property [Enum.__iota]: [None] while it is undefined. *)
Definition counter := option Z.

(** [!Enum.__iota]. *)
Definition unset (c : counter) : bool :=
  match c with None => true | Some n => n =? 0 end.

(** The static getter [Enum._iota]: the value read and the counter left.
    The addition is the exact one: it is the addition of doubles while the
    counter is below 2^53. *)
Definition _iota (c : counter) : Z * counter :=
  let c1 := if unset c then Some 0 else c in
  let n := match c1 with Some n => n | None => 0 end in
  (n, Some (n + 1)).

(** The state a constructor call works on: the instance being built and
    the counter of the class. *)
Record cstate : Type := {
  this : object;
  __iota : counter
}.

Definition dquote : string := String (ascii_of_nat 34) EmptyString.

(** [enums[key]] on the object of a mapping input. *)
Definition entry (o : object) (key : string) : value :=
  match GetOwnProperty o key with
  | Some (DataProperty v _ _ _) => v
  | _ => VUndefined
  end.

Section Class.

(** [constant] of the package [case], and [getTypeName] of ./reflection. *)
Variable constantCase : string -> string.
Variable getTypeName : enums -> string.

(** [for (const row of enums)] of the auto branch. *)
Fixpoint auto_loop (rows : list string) (s : cstate) : completion unit * cstate :=
  match rows with
  | [] => (Normal tt, s)
  | row :: rest =>
      let key := constantCase row in
      match Object_defineProperty (this s) key (value_init (VString row)) with
      | Normal o => auto_loop rest {| this := o; __iota := __iota s |}
      | Throw e => (Throw e, s)
      end
  end.

(** [for (const key of enums)] of the iota branch: the getter [_iota] is
    read while the descriptor is built, before the property is defined. *)
Fixpoint iota_loop (keys : list string) (s : cstate) : completion unit * cstate :=
  match keys with
  | [] => (Normal tt, s)
  | key :: rest =>
      let (n, c) := _iota (__iota s) in
      match Object_defineProperty (this s) key (value_init (VNumber (Int n))) with
      | Normal o => iota_loop rest {| this := o; __iota := c |}
      | Throw e => (Throw e, {| this := this s; __iota := c |})
      end
  end.

(** [for (const key of Object.keys(enums))] of the mapping branch. *)
Fixpoint mapping_loop (o : object) (keys : list string) (s : cstate)
  : completion unit * cstate :=
  match keys with
  | [] => (Normal tt, s)
  | key :: rest =>
      let init := init_for (entry o key) in
      match Object_defineProperty (this s) key init with
      | Normal o' => mapping_loop o rest {| this := o'; __iota := __iota s |}
      | Throw e => (Throw e, s)
      end
  end.

(** [constructor(enums, auto = false)]; [None] is an absent [auto]. *)
Definition constructor (e : enums) (auto : option bool) (s : cstate)
  : completion unit * cstate :=
  let auto := default false auto in
  if auto && negb (isArray e)
  then (Throw (TypeError ("Expected enums to be of type " ++ dquote ++ "Array"
                          ++ dquote ++ " got " ++ dquote ++ getTypeName e ++ dquote)%string), s)
  else
    let (c, s1) :=
      match e with
      | EArray rows => if auto then auto_loop rows s else iota_loop rows s
      | EMapping entries =>
          let o := object_literal entries in
          mapping_loop o (Object_keys o) s
      end in
    match c with
    | Normal _ => (Normal tt, {| this := Object_freeze (this s1); __iota := __iota s1 |})
    | Throw x => (Throw x, s1)
    end.

(** [new Enum(enums, auto)] with the counter at [c]. *)
Definition new_Enum (e : enums) (auto : option bool) (c : counter)
  : completion unit * cstate :=
  constructor e auto {| this := empty_object; __iota := c |}.

End Class.

(** [Object.keys(this)], the body of [keys()]. *)
Definition keys (e : object) : list string := Object_keys e.

(** The filter of [values()]: [(v, i, s) => s.indexOf(v) === i]. *)
Definition first_occurrence (v : value) (i : Z) (s : list value) : bool :=
  Array_indexOf s v =? i.

Section Queries.

(** The queries on an instance with no member named [keys] or [values],
    in a program whose functions all return: [call] gives the value a
    function returns and the state it leaves.  ([Prototype] has the
    methods without these two assumptions.) *)
Variable W : Type.
Variable call : fn -> object -> W -> value * W.

(** [this.keys().map(key => this[key])]. *)
Definition resolved (e : object) (w : W) : list value * W :=
  Array_map W (fun key => Get W call e key) (keys e) w.

(** [values()]. *)
Definition values (e : object) (w : W) : list value * W :=
  let (s, w1) := resolved e w in
  (Array_filter first_occurrence s, w1).

(** [hasValue(value)]. *)
Definition hasValue (e : object) (v : value) (w : W) : bool * W :=
  let (s, w1) := values e w in
  (Array_includes s v, w1).

(** [findForValue(value)]: the key as a string, or [undefined]. *)
Definition findForValue (e : object) (v : value) (w : W) : value * W :=
  let (s, w1) := resolved e w in
  let index := Array_findIndex (fun x => strict_equals x v) s in
  (match Array_get (keys e) index with
   | Some k => VString k
   | None => VUndefined
   end, w1).

End Queries.

Definition decimal (n : N) : string :=
  DecimalString.NilZero.string_of_uint (N.to_uint n).

(** Number::toString in base 10, for [NaN], the zeros and the integers up
    to 2^53 in absolute value: these are doubles, and their digits are
    printed exactly.  A larger integer need not be a double, and the
    digits printed for a double beyond 2^53 are not those of an integer
    next to it: [None]. *)
Definition Number_toString (x : number) : option string :=
  match x with
  | NaN => Some "NaN"%string
  | NegZero => Some "0"%string
  | Int z =>
      if Z.abs z <=? 2 ^ 53
      then Some (if z <? 0 then ("-" ++ decimal (Z.to_N (- z)))%string
                 else decimal (Z.to_N z))
      else None
  end.

(** ToString, as [+] applies it to what it appends to a string.  An
    object or a function is converted by its own methods, which the class
    does not know: [None]. *)
Definition ToString (v : value) : option string :=
  match v with
  | VUndefined => Some "undefined"%string
  | VNull => Some "null"%string
  | VBoolean true => Some "true"%string
  | VBoolean false => Some "false"%string
  | VNumber x => Number_toString x
  | VString s => Some s
  | VObject _ | VFunction _ => None
  end.

End Enum.

(** ** The methods of the class, as a call on an instance runs them *)

(** The instance is an object built by the constructor of the class
    itself: its prototype is the prototype of the class, and it is frozen,
    so that no function called changes it.  The functions called leave the
    class and the built-in objects as they are. *)

Module Prototype.

Import JS.

(** What a call gives: a value, an exception, or [Beyond] when the call
    runs code the class does not know (a function that an instance holds
    under the name of a method, the conversion of an object to a string,
    the read of a property the instance does not own). *)
Inductive outcome (A : Type) : Type :=
| Returns (a : A)
| Throws (x : exn)
| Beyond.
Arguments Returns {A} a.
Arguments Throws {A} x.
Arguments Beyond {A}.

Section Methods.

(** The state of the rest of the program, and what calling a function
    with a given [this] and no argument does: it returns a value or
    throws, and leaves a state. *)
Variable W : Type.
Variable invoke : fn -> object -> W -> completion value * W.

(** A computation in the state that may throw. *)
Definition M (A : Type) : Type := W -> outcome A * W.

Definition of_completion {A} (c : completion A) : outcome A :=
  match c with
  | Normal a => Returns a
  | Throw x => Throws x
  end.

Definition ret {A} (a : A) : M A := fun w => (Returns a, w).

Definition bind {A B} (m : M A) (f : A -> M B) : M B := fun w =>
  match m w with
  | (Returns a, w1) => f a w1
  | (Throws x, w1) => (Throws x, w1)
  | (Beyond, w1) => (Beyond, w1)
  end.

(** [this[key]] for a key the instance owns: the value of a data
    property, what the getter of an accessor property returns or throws. *)
Definition Get (e : object) (key : string) : M value := fun w =>
  match GetOwnProperty e key with
  | Some (DataProperty v _ _ _) => (Returns v, w)
  | Some (AccessorProperty (Some g) _ _ _) =>
      let (c, w1) := invoke g e w in (of_completion c, w1)
  | Some (AccessorProperty None _ _ _) => (Returns VUndefined, w)
  | None => (Beyond, w)
  end.

(** [this.name(...)] for the method [name] of the class, of body [body].
    When the instance owns no property [name] the method of the class
    runs.  When it owns one, the property is read: if its value is not a
    function the call throws a TypeError (with the text V8 gives for a
    call written [this.name()]), and if it is one, that function runs in
    place of the method. *)
Definition call_method {A} (name : string) (body : object -> M A) (e : object) : M A :=
  fun w =>
  match GetOwnProperty e name with
  | None => body e w
  | Some _ =>
      match Get e name w with
      | (Returns (VFunction _), w1) => (Beyond, w1)
      | (Returns _, w1) =>
          (Throws (TypeError ("this." ++ name ++ " is not a function")), w1)
      | (Throws x, w1) => (Throws x, w1)
      | (Beyond, w1) => (Beyond, w1)
      end
  end.

(** [ks.map(f)] for a callback that runs in the state and may throw. *)
Fixpoint Array_map {A B} (f : A -> M B) (ks : list A) : M (list B) :=
  match ks with
  | [] => ret []
  | k :: r =>
      bind (f k) (fun v =>
      bind (Array_map f r) (fun vs =>
      ret (v :: vs)))
  end.

(** [keys()]. *)
Definition keys (e : object) : M (list string) :=
  ret (Object_keys e).

(** [values()]. *)
Definition values (e : object) : M (list value) :=
  bind (call_method "keys" keys e) (fun ks =>
  bind (Array_map (fun key => Get e key) ks) (fun s =>
  ret (Array_filter Enum.first_occurrence s))).

(** [hasKey(name)]. *)
Definition hasKey (name : value) (e : object) : M bool :=
  bind (call_method "keys" keys e) (fun ks =>
  ret (Array_includes (map VString ks) name)).

(** [hasValue(value)]. *)
Definition hasValue (value : JS.value) (e : object) : M bool :=
  bind (call_method "values" values e) (fun vs =>
  ret (Array_includes vs value)).

(** [findForValue(value)]: the key as a string, or [undefined]. *)
Definition findForValue (value : JS.value) (e : object) : M JS.value :=
  bind (call_method "keys" keys e) (fun ks =>
  bind (Array_map (fun key => Get e key) ks) (fun s =>
  let index := Array_findIndex (fun x => strict_equals x value) s in
  bind (call_method "keys" keys e) (fun ks' =>
  ret (match Array_get ks' index with
       | Some k => VString k
       | None => VUndefined
       end)))).

(** [key + '=' + this[key]]. *)
Definition item (e : object) (key : string) : M string :=
  bind (Get e key) (fun v => fun w =>
  match Enum.ToString v with
  | Some t => (Returns (key ++ "=" ++ t)%string, w)
  | None => (Beyond, w)
  end).

(** [toString()]. *)
Definition toString (e : object) : M string :=
  bind (call_method "keys" keys e) (fun ks =>
  bind (Array_map (item e) ks) (fun items =>
  ret (String.concat ", " items))).

(** The calls in a program whose functions all return: [call] gives the
    value and the state. *)
Definition returning (call : fn -> object -> W -> value * W)
    (f : fn) (e : object) (w : W) : completion value * W :=
  let (v, w1) := call f e w in (Normal v, w1).

End Methods.

End Prototype.

(** ** InvalidCommandError *)

Module InvalidCommandError.

Import JS.
Local Open Scope string_scope.

Definition hex_digit (d : N) : ascii :=
  match d with
  | 0 => "0" | 1 => "1" | 2 => "2" | 3 => "3" | 4 => "4" | 5 => "5" | 6 => "6"
  | 7 => "7" | 8 => "8" | 9 => "9" | 10 => "a" | 11 => "b" | 12 => "c"
  | 13 => "d" | 14 => "e" | _ => "f"
  end%N%char.

(** The base-16 digits of [n], most significant first, in front of [acc]. *)
Fixpoint hex_digits (fuel : nat) (n : N) (acc : string) : string :=
  match fuel with
  | O => acc
  | S f =>
      let acc1 := String (hex_digit (n mod 16)) acc in
      if (n / 16 =? 0)%N then acc1 else hex_digits f (n / 16)%N acc1
  end.

Definition hex_of_N (n : N) : string :=
  hex_digits (S (N.to_nat (N.log2 n))) n "".

(** [x.toString(16)] on the numbers of the model. *)
Definition Number_toString16 (x : number) : string :=
  match x with
  | NaN => "NaN"
  | NegZero => "0"
  | Int z => if (z <? 0)%Z then "-" ++ hex_of_N (Z.to_N (- z)) else hex_of_N (Z.to_N z)
  end.

(** [d2h(d)]. *)
Definition d2h (d : number) : string :=
  let h := Number_toString16 d in
  if (String.length h =? 1)%nat then "0" ++ h else h.

Section Message.

(** What [toString()] gives for an object or a function (and the decimal
    form of a number, which the class never asks for: a numeric target
    goes through [d2h]). *)
Variable object_toString : value -> string.

(** ToString, as a template literal applies it. *)
Definition ToString (v : value) : string :=
  match v with
  | VUndefined => "undefined"
  | VNull => "null"
  | VBoolean true => "true"
  | VBoolean false => "false"
  | VString s => s
  | VNumber _ | VObject _ | VFunction _ => object_toString v
  end.

(** [context.join(', ')]. *)
Definition join (context : list string) : string := String.concat ", " context.

(** [constructor(value, type, target, context = [])]: the message handed
    to [Error]; [None] is an absent [context]. *)
Definition constructor (value : JS.value) (type : string) (target : JS.value)
    (context : option (list string)) : string :=
  let context := default [] context in
  let message :=
    match target with
    | VNumber d => "with the value " ++ d2h d
    | _ => "called " ++ Enum.dquote ++ ToString target ++ Enum.dquote
    end in
  let message := "Can't find " ++ type ++ " " ++ message in
  if (0 <? List.length context)%nat
  then message ++ " (" ++ join context ++ ")"
  else message.

End Message.

End InvalidCommandError.

(** ** Sample parameters for the examples *)

Module Sample.

Import JS.

(** An upper-case, underscore-separated normalizer standing for
    [constantCase] in the examples: letters are upper-cased, digits kept,
    every other character becomes an underscore. *)
Definition upper_char (c : ascii) : ascii :=
  let n := nat_of_ascii c in
  if (97 <=? n)%nat && (n <=? 122)%nat then ascii_of_nat (n - 32)
  else if ((65 <=? n)%nat && (n <=? 90)%nat) || is_digit c then c
  else "_"%char.

Fixpoint constantCase (s : string) : string :=
  match s with
  | EmptyString => EmptyString
  | String c r => String (upper_char c) (constantCase r)
  end.

Definition getTypeName (e : Enum.enums) : string :=
  match e with
  | Enum.EArray _ => "Array"%string
  | Enum.EMapping _ => "Object"%string
  end.

(** The rest of the program is one integer; function 0 returns it and adds
    one to it, function 1 returns [NaN], every other function returns 7. *)
Definition call (f : fn) (_ : object) (w : Z) : value * Z :=
  match f with
  | O => (VNumber (Int w), w + 1)
  | S O => (VNumber NaN, w)
  | _ => (VNumber (Int 7), w)
  end.

(** The same functions for the methods, with function 2 throwing the
    string [boom]. *)
Definition invoke (f : fn) (_ : object) (w : Z) : completion value * Z :=
  match f with
  | O => (Normal (VNumber (Int w)), w + 1)
  | S O => (Normal (VNumber NaN), w)
  | S (S O) => (Throw (Thrown (VString "boom")), w)
  | _ => (Normal (VNumber (Int 7)), w)
  end.

Definition object_toString (v : value) : string := "[object Object]"%string.

(** Two keys for [true] and one for [false]. *)
Definition answers : Enum.enums :=
  Enum.EMapping [("YES", VBoolean true); ("NO", VBoolean false);
                 ("SURE", VBoolean true)]%string.

(** Two keys for 1, one for 2, and a computed member that counts. *)
Definition levels : Enum.enums :=
  Enum.EMapping [("LOW", VNumber (Int 1)); ("HIGH", VNumber (Int 2));
                 ("ALSO_LOW", VNumber (Int 1)); ("TICK", VFunction 0%nat)]%string.

End Sample.

(** ** Notions used in the statements *)

Module Notions.

Import JS.

(** The properties the constructor creates, as they stand once defined:
    a fixed member and a computed member. *)
Definition fixed_member (v : value) : property := DataProperty v false true false.
Definition computed_member (f : fn) : property := AccessorProperty (Some f) None true false.

Definition mem (x : string) (l : list string) : bool := existsb (String.eqb x) l.

(** The elements of [l] that are neither in [seen] nor earlier in [l]. *)
Fixpoint fresh (seen l : list string) : list string :=
  match l with
  | [] => []
  | x :: r => if mem x seen then fresh seen r else x :: fresh (x :: seen) r
  end.

(** [l] without the repetitions of an earlier element. *)
Definition first_occurrences (l : list string) : list string := fresh [] l.

(** The members the iota branch defines for [rows] from the number [n] on. *)
Fixpoint numbered (n : Z) (rows : list string) : list (string * property) :=
  match rows with
  | [] => []
  | k :: r => (k, fixed_member (VNumber (Int n))) :: numbered (n + 1) r
  end.

(** The member the mapping branch defines for the value [v] of an entry. *)
Definition member_of (v : value) : property :=
  match v with
  | VFunction f => computed_member f
  | _ => fixed_member v
  end.

(** The number the next read of [Enum._iota] returns. *)
Definition counter_value (c : Enum.counter) : Z :=
  match c with Some n => n | None => 0 end.

(** The resolved values kept when every value strictly equal to an earlier
    one is dropped. *)
Fixpoint distinct_after (seen s : list value) : list value :=
  match s with
  | [] => []
  | x :: r =>
      if existsb (fun y => strict_equals y x) seen
      then distinct_after (seen ++ [x]) r
      else x :: distinct_after (seen ++ [x]) r
  end.

Definition distinct (s : list value) : list value := distinct_after [] s.

(** No two elements of [s] are strictly equal. *)
Definition pairwise_distinct (s : list value) : Prop :=
  ForallOrdPairs (fun x y => strict_equals x y = false) s.

(** A frozen object: not extensible, no property configurable, no data
    property writable. *)
Definition frozen_property (p : property) : bool :=
  match p with
  | DataProperty _ w _ c => negb w && negb c
  | AccessorProperty _ _ _ c => negb c
  end.

Definition frozen (o : object) : Prop :=
  extensible o = false /\ forall k p, In (k, p) (properties o) -> frozen_property p = true.

(** The attempts to change an object after its construction. *)
Inductive operation : Type :=
| Define (k : string) (d : descriptor)
| Assign (k : string) (v : value)
| Remove (k : string).

Section Attempts.

Variable W : Type.
Variable call : fn -> object -> W -> value * W.

(** The object and the state an attempt leaves, and whether it failed (by
    an exception, or silently for an assignment or a [delete] in sloppy
    code). *)
Definition attempt (op : operation) (o : object) (w : W) : bool * object * W :=
  match op with
  | Define k d =>
      match Object_defineProperty o k d with
      | Normal o' => (false, o', w)
      | Throw _ => (true, o, w)
      end
  | Assign k v =>
      let '(ok, o', w') := Set_ W call o k v w in (negb ok, o', w')
  | Remove k =>
      let (ok, o') := Delete o k in (negb ok, o', w)
  end.

Fixpoint attempts (ops : list operation) (o : object) (w : W) : object * W :=
  match ops with
  | [] => (o, w)
  | op :: r => let '(_, o', w') := attempt op o w in attempts r o' w'
  end.

End Attempts.

Section Reading.

Variable W : Type.
Variable invoke : fn -> object -> W -> completion value * W.

(** What reading the member [k] of [e] in the state [w] gives, and the
    state it leaves: a fixed member gives the value it holds, a computed
    member what a call of its function on [e] gives. *)
Inductive read (e : object) (k : string) : W -> completion value -> W -> Prop :=
| read_fixed (v : value) (w : W) :
    GetOwnProperty e k = Some (fixed_member v) ->
    read e k w (Normal v) w
| read_computed (f : fn) (w w1 : W) (c : completion value) :
    GetOwnProperty e k = Some (computed_member f) ->
    invoke f e w = (c, w1) ->
    read e k w c w1.

(** Reading the members [ks] one after the other from the state [w]
    gives the values [r], in the order of [ks], and leaves the state
    [w1]. *)
Inductive reads (e : object) : list string -> W -> list value -> W -> Prop :=
| reads_nil (w : W) : reads e [] w [] w
| reads_cons (k : string) (ks : list string) (w w1 w2 : W) (v : value) (vs : list value) :
    read e k w (Normal v) w1 -> reads e ks w1 vs w2 ->
    reads e (k :: ks) w (v :: vs) w2.

(** Reading the members [ks] one after the other from the state [w]
    stops at the first read that throws: it throws [x] in the state
    [w1]. *)
Inductive reads_throw (e : object) : list string -> W -> exn -> W -> Prop :=
| throw_here (k : string) (ks : list string) (w w1 : W) (x : exn) :
    read e k w (Throw x) w1 ->
    reads_throw e (k :: ks) w x w1
| throw_later (k : string) (ks : list string) (w w1 w2 : W) (v : value) (x : exn) :
    read e k w (Normal v) w1 -> reads_throw e ks w1 x w2 ->
    reads_throw e (k :: ks) w x w2.

End Reading.

(** The names of the methods of the class. *)
Definition methods : list string :=
  ["keys"; "values"; "hasKey"; "hasValue"; "findForValue"; "toString"]%string.

(** No member of [e] has the name of a method of the class. *)
Definition plain (e : object) : Prop :=
  forall m, In m methods -> GetOwnProperty e m = None.

(** The keys in the order in which the constructor defines them. *)
Definition declared_keys (constantCase : string -> string) (e : Enum.enums)
    (auto : option bool) : list string :=
  match e with
  | Enum.EArray rows =>
      if default false auto then first_occurrences (map constantCase rows) else rows
  | Enum.EMapping entries => first_occurrences (map fst entries)
  end.

(** The value the last entry of a key gives it in an object literal. *)
Fixpoint last_value (k : string) (entries : list (string * value)) : option value :=
  match entries with
  | [] => None
  | (k', v) :: r =>
      match last_value k r with
      | Some v' => Some v'
      | None => if String.eqb k k' then Some v else None
      end
  end.

(** The items [key=number] of the keys [rows] numbered from [n] on. *)
Fixpoint numbered_text (n : Z) (rows : list string) : list string :=
  match rows with
  | [] => []
  | k :: r => (k ++ "=" ++ Enum.decimal (Z.to_N n))%string :: numbered_text (n + 1) r
  end.

Section Process.

Variable constantCase : string -> string.
Variable getTypeName : Enum.enums -> string.

(** One use of the counter of the class by the process: a call of the
    constructor, whatever its arguments and whether it returns or throws,
    or a read of the getter [Enum._iota]. *)
Inductive step : Enum.counter -> Enum.counter -> Prop :=
| step_new (e : Enum.enums) (auto : option bool) (c : Enum.counter) :
    step c (Enum.__iota (snd (Enum.new_Enum constantCase getTypeName e auto c)))
| step_read (c : Enum.counter) :
    step c (snd (Enum._iota c)).

(** The counter [c'] is the counter [c] some steps later; a process starts
    at [None]. *)
Inductive runs : Enum.counter -> Enum.counter -> Prop :=
| runs_here (c : Enum.counter) : runs c c
| runs_on (c c1 c2 : Enum.counter) : step c c1 -> runs c1 c2 -> runs c c2.

End Process.

(** The value of a string of lower-case hexadecimal digits. *)
Definition hex_digit_value (c : ascii) : option N :=
  let n := nat_of_ascii c in
  if is_digit c then Some (N.of_nat (n - 48))
  else if (97 <=? n)%nat && (n <=? 102)%nat then Some (N.of_nat (n - 87))
  else None.

Fixpoint hex_value_from (acc : N) (s : string) : option N :=
  match s with
  | EmptyString => Some acc
  | String c r =>
      match hex_digit_value c with
      | Some d => hex_value_from (16 * acc + d)%N r
      | None => None
      end
  end.

Definition hex_value (s : string) : option N :=
  match s with
  | EmptyString => None
  | _ => hex_value_from 0 s
  end.

(** What the message ends with for a given context. *)
Definition context_suffix (context : option (list string)) : string :=
  match context with
  | None | Some [] => EmptyString
  | Some l => (" (" ++ String.concat ", " l ++ ")")%string
  end.

End Notions.

(** * Properties *)

(** ** Equality of values *)

Section Equality.

Import JS.

Lemma number_same_eq (x y : number) : number_same x y = true <-> x = y.
Proof.
  destruct x, y; simpl; split; intro H; try congruence; try reflexivity.
  - apply Z.eqb_eq in H. congruence.
  - inversion H. apply Z.eqb_refl.
Qed.

Lemma same_fn_eq (a b : option fn) : same_fn a b = true <-> a = b.
Proof.
  destruct a, b; simpl; split; intro H; try congruence; try reflexivity.
  - apply Nat.eqb_eq in H. congruence.
  - inversion H. apply Nat.eqb_refl.
Qed.

(** SameValue is identity of values in the model. *)
Lemma same_value_eq (x y : value) : same_value x y = true <-> x = y.
Proof.
  unfold same_value.
  destruct x, y; simpl; split; intro H; try congruence; try reflexivity.
  - apply Bool.eqb_prop in H. congruence.
  - inversion H. apply Bool.eqb_reflx.
  - apply number_same_eq in H. congruence.
  - inversion H. apply number_same_eq. reflexivity.
  - apply String.eqb_eq in H. congruence.
  - inversion H. apply String.eqb_refl.
  - apply Nat.eqb_eq in H. congruence.
  - inversion H. apply Nat.eqb_refl.
  - apply Nat.eqb_eq in H. congruence.
  - inversion H. apply Nat.eqb_refl.
Qed.

(** A value is strictly equal to itself unless it is [NaN]. *)
Lemma strict_equals_refl (x : value) : strict_equals x x = negb (is_NaN x).
Proof.
  unfold strict_equals. destruct x; simpl; try reflexivity.
  - destruct b; reflexivity.
  - destruct n; simpl; try reflexivity. apply Z.eqb_refl.
  - apply String.eqb_refl.
  - apply Nat.eqb_refl.
  - apply Nat.eqb_refl.
Qed.

Lemma strict_equals_not_NaN (x y : value) :
  strict_equals x y = true -> is_NaN x = false /\ is_NaN y = false.
Proof.
  unfold strict_equals. destruct x, y; simpl; try discriminate; auto.
  destruct n, n0; simpl; try discriminate; auto.
Qed.

(** SameValueZero and strict equality differ on [NaN] only. *)
Lemma same_value_zero_strict (x y : value) :
  is_NaN x = false -> same_value_zero x y = strict_equals x y.
Proof.
  unfold same_value_zero, strict_equals.
  destruct x, y; simpl; try reflexivity.
  destruct n, n0; simpl; try reflexivity; discriminate.
Qed.


End Equality.

(** ** Own properties *)

Section Objects.

Import JS Notions.

Lemma lookup_app (k : string) (ps qs : list (string * property)) :
  lookup k (ps ++ qs) =
  match lookup k ps with Some p => Some p | None => lookup k qs end.
Proof.
  induction ps as [|[k' p'] ps IH]; simpl; [reflexivity|].
  destruct (String.eqb k k'); [reflexivity|exact IH].
Qed.

Lemma lookup_In (k : string) (p : property) (ps : list (string * property)) :
  lookup k ps = Some p -> In (k, p) ps.
Proof.
  induction ps as [|[k' p'] ps IH]; simpl; [discriminate|].
  destruct (String.eqb k k') eqn:E.
  - apply String.eqb_eq in E. subst. intro H. inversion H. left. reflexivity.
  - intro H. right. apply IH. exact H.
Qed.

Lemma mem_In (x : string) (l : list string) : mem x l = true <-> In x l.
Proof.
  unfold mem. rewrite existsb_exists. split.
  - intros [y [Hy E]]. apply String.eqb_eq in E. subst. exact Hy.
  - intro H. exists x. split; [exact H|apply String.eqb_refl].
Qed.

Lemma mem_lookup (k : string) (ps : list (string * property)) :
  mem k (map fst ps) = is_some (lookup k ps).
Proof.
  induction ps as [|[k' p'] ps IH]; simpl; [reflexivity|].
  destruct (String.eqb k k'); simpl; [reflexivity|exact IH].
Qed.

Lemma lookup_None (k : string) (ps : list (string * property)) :
  lookup k ps = None <-> ~ In k (map fst ps).
Proof.
  rewrite <- mem_In, mem_lookup. destruct (lookup k ps); simpl; split; intro H;
    congruence.
Qed.

Lemma In_lookup (k : string) (ps : list (string * property)) :
  In k (map fst ps) -> exists p, lookup k ps = Some p /\ In (k, p) ps.
Proof.
  intro H. destruct (lookup k ps) as [p|] eqn:E.
  - exists p. split; [reflexivity|apply lookup_In; exact E].
  - apply lookup_None in E. contradiction.
Qed.

Lemma replace_same (k : string) (p : property) (ps : list (string * property)) :
  lookup k ps = Some p -> replace k p ps = ps.
Proof.
  induction ps as [|[k' p'] ps IH]; simpl; [reflexivity|].
  destruct (String.eqb k k') eqn:E.
  - intro H. inversion H. reflexivity.
  - intro H. rewrite IH by exact H. reflexivity.
Qed.

Lemma replace_keys (k : string) (p : property) (ps : list (string * property)) :
  map fst (replace k p ps) = map fst ps.
Proof.
  induction ps as [|[k' p'] ps IH]; simpl; [reflexivity|].
  destruct (String.eqb k k'); simpl; [reflexivity|]. rewrite IH. reflexivity.
Qed.

(** Defining a value on a key the object does not have adds a fixed member
    after the others. *)
Lemma define_value_new (o : object) (k : string) (v : value) :
  GetOwnProperty o k = None -> extensible o = true ->
  Object_defineProperty o k (Enum.value_init v) =
  Normal {| properties := properties o ++ [(k, fixed_member v)]; extensible := true |}.
Proof.
  intros H Hx. unfold Object_defineProperty, DefineOwnProperty. simpl.
  rewrite H, Hx. reflexivity.
Qed.

(** Defining again the value a fixed member holds changes nothing. *)
Lemma define_value_same (o : object) (k : string) (v : value) :
  GetOwnProperty o k = Some (fixed_member v) ->
  Object_defineProperty o k (Enum.value_init v) = Normal o.
Proof.
  intro H. unfold Object_defineProperty, DefineOwnProperty. simpl.
  rewrite H. unfold redefinition_allowed. simpl.
  assert (E : same_value v v = true) by (apply same_value_eq; reflexivity).
  rewrite E. simpl. unfold GetOwnProperty in H.
  change (DataProperty v false true false) with (fixed_member v).
  rewrite (replace_same k _ _ H). destruct o; reflexivity.
Qed.

(** Defining another value on a fixed member is refused. *)
Lemma define_value_other (o : object) (k : string) (v v' : value) :
  GetOwnProperty o k = Some (fixed_member v') -> v <> v' ->
  Object_defineProperty o k (Enum.value_init v) =
  Throw (TypeError ("Cannot redefine property: " ++ k)).
Proof.
  intros H Hv. unfold Object_defineProperty, DefineOwnProperty. simpl.
  rewrite H. unfold redefinition_allowed. simpl.
  destruct (same_value v v') eqn:E.
  - apply same_value_eq in E. contradiction.
  - reflexivity.
Qed.

Lemma define_get_new (o : object) (k : string) (f : fn) :
  GetOwnProperty o k = None -> extensible o = true ->
  Object_defineProperty o k (Enum.get_init f) =
  Normal {| properties := properties o ++ [(k, computed_member f)]; extensible := true |}.
Proof.
  intros H Hx. unfold Object_defineProperty, DefineOwnProperty. simpl.
  rewrite H, Hx. reflexivity.
Qed.

Lemma define_member_new (o : object) (k : string) (v : value) :
  GetOwnProperty o k = None -> extensible o = true ->
  Object_defineProperty o k (Enum.init_for v) =
  Normal {| properties := properties o ++ [(k, member_of v)]; extensible := true |}.
Proof.
  intros H Hx. destruct v;
    first [apply define_get_new; assumption | apply define_value_new; assumption].
Qed.

End Objects.

(** ** The loops of the constructor *)

Section Loops.

Import JS Notions Enum.

Lemma _iota_value (c : counter) :
  _iota c = (counter_value c, Some (counter_value c + 1)).
Proof.
  destruct c as [n|]; unfold _iota; simpl; [|reflexivity].
  destruct (n =? 0) eqn:E; [|reflexivity].
  apply Z.eqb_eq in E. subst. reflexivity.
Qed.

Lemma object_eta (o : object) :
  extensible o = true ->
  o = {| properties := properties o ++ []; extensible := true |}.
Proof. intro H. destruct o; simpl in *. rewrite app_nil_r. congruence. Qed.

(** Either a list of keys has no repetition and avoids [seen], or it has a
    first element that repeats an earlier one or an element of [seen]. *)
Lemma first_repeat (l seen : list string) :
  (NoDup l /\ forall x, In x l -> ~ In x seen) \/
  exists pre k post, l = pre ++ k :: post /\ NoDup pre /\
    (forall x, In x pre -> ~ In x seen) /\ (In k pre \/ In k seen).
Proof.
  revert seen. induction l as [|x r IH]; intro seen.
  - left. split; [constructor|intros x []].
  - destruct (in_dec string_dec x seen) as [Hs|Hs].
    + right. exists [], x, r.
      split; [reflexivity|split; [constructor|split; [intros y []|right; exact Hs]]].
    + destruct (IH (x :: seen)) as [[Hn Hf]|[pre [k [post [E [Hn [Hf Hk]]]]]]].
      * left. split.
        -- constructor; [|exact Hn]. intro Hx. apply (Hf x Hx). left. reflexivity.
        -- intros y [<-|Hy]; [exact Hs|]. intro Hy'. apply (Hf y Hy). right. exact Hy'.
      * right. exists (x :: pre), k, post. subst r. repeat split.
        -- constructor; [|exact Hn]. intro Hx. apply (Hf x Hx). left. reflexivity.
        -- intros y [<-|Hy]; [exact Hs|]. intro Hy'. apply (Hf y Hy). right. exact Hy'.
        -- destruct Hk as [Hk|[Hk|Hk]]; [left; right; exact Hk|left; left; exact Hk|right; exact Hk].
Qed.

(** *** The iota branch *)

(** When the loop ends normally it has added one member per key, numbered
    from the counter on, and the keys were new and without repetition. *)
Lemma iota_loop_normal (rows : list string) : forall (o : object) (c : counter) (s' : cstate),
  extensible o = true ->
  (forall k p, In (k, p) (properties o) ->
     exists m, p = fixed_member (VNumber (Int m)) /\ m < counter_value c) ->
  iota_loop rows {| this := o; __iota := c |} = (Normal tt, s') ->
  this s' = {| properties := properties o ++ numbered (counter_value c) rows;
               extensible := true |}
  /\ counter_value (__iota s') = counter_value c + Z.of_nat (List.length rows)
  /\ NoDup rows
  /\ (forall k, In k rows -> GetOwnProperty o k = None).
Proof.
  induction rows as [|key rest IH]; intros o c s' Hx Hinv H.
  - simpl in H. inversion H; subst; simpl. repeat split.
    + apply object_eta. exact Hx.
    + lia.
    + constructor.
    + intros k [].
  - cbn [iota_loop] in H. rewrite _iota_value in H. cbn [this __iota] in H.
    destruct (GetOwnProperty o key) as [p|] eqn:G.
    + destruct (Hinv key p (lookup_In _ _ _ G)) as [m [-> Hm]].
      rewrite (define_value_other o key _ _ G) in H; [discriminate|].
      intro E. inversion E. lia.
    + rewrite (define_value_new o key _ G Hx) in H.
      apply IH in H; [|reflexivity|].
      * cbn [properties counter_value] in H.
        destruct H as [Ht [Hc [Hn Hf]]]. repeat split.
        -- rewrite Ht. simpl. rewrite <- app_assoc. reflexivity.
        -- rewrite Hc. cbn [List.length]. lia.
        -- constructor; [|exact Hn]. intro Hk. specialize (Hf key Hk).
           unfold GetOwnProperty in Hf. cbn [properties] in Hf.
           rewrite lookup_app in Hf. unfold GetOwnProperty in G. rewrite G in Hf.
           simpl in Hf. rewrite String.eqb_refl in Hf. discriminate.
        -- intros k [<-|Hk]; [exact G|]. specialize (Hf k Hk).
           unfold GetOwnProperty in *. cbn [properties] in Hf.
           rewrite lookup_app in Hf. destruct (lookup k (properties o)); congruence.
      * cbn [properties counter_value]. intros k p Hin.
        apply in_app_or in Hin. destruct Hin as [Hin|[Hin|[]]].
        -- destruct (Hinv k p Hin) as [m [-> Hm]]. exists m. split; [reflexivity|lia].
        -- inversion Hin; subst. exists (counter_value c). split; [reflexivity|lia].
Qed.

(** New keys without repetition make the loop end normally. *)
Lemma iota_loop_complete (rows : list string) : forall (o : object) (c : counter),
  extensible o = true ->
  NoDup rows -> (forall k, In k rows -> GetOwnProperty o k = None) ->
  exists s', iota_loop rows {| this := o; __iota := c |} = (Normal tt, s').
Proof.
  induction rows as [|key rest IH]; intros o c Hx Hn Hf.
  - eexists. reflexivity.
  - cbn [iota_loop]. rewrite _iota_value. cbn [this __iota].
    rewrite (define_value_new o key _ (Hf key (or_introl eq_refl)) Hx).
    inversion Hn; subst. apply IH; [reflexivity|assumption|].
    intros k Hk. unfold GetOwnProperty. cbn [properties]. rewrite lookup_app.
    specialize (Hf k (or_intror Hk)). unfold GetOwnProperty in Hf. rewrite Hf.
    simpl. destruct (String.eqb k key) eqn:E; [|reflexivity].
    apply String.eqb_eq in E. subst. contradiction.
Qed.

(** At the first key that repeats an earlier one the loop throws: the
    counter has been read for that key too, the members defined so far
    stay. *)
Lemma iota_loop_repeat (pre : list string) :
  forall (k : string) (post : list string) (o : object) (c : counter),
  extensible o = true ->
  (forall k p, In (k, p) (properties o) ->
     exists m, p = fixed_member (VNumber (Int m)) /\ m < counter_value c) ->
  NoDup pre -> (forall x, In x pre -> GetOwnProperty o x = None) ->
  In k pre \/ GetOwnProperty o k <> None ->
  iota_loop (pre ++ k :: post) {| this := o; __iota := c |} =
  (Throw (TypeError ("Cannot redefine property: " ++ k)),
   {| this := {| properties := properties o ++ numbered (counter_value c) pre;
                 extensible := true |};
      __iota := Some (counter_value c + Z.of_nat (List.length pre) + 1) |}).
Proof.
  induction pre as [|x pre IH]; intros k post o c Hx Hinv Hn Hf Hk.
  - destruct Hk as [[]|Hk]. cbn [app iota_loop]. rewrite _iota_value. cbn [this __iota].
    destruct (GetOwnProperty o k) as [p|] eqn:G; [|congruence].
    destruct (Hinv k p (lookup_In _ _ _ G)) as [m [-> Hm]].
    rewrite (define_value_other o k _ _ G).
    + simpl. rewrite <- (object_eta o Hx). rewrite Z.add_0_r. reflexivity.
    + intro E. inversion E. lia.
  - cbn [app iota_loop]. rewrite _iota_value. cbn [this __iota].
    pose proof (Hf x (or_introl eq_refl)) as G.
    rewrite (define_value_new o x _ G Hx). inversion Hn; subst.
    rewrite IH.
    + cbn [properties counter_value numbered List.length]. rewrite <- app_assoc.
      rewrite Nat2Z.inj_succ.
      replace (counter_value c + 1 + Z.of_nat (List.length pre) + 1)
        with (counter_value c + Z.succ (Z.of_nat (List.length pre)) + 1) by lia.
      reflexivity.
    + reflexivity.
    + cbn [properties counter_value]. intros k' p Hin.
      apply in_app_or in Hin. destruct Hin as [Hin|[Hin|[]]].
      * destruct (Hinv k' p Hin) as [m [-> Hm]]. exists m. split; [reflexivity|lia].
      * inversion Hin; subst. exists (counter_value c). split; [reflexivity|lia].
    + assumption.
    + intros y Hy. unfold GetOwnProperty. cbn [properties]. rewrite lookup_app.
      specialize (Hf y (or_intror Hy)). unfold GetOwnProperty in Hf. rewrite Hf.
      simpl. destruct (String.eqb y x) eqn:E; [|reflexivity].
      apply String.eqb_eq in E. subst. contradiction.
    + unfold GetOwnProperty. cbn [properties]. rewrite lookup_app.
      destruct Hk as [[<-|Hk]|Hk].
      * right. unfold GetOwnProperty in G. rewrite G. simpl.
        rewrite String.eqb_refl. discriminate.
      * left. exact Hk.
      * right. unfold GetOwnProperty in Hk.
        destruct (lookup k (properties o)); [discriminate|contradiction].
Qed.

(** *** The auto branch *)

Lemma fresh_ext (l : list string) : forall s1 s2 : list string,
  (forall x, In x s1 <-> In x s2) -> fresh s1 l = fresh s2 l.
Proof.
  induction l as [|x r IH]; intros s1 s2 H; simpl; [reflexivity|].
  assert (E : mem x s1 = mem x s2).
  { destruct (mem x s1) eqn:E1, (mem x s2) eqn:E2; try reflexivity.
    - apply mem_In, H, mem_In in E1. congruence.
    - apply mem_In, H, mem_In in E2. congruence. }
  rewrite E. destruct (mem x s2).
  - apply IH. exact H.
  - f_equal. apply IH. intro y. simpl. rewrite H. reflexivity.
Qed.

Lemma fresh_snoc (seen : list string) (x : string) (l : list string) :
  fresh (seen ++ [x]) l = fresh (x :: seen) l.
Proof.
  apply fresh_ext. intro y. rewrite in_app_iff. simpl. tauto.
Qed.

Variable constantCase : string -> string.

(** When the loop ends normally, every row has its member under its
    normalized key, the members already there stay, and the new keys come
    after the others, one per key, in the order of the rows. *)
Lemma auto_loop_normal (rows : list string) : forall (o : object) (c : counter) (s' : cstate),
  extensible o = true ->
  (forall k p, In (k, p) (properties o) -> exists v, p = fixed_member v) ->
  auto_loop constantCase rows {| this := o; __iota := c |} = (Normal tt, s') ->
  __iota s' = c
  /\ extensible (this s') = true
  /\ map fst (properties (this s')) =
     map fst (properties o) ++ fresh (map fst (properties o)) (map constantCase rows)
  /\ (forall k p, lookup k (properties o) = Some p ->
        lookup k (properties (this s')) = Some p)
  /\ (forall row, In row rows ->
        lookup (constantCase row) (properties (this s')) =
        Some (fixed_member (VString row)))
  /\ (forall k p, In (k, p) (properties (this s')) ->
        In (k, p) (properties o) \/
        exists row, In row rows /\ k = constantCase row /\ p = fixed_member (VString row)).
Proof.
  induction rows as [|row rest IH]; intros o c s' Hx Hinv H.
  - simpl in H. inversion H; subst; simpl. rewrite app_nil_r.
    repeat split; auto. intros row [].
  - cbn [auto_loop] in H. cbn [this __iota] in H.
    destruct (GetOwnProperty o (constantCase row)) as [p|] eqn:G.
    + destruct (Hinv _ p (lookup_In _ _ _ G)) as [v ->].
      destruct (same_value (VString row) v) eqn:E.
      * apply same_value_eq in E. subst v.
        rewrite (define_value_same o _ _ G) in H.
        apply IH in H; [|exact Hx|exact Hinv].
        destruct H as [Hc [Hx' [Hk [Hl [Hr Ho]]]]]. repeat split; auto.
        -- rewrite Hk. cbn [map fresh].
           rewrite mem_lookup. unfold GetOwnProperty in G. rewrite G. reflexivity.
        -- intros r [<-|Hr']; [|apply Hr; exact Hr']. apply Hl. exact G.
        -- intros k p Hin. destruct (Ho k p Hin) as [Hin'|[r [Hr' [-> ->]]]].
           ++ left. exact Hin'.
           ++ right. exists r. repeat split. right. exact Hr'.
      * rewrite (define_value_other o _ _ _ G) in H; [discriminate|].
        intro E'. apply same_value_eq in E'. congruence.
    + rewrite (define_value_new o _ _ G Hx) in H.
      apply IH in H; [|reflexivity|].
      * cbn [properties] in H. destruct H as [Hc [Hx' [Hk [Hl [Hr Ho]]]]].
        repeat split; auto.
        -- rewrite Hk. rewrite map_app. cbn [map fst fresh].
           rewrite mem_lookup. unfold GetOwnProperty in G. rewrite G. cbn [is_some].
           rewrite fresh_snoc, <- app_assoc. reflexivity.
        -- intros k p Hp. apply Hl. rewrite lookup_app, Hp. reflexivity.
        -- intros r [<-|Hr']; [|apply Hr; exact Hr']. apply Hl.
           rewrite lookup_app. unfold GetOwnProperty in G. rewrite G. simpl.
           rewrite String.eqb_refl. reflexivity.
        -- intros k p Hin. destruct (Ho k p Hin) as [Hin'|[r [Hr' [-> ->]]]].
           ++ apply in_app_or in Hin'. destruct Hin' as [Hin'|[Hin'|[]]].
              ** left. exact Hin'.
              ** inversion Hin'; subst. right. exists row. repeat split. left. reflexivity.
           ++ right. exists r. repeat split. right. exact Hr'.
      * cbn [properties]. intros k p Hin.
        apply in_app_or in Hin. destruct Hin as [Hin|[Hin|[]]].
        -- apply (Hinv k p Hin).
        -- inversion Hin; subst. eexists. reflexivity.
Qed.

(** Rows that agree with the members already there and with one another
    make the loop end normally. *)
Lemma auto_loop_complete (rows : list string) : forall (o : object) (c : counter),
  extensible o = true ->
  (forall row p, In row rows -> lookup (constantCase row) (properties o) = Some p ->
     p = fixed_member (VString row)) ->
  (forall r1 r2, In r1 rows -> In r2 rows -> constantCase r1 = constantCase r2 -> r1 = r2) ->
  exists s', auto_loop constantCase rows {| this := o; __iota := c |} = (Normal tt, s').
Proof.
  induction rows as [|row rest IH]; intros o c Hx Ho Hinj.
  - eexists. reflexivity.
  - cbn [auto_loop]. cbn [this __iota].
    destruct (GetOwnProperty o (constantCase row)) as [p|] eqn:G.
    + rewrite (Ho row p (or_introl eq_refl) G) in G.
      rewrite (define_value_same o _ _ G). apply IH; [exact Hx| |].
      * intros r p' Hr. apply Ho. right. exact Hr.
      * intros r1 r2 H1 H2. apply Hinj; right; assumption.
    + rewrite (define_value_new o _ _ G Hx). apply IH; [reflexivity| |].
      * cbn [properties]. intros r p' Hr. rewrite lookup_app.
        destruct (lookup (constantCase r) (properties o)) as [q|] eqn:L.
        -- intro E. inversion E; subst. apply (Ho r p' (or_intror Hr) L).
        -- simpl. destruct (String.eqb (constantCase r) (constantCase row)) eqn:E;
             [|discriminate].
           apply String.eqb_eq in E. intro E'. inversion E'.
           rewrite (Hinj r row (or_intror Hr) (or_introl eq_refl) E). reflexivity.
      * intros r1 r2 H1 H2. apply Hinj; right; assumption.
Qed.

Lemma auto_loop_app (pre rest : list string) : forall s : cstate,
  auto_loop constantCase (pre ++ rest) s =
  match auto_loop constantCase pre s with
  | (Normal _, s1) => auto_loop constantCase rest s1
  | (Throw e, s1) => (Throw e, s1)
  end.
Proof.
  induction pre as [|row pre IH]; intro s; simpl; [reflexivity|].
  destruct (Object_defineProperty (this s) (constantCase row) (value_init (VString row)));
    [apply IH|reflexivity].
Qed.

(** A row whose normalized key already holds another string makes the loop
    throw. *)
Lemma auto_loop_clash (pre post : list string) (row other : string)
    (c : counter) (s1 : cstate) :
  auto_loop constantCase pre {| this := empty_object; __iota := c |} = (Normal tt, s1) ->
  In other pre -> constantCase other = constantCase row -> other <> row ->
  auto_loop constantCase (pre ++ row :: post) {| this := empty_object; __iota := c |} =
  (Throw (TypeError ("Cannot redefine property: " ++ constantCase row)), s1).
Proof.
  intros H Hin Hk Hne. rewrite auto_loop_app, H. cbn [auto_loop].
  apply auto_loop_normal in H; [|reflexivity|intros k p []].
  destruct H as [_ [_ [_ [_ [Hr _]]]]]. specialize (Hr other Hin). rewrite Hk in Hr.
  rewrite (define_value_other (this s1) _ (VString row) (VString other) Hr); [reflexivity|].
  congruence.
Qed.

(** *** The mapping branch *)

Lemma mapping_loop_normal (lit : object) (keys : list string) :
  forall (o : object) (c : counter),
  extensible o = true -> NoDup keys ->
  (forall k, In k keys -> GetOwnProperty o k = None) ->
  mapping_loop lit keys {| this := o; __iota := c |} =
  (Normal tt,
   {| this := {| properties := properties o ++ map (fun k => (k, member_of (entry lit k))) keys;
                 extensible := true |};
      __iota := c |}).
Proof.
  induction keys as [|key rest IH]; intros o c Hx Hn Hf.
  - simpl. rewrite <- (object_eta o Hx). reflexivity.
  - cbn [mapping_loop]. cbn [this __iota].
    rewrite (define_member_new o key (entry lit key) (Hf key (or_introl eq_refl)) Hx).
    inversion Hn; subst. rewrite IH.
    + cbn [properties map]. rewrite <- app_assoc. reflexivity.
    + reflexivity.
    + assumption.
    + intros k Hk. unfold GetOwnProperty. cbn [properties]. rewrite lookup_app.
      specialize (Hf k (or_intror Hk)). unfold GetOwnProperty in Hf. rewrite Hf.
      simpl. destruct (String.eqb k key) eqn:E; [|reflexivity].
      apply String.eqb_eq in E. subst. contradiction.
Qed.

End Loops.

(** ** The order of the keys *)

Section KeyOrder.

Import JS Notions.

Lemma index_keys_no_index (ks : list string) :
  (forall k, In k ks -> array_index k = None) -> index_keys ks = [].
Proof.
  induction ks as [|k r IH]; intro H; simpl; [reflexivity|].
  rewrite (H k (or_introl eq_refl)). apply IH. intros x Hx. apply H. right. exact Hx.
Qed.

(** Without array indices among the keys, the order is the creation order. *)
Lemma key_order_no_index (ks : list string) :
  (forall k, In k ks -> array_index k = None) -> key_order ks = ks.
Proof.
  intro H. unfold key_order. rewrite (index_keys_no_index ks H). simpl.
  induction ks as [|k r IH]; simpl; [reflexivity|].
  unfold is_array_index at 1. rewrite (H k (or_introl eq_refl)). simpl.
  f_equal. apply IH. intros x Hx. apply H. right. exact Hx.
Qed.

Lemma insert_index_perm (x : N * string) (l : list (N * string)) :
  Permutation (insert_index x l) (x :: l).
Proof.
  induction l as [|y r IH]; simpl; [apply Permutation_refl|].
  destruct (fst x <=? fst y)%N; [apply Permutation_refl|].
  eapply Permutation_trans; [apply perm_skip, IH|apply perm_swap].
Qed.

Lemma sort_indices_perm (l : list (N * string)) : Permutation (sort_indices l) l.
Proof.
  induction l as [|x r IH]; simpl; [constructor|].
  eapply Permutation_trans; [apply insert_index_perm|apply perm_skip, IH].
Qed.

Lemma index_keys_keys (ks : list string) :
  map snd (index_keys ks) = filter is_array_index ks.
Proof.
  induction ks as [|k r IH]; simpl; [reflexivity|].
  unfold is_array_index at 1. destruct (array_index k); simpl; rewrite IH; reflexivity.
Qed.

Lemma filter_split_perm {A} (p : A -> bool) (l : list A) :
  Permutation (filter p l ++ filter (fun x => negb (p x)) l) l.
Proof.
  induction l as [|x r IH]; simpl; [constructor|].
  destruct (p x); simpl.
  - apply perm_skip, IH.
  - apply Permutation_sym. eapply Permutation_trans;
      [apply perm_skip, Permutation_sym, IH|apply Permutation_middle].
Qed.

(** The ordered keys are the keys, rearranged. *)
Lemma key_order_perm (ks : list string) : Permutation (key_order ks) ks.
Proof.
  unfold key_order. eapply Permutation_trans; [|apply (filter_split_perm is_array_index)].
  apply Permutation_app_tail. rewrite <- index_keys_keys.
  apply Permutation_map, sort_indices_perm.
Qed.

Lemma key_order_In (ks : list string) (k : string) : In k (key_order ks) <-> In k ks.
Proof.
  split; apply Permutation_in; [|apply Permutation_sym]; apply key_order_perm.
Qed.

Lemma key_order_NoDup (ks : list string) : NoDup ks -> NoDup (key_order ks).
Proof.
  apply Permutation_NoDup, Permutation_sym, key_order_perm.
Qed.

Lemma insert_index_sorted (x : N * string) (l : list (N * string)) :
  Sorted (fun a b => (fst a <= fst b)%N) l ->
  Sorted (fun a b => (fst a <= fst b)%N) (insert_index x l).
Proof.
  induction l as [|y r IH]; intro H; simpl.
  - repeat constructor.
  - destruct (fst x <=? fst y)%N eqn:E.
    + constructor; [exact H|]. constructor. apply N.leb_le. exact E.
    + apply N.leb_gt in E. inversion H as [|? ? Hs Hh]; subst.
      constructor; [apply IH; exact Hs|].
      destruct r as [|z r]; simpl.
      * constructor. lia.
      * destruct (fst x <=? fst z)%N; constructor; [lia|].
        inversion Hh; subst. assumption.
Qed.

Lemma sort_indices_sorted (l : list (N * string)) :
  Sorted (fun a b => (fst a <= fst b)%N) (sort_indices l).
Proof.
  induction l as [|x r IH]; simpl; [constructor|apply insert_index_sorted, IH].
Qed.

Lemma sort_indices_of_sorted (l : list (N * string)) :
  Sorted (fun a b => (fst a <= fst b)%N) l -> sort_indices l = l.
Proof.
  induction l as [|x r IH]; intro H; simpl; [reflexivity|].
  inversion H as [|? ? Hs Hh]; subst. rewrite (IH Hs).
  destruct r as [|y r]; simpl; [reflexivity|].
  inversion Hh; subst. destruct (fst x <=? fst y)%N eqn:E; [reflexivity|].
  apply N.leb_gt in E. lia.
Qed.

Lemma index_keys_In (ks : list string) (n : N) (k : string) :
  In (n, k) (index_keys ks) -> array_index k = Some n.
Proof.
  induction ks as [|k' r IH]; simpl; [intros []|].
  destruct (array_index k') eqn:E; [|exact IH].
  intros [H|H]; [inversion H; subst; exact E|apply IH; exact H].
Qed.

Lemma index_keys_app (a b : list string) :
  index_keys (a ++ b) = index_keys a ++ index_keys b.
Proof.
  induction a as [|k r IH]; simpl; [reflexivity|].
  destruct (array_index k); simpl; rewrite IH; reflexivity.
Qed.

Lemma index_keys_of_pairs (l : list (N * string)) :
  (forall n k, In (n, k) l -> array_index k = Some n) -> index_keys (map snd l) = l.
Proof.
  induction l as [|[n k] r IH]; intro H; simpl; [reflexivity|].
  rewrite (H n k (or_introl eq_refl)). f_equal. apply IH.
  intros n' k' Hin. apply H. right. exact Hin.
Qed.

Lemma filter_none {A} (p : A -> bool) (l : list A) :
  (forall x, In x l -> p x = false) -> filter p l = [].
Proof.
  induction l as [|x r IH]; intro H; simpl; [reflexivity|].
  rewrite (H x (or_introl eq_refl)). apply IH. intros y Hy. apply H. right. exact Hy.
Qed.

Lemma filter_all {A} (p : A -> bool) (l : list A) :
  (forall x, In x l -> p x = true) -> filter p l = l.
Proof.
  induction l as [|x r IH]; intro H; simpl; [reflexivity|].
  rewrite (H x (or_introl eq_refl)). f_equal. apply IH. intros y Hy. apply H. right. exact Hy.
Qed.

Lemma filter_twice {A} (p : A -> bool) (l : list A) :
  filter p (filter p l) = filter p l.
Proof.
  apply filter_all. intros x Hx. apply filter_In in Hx. apply Hx.
Qed.

(** Ordering keys that are already ordered changes nothing. *)
Lemma key_order_idempotent (ks : list string) : key_order (key_order ks) = key_order ks.
Proof.
  unfold key_order at 1.
  assert (Hp : forall n k, In (n, k) (sort_indices (index_keys ks)) ->
                           array_index k = Some n).
  { intros n k H. apply (index_keys_In ks).
    apply (Permutation_in _ (sort_indices_perm _)). exact H. }
  assert (Hi : index_keys (key_order ks) = sort_indices (index_keys ks)).
  { unfold key_order. rewrite index_keys_app, (index_keys_of_pairs _ Hp).
    rewrite (index_keys_no_index (filter _ ks)); [apply app_nil_r|].
    intros k Hk. apply filter_In in Hk. destruct Hk as [_ Hk].
    unfold is_array_index in Hk. destruct (array_index k); [discriminate|reflexivity]. }
  rewrite Hi, (sort_indices_of_sorted _ (sort_indices_sorted _)).
  unfold key_order. f_equal. rewrite filter_app, filter_twice.
  rewrite filter_none; [reflexivity|].
  intros k Hk. apply in_map_iff in Hk. destruct Hk as [[n k'] [E Hin]]. simpl in E. subst k'.
  unfold is_array_index. rewrite (Hp n k Hin). reflexivity.
Qed.

Lemma fresh_In (l : list string) : forall (seen : list string) (x : string),
  In x (fresh seen l) <-> In x l /\ ~ In x seen.
Proof.
  induction l as [|y r IH]; intros seen x; simpl; [tauto|].
  destruct (mem y seen) eqn:E.
  - rewrite IH. apply mem_In in E. split.
    + intros [H1 H2]. split; [right; exact H1|exact H2].
    + intros [[<-|H1] H2]; [contradiction|split; assumption].
  - assert (Hy : ~ In y seen) by (intro H; apply mem_In in H; congruence).
    simpl. rewrite IH. simpl. split.
    + intros [<-|[H1 H2]]; [split; [left; reflexivity|exact Hy]|].
      split; [right; exact H1|]. intro H. apply H2. right. exact H.
    + intros [[<-|H1] H2]; [left; reflexivity|].
      destruct (string_dec y x) as [->|Hne]; [left; reflexivity|].
      right. split; [exact H1|]. intros [H|H]; [contradiction|contradiction].
Qed.

Lemma fresh_NoDup (l : list string) : forall seen : list string, NoDup (fresh seen l).
Proof.
  induction l as [|y r IH]; intro seen; simpl; [constructor|].
  destruct (mem y seen); [apply IH|].
  constructor; [|apply IH]. rewrite fresh_In. intros [_ H]. apply H. left. reflexivity.
Qed.

Lemma fresh_of_NoDup (l : list string) : forall seen : list string,
  NoDup l -> (forall x, In x l -> ~ In x seen) -> fresh seen l = l.
Proof.
  induction l as [|y r IH]; intros seen Hn Hf; simpl; [reflexivity|].
  inversion Hn; subst.
  destruct (mem y seen) eqn:E.
  - apply mem_In in E. exfalso. apply (Hf y (or_introl eq_refl) E).
  - f_equal. apply IH; [assumption|].
    intros x Hx [<-|H]; [contradiction|]. apply (Hf x (or_intror Hx) H).
Qed.

Lemma first_occurrences_NoDup (l : list string) : NoDup (first_occurrences l).
Proof. apply fresh_NoDup. Qed.

Lemma first_occurrences_In (l : list string) (x : string) :
  In x (first_occurrences l) <-> In x l.
Proof. unfold first_occurrences. rewrite fresh_In. simpl. tauto. Qed.

Lemma first_occurrences_of_NoDup (l : list string) : NoDup l -> first_occurrences l = l.
Proof. intro H. apply fresh_of_NoDup; [exact H|intros x _ []]. Qed.

(** [Object.keys] of an object whose properties are all enumerable. *)
Lemma Object_keys_enumerable (o : object) :
  (forall k p, In (k, p) (properties o) -> prop_enumerable p = true) ->
  Object_keys o = key_order (map fst (properties o)).
Proof.
  intro H. unfold Object_keys, OwnPropertyKeys. apply filter_all.
  intros k Hk. apply (proj1 (key_order_In _ _)) in Hk.
  destruct (In_lookup k _ Hk) as [p [E Hin]]. unfold GetOwnProperty. rewrite E.
  apply (H k p Hin).
Qed.

End KeyOrder.

(** ** What the constructor builds *)

Section Construction.

Import JS Notions Enum.

Variable constantCase : string -> string.
Variable getTypeName : enums -> string.

Lemma freeze_fixed (o : object) :
  (forall k p, In (k, p) (properties o) -> freeze_property p = p) ->
  Object_freeze o = {| properties := properties o; extensible := false |}.
Proof.
  intro H. unfold Object_freeze. f_equal.
  induction (properties o) as [|[k p] r IH]; simpl; [reflexivity|].
  rewrite (H k p (or_introl eq_refl)). f_equal. apply IH.
  intros k' p' Hin. apply (H k' p'). right. exact Hin.
Qed.

Lemma numbered_keys (rows : list string) : forall n : Z, map fst (numbered n rows) = rows.
Proof. induction rows as [|k r IH]; intro n; simpl; [reflexivity|]. rewrite IH. reflexivity. Qed.

Lemma numbered_In (rows : list string) : forall (n : Z) (k : string) (p : property),
  In (k, p) (numbered n rows) ->
  exists i, nth_error rows i = Some k /\ p = fixed_member (VNumber (Int (n + Z.of_nat i))).
Proof.
  induction rows as [|k0 r IH]; intros n k p; simpl; [intros []|].
  intros [H|H].
  - inversion H; subst. exists O. simpl. rewrite Z.add_0_r. split; reflexivity.
  - destruct (IH _ _ _ H) as [i [Hi ->]]. exists (S i). split; [exact Hi|].
    rewrite Nat2Z.inj_succ. repeat (f_equal; try lia).
Qed.

Lemma numbered_lookup (rows : list string) : forall (n : Z) (i : nat) (k : string),
  NoDup rows -> nth_error rows i = Some k ->
  lookup k (numbered n rows) = Some (fixed_member (VNumber (Int (n + Z.of_nat i)))).
Proof.
  induction rows as [|k0 r IH]; intros n i k Hn Hi; [destruct i; discriminate|].
  inversion Hn; subst. destruct i as [|i]; simpl in *.
  - inversion Hi; subst. rewrite String.eqb_refl, Z.add_0_r. reflexivity.
  - destruct (String.eqb k k0) eqn:E.
    + apply String.eqb_eq in E. subst. apply nth_error_In in Hi. contradiction.
    + rewrite (IH (n + 1) i k); [|assumption|assumption].
      repeat (f_equal; try lia).
Qed.

(** The iota branch, when the constructor returns. *)
Lemma new_Enum_iota (rows : list string) (auto : option bool) (c : counter) (s : cstate) :
  default false auto = false ->
  new_Enum constantCase getTypeName (EArray rows) auto c = (Normal tt, s) ->
  this s = {| properties := numbered (counter_value c) rows; extensible := false |}
  /\ counter_value (__iota s) = counter_value c + Z.of_nat (List.length rows)
  /\ NoDup rows.
Proof.
  intros Ha H. unfold new_Enum, constructor in H. rewrite Ha in H. simpl in H.
  destruct (iota_loop rows _) as [[[]|x] s1] eqn:L; [|discriminate].
  apply iota_loop_normal in L; [|reflexivity|intros k p []].
  destruct L as [Ht [Hc [Hn _]]]. simpl in Ht, Hc.
  assert (Hf : Object_freeze (this s1) =
               {| properties := properties (this s1); extensible := false |}).
  { apply freeze_fixed. rewrite Ht. simpl. intros k p Hin.
    apply numbered_In in Hin. destruct Hin as [i [_ ->]]. reflexivity. }
  inversion H; subst. cbn [this __iota]. rewrite Hf, Ht. simpl. repeat split; auto.
Qed.

Lemma new_Enum_iota_complete (rows : list string) (auto : option bool) (c : counter) :
  default false auto = false -> NoDup rows ->
  exists s, new_Enum constantCase getTypeName (EArray rows) auto c = (Normal tt, s).
Proof.
  intros Ha Hn. unfold new_Enum, constructor. rewrite Ha. simpl.
  destruct (iota_loop_complete rows empty_object c eq_refl Hn) as [s1 ->].
  - intros k _. reflexivity.
  - eexists. reflexivity.
Qed.

(** The auto branch, when the constructor returns. *)
Lemma new_Enum_auto (rows : list string) (c : counter) (s : cstate) :
  new_Enum constantCase getTypeName (EArray rows) (Some true) c = (Normal tt, s) ->
  __iota s = c
  /\ extensible (this s) = false
  /\ map fst (properties (this s)) = first_occurrences (map constantCase rows)
  /\ (forall row, In row rows ->
        GetOwnProperty (this s) (constantCase row) = Some (fixed_member (VString row)))
  /\ (forall k p, In (k, p) (properties (this s)) ->
        exists row, In row rows /\ k = constantCase row /\ p = fixed_member (VString row)).
Proof.
  intro H. unfold new_Enum, constructor in H. simpl in H.
  destruct (auto_loop constantCase rows _) as [[[]|x] s1] eqn:L; [|discriminate].
  apply auto_loop_normal in L; [|reflexivity|intros k p []].
  destruct L as [Hc [_ [Hk [_ [Hr Ho]]]]]. simpl in Hk.
  assert (Hm : forall k p, In (k, p) (properties (this s1)) ->
                 exists row, In row rows /\ k = constantCase row
                             /\ p = fixed_member (VString row)).
  { intros k p Hin. destruct (Ho k p Hin) as [[]|Hin']. exact Hin'. }
  assert (Hf : Object_freeze (this s1) =
               {| properties := properties (this s1); extensible := false |}).
  { apply freeze_fixed. intros k p Hin.
    destruct (Hm k p Hin) as [r [_ [_ ->]]]. reflexivity. }
  inversion H; subst. cbn [this __iota]. rewrite Hf. simpl. repeat split; auto.
Qed.

Lemma In_replace (k k' : string) (p p' : property) (ps : list (string * property)) :
  In (k', p') (replace k p ps) -> p' = p \/ In (k', p') ps.
Proof.
  induction ps as [|[k0 p0] r IH]; simpl; [intros []|].
  destruct (String.eqb k k0); simpl.
  - intros [H|H]; [left; congruence|right; right; exact H].
  - intros [H|H]; [right; left; exact H|].
    destruct (IH H) as [E|Hin]; [left; exact E|right; right; exact Hin].
Qed.

(** The keys of an object literal are the keys of its entries, each at its
    first occurrence, and all its properties are enumerable. *)
Lemma literal_fold (entries : list (string * value)) : forall o : object,
  (forall k p, In (k, p) (properties o) -> prop_enumerable p = true) ->
  let o' := fold_left (fun o kv => CreateDataProperty o (fst kv) (snd kv)) entries o in
  map fst (properties o') =
    map fst (properties o) ++ fresh (map fst (properties o)) (map fst entries)
  /\ (forall k p, In (k, p) (properties o') -> prop_enumerable p = true).
Proof.
  induction entries as [|[k v] r IH]; intros o He; simpl.
  - rewrite app_nil_r. split; [reflexivity|exact He].
  - rewrite mem_lookup. unfold CreateDataProperty, GetOwnProperty.
    destruct (lookup k (properties o)) as [p|] eqn:G; simpl.
    + destruct (IH {| properties := replace k (DataProperty v true true true) (properties o);
                      extensible := extensible o |}) as [Hk He'].
      * simpl. intros k' p' Hin. apply In_replace in Hin.
        destruct Hin as [->|Hin]; [reflexivity|apply (He k' p' Hin)].
      * simpl in Hk. rewrite replace_keys in Hk. split; [exact Hk|exact He'].
    + destruct (IH {| properties := properties o ++ [(k, DataProperty v true true true)];
                      extensible := extensible o |}) as [Hk He'].
      * simpl. intros k' p' Hin. apply in_app_or in Hin.
        destruct Hin as [Hin|[Hin|[]]]; [apply (He k' p' Hin)|inversion Hin; reflexivity].
      * simpl in Hk. rewrite map_app in Hk. simpl in Hk.
        rewrite fresh_snoc, <- app_assoc in Hk. split; [exact Hk|exact He'].
Qed.

Lemma literal_keys (entries : list (string * value)) :
  Object_keys (object_literal entries) = key_order (first_occurrences (map fst entries)).
Proof.
  destruct (literal_fold entries empty_object) as [Hk He]; [intros k p []|].
  unfold object_literal. rewrite Object_keys_enumerable by exact He.
  rewrite Hk. reflexivity.
Qed.

Lemma members_keys (lit : object) (ks : list string) :
  map fst (map (fun k => (k, member_of (entry lit k))) ks) = ks.
Proof. rewrite map_map. simpl. apply map_id. Qed.

Lemma member_of_frozen (v : value) : freeze_property (member_of v) = member_of v.
Proof. destruct v; reflexivity. Qed.

(** The mapping branch: the constructor returns. *)
Lemma new_Enum_mapping (entries : list (string * value)) (auto : option bool) (c : counter) :
  default false auto = false ->
  new_Enum constantCase getTypeName (EMapping entries) auto c =
  (Normal tt,
   {| this := {| properties := map (fun k => (k, member_of (entry (object_literal entries) k)))
                                   (Object_keys (object_literal entries));
                 extensible := false |};
      __iota := c |}).
Proof.
  intro Ha. unfold new_Enum, constructor. rewrite Ha. simpl.
  rewrite mapping_loop_normal.
  - cbn [this __iota]. rewrite freeze_fixed; [reflexivity|]. simpl.
    intros k p Hin. apply in_map_iff in Hin. destruct Hin as [k' [E _]].
    inversion E. apply member_of_frozen.
  - reflexivity.
  - rewrite literal_keys. apply key_order_NoDup, first_occurrences_NoDup.
  - intros k _. reflexivity.
Qed.

(** Every member is enumerable, so [keys()] lists all the keys: those the
    constructor defined, the array indices first. *)
Lemma keys_declared (e : enums) (auto : option bool) (c : counter) (s : cstate) :
  new_Enum constantCase getTypeName e auto c = (Normal tt, s) ->
  Enum.keys (this s) = key_order (declared_keys constantCase e auto).
Proof.
  intro H. unfold Enum.keys. destruct e as [rows|entries].
  - destruct (default false auto) eqn:Ha.
    + destruct auto as [[|]|]; try discriminate.
      unfold declared_keys. simpl.
      apply new_Enum_auto in H. destruct H as [_ [_ [Hk [_ Hm]]]].
      rewrite Object_keys_enumerable, Hk; [reflexivity|].
      intros k p Hin. destruct (Hm k p Hin) as [r [_ [_ ->]]]. reflexivity.
    + unfold declared_keys. rewrite Ha.
      apply (new_Enum_iota _ _ _ _ Ha) in H. destruct H as [Ht _]. rewrite Ht.
      rewrite Object_keys_enumerable; simpl.
      * rewrite numbered_keys. reflexivity.
      * intros k p Hin. apply numbered_In in Hin. destruct Hin as [i [_ ->]]. reflexivity.
  - destruct (default false auto) eqn:Ha.
    + unfold new_Enum, constructor in H. rewrite Ha in H. simpl in H. discriminate.
    + rewrite (new_Enum_mapping entries auto c Ha) in H. inversion H; subst; simpl.
      rewrite Object_keys_enumerable; simpl.
      * rewrite members_keys, literal_keys. apply key_order_idempotent.
      * intros k p Hin. apply in_map_iff in Hin. destruct Hin as [k' [E _]].
        inversion E; subst. destruct (entry (object_literal entries) k); reflexivity.
Qed.

End Construction.

(** ** Arrays *)

Section Arrays.

Import JS Notions.

Lemma indexOf_from_found (s : list value) : forall (i : Z) (v : value),
  existsb (fun y => strict_equals y v) s = true ->
  i <= indexOf_from i s v < i + Z.of_nat (List.length s).
Proof.
  induction s as [|x r IH]; intros i v H; simpl in *; [discriminate|].
  destruct (strict_equals x v); [lia|].
  simpl in H. specialize (IH (i + 1) v H). lia.
Qed.

Lemma indexOf_from_missing (s : list value) : forall (i : Z) (v : value),
  existsb (fun y => strict_equals y v) s = false -> indexOf_from i s v = -1.
Proof.
  induction s as [|x r IH]; intros i v H; simpl in *; [reflexivity|].
  destruct (strict_equals x v); [discriminate|]. apply IH. exact H.
Qed.

Lemma indexOf_from_app (a b : list value) : forall (i : Z) (v : value),
  indexOf_from i (a ++ b) v =
  if existsb (fun y => strict_equals y v) a
  then indexOf_from i a v
  else indexOf_from (i + Z.of_nat (List.length a)) b v.
Proof.
  induction a as [|x r IH]; intros i v.
  - simpl. rewrite Z.add_0_r. reflexivity.
  - cbn [app indexOf_from existsb List.length]. destruct (strict_equals x v); [reflexivity|].
    simpl orb. rewrite IH. destruct (existsb _ r); [reflexivity|].
    f_equal. lia.
Qed.


Lemma filter_from_length {A} (p : A -> Z -> bool) (s : list A) : forall i : Z,
  (List.length (filter_from i p s) <= List.length s)%nat.
Proof.
  induction s as [|y r IH]; intro i; simpl; [lia|].
  specialize (IH (i + 1)). destruct (p y i); simpl; lia.
Qed.


(** On an array without [NaN] the filter of [values()] keeps the first
    occurrence of every value. *)
Lemma filter_first_occurrence (r : list value) : forall seen : list value,
  (forall x, In x r -> is_NaN x = false) ->
  filter_from (Z.of_nat (List.length seen))
    (fun v i => Enum.first_occurrence v i (seen ++ r)) r = distinct_after seen r.
Proof.
  induction r as [|x r IH]; intros seen Hn; [reflexivity|].
  cbn [filter_from distinct_after].
  assert (Hx : strict_equals x x = true).
  { rewrite strict_equals_refl, (Hn x (or_introl eq_refl)). reflexivity. }
  assert (Hr : filter_from (Z.of_nat (List.length seen) + 1)
                 (fun v i => Enum.first_occurrence v i (seen ++ x :: r)) r =
               distinct_after (seen ++ [x]) r).
  { rewrite <- IH by (intros y Hy; apply Hn; right; exact Hy).
    rewrite <- app_assoc, length_app. simpl. f_equal. lia. }
  unfold Enum.first_occurrence at 1, Array_indexOf. rewrite indexOf_from_app.
  destruct (existsb (fun y => strict_equals y x) seen) eqn:E.
  - pose proof (indexOf_from_found seen 0 x E) as Hi.
    destruct (indexOf_from 0 seen x =? Z.of_nat (List.length seen)) eqn:E'.
    + apply Z.eqb_eq in E'. lia.
    + exact Hr.
  - simpl. rewrite Hx, Z.eqb_refl. f_equal. exact Hr.
Qed.

Lemma values_distinct (s : list value) :
  (forall x, In x s -> is_NaN x = false) ->
  Array_filter Enum.first_occurrence s = distinct s.
Proof. intro H. apply (filter_first_occurrence s [] H). Qed.

Lemma distinct_after_length (r : list value) : forall seen : list value,
  (List.length (distinct_after seen r) <= List.length r)%nat.
Proof.
  induction r as [|x r IH]; intro seen; simpl; [lia|].
  specialize (IH (seen ++ [x])). destruct (existsb _ seen); simpl; lia.
Qed.

(** Nothing is dropped exactly when no value is strictly equal to an
    earlier one. *)
Lemma distinct_after_all (r : list value) : forall seen : list value,
  List.length (distinct_after seen r) = List.length r <->
  pairwise_distinct r /\
  (forall y x, In y seen -> In x r -> strict_equals y x = false).
Proof.
  induction r as [|x r IH]; intro seen; simpl.
  - split; [intros _; split; [constructor|intros y x _ []]|reflexivity].
  - destruct (existsb (fun y => strict_equals y x) seen) eqn:E.
    + split.
      * intro H. pose proof (distinct_after_length r (seen ++ [x])). lia.
      * intros [_ H]. apply existsb_exists in E. destruct E as [y [Hy E]].
        rewrite (H y x Hy (or_introl eq_refl)) in E. discriminate.
    + simpl. split.
      * intro H. assert (H' : List.length (distinct_after (seen ++ [x]) r) = List.length r) by lia.
        apply IH in H'. destruct H' as [Hp Hs]. split.
        -- constructor; [|exact Hp]. apply Forall_forall. intros z Hz.
           apply (Hs x z); [apply in_or_app; right; left; reflexivity|exact Hz].
        -- intros y z Hy [<-|Hz].
           ++ destruct (strict_equals y x) eqn:E'; [|reflexivity].
              assert (existsb (fun y => strict_equals y x) seen = true)
                by (apply existsb_exists; exists y; split; assumption).
              congruence.
           ++ apply Hs; [apply in_or_app; left; exact Hy|exact Hz].
      * intros [Hp Hs]. f_equal. apply IH. inversion Hp as [|? ? Hf Hp']; subst. split.
        -- exact Hp'.
        -- intros y z Hy Hz. apply in_app_or in Hy. destruct Hy as [Hy|[<-|[]]].
           ++ apply Hs; [exact Hy|right; exact Hz].
           ++ rewrite Forall_forall in Hf. apply Hf. exact Hz.
Qed.

Lemma distinct_all (s : list value) :
  List.length (distinct s) = List.length s <-> pairwise_distinct s.
Proof.
  unfold distinct. rewrite distinct_after_all. split; [tauto|].
  intro H. split; [exact H|intros y x []].
Qed.

(** [findIndex] gives the first position whose element passes the test, or
    -1 when no element does. *)
Lemma findIndex_from_spec {A} (p : A -> bool) (s : list A) : forall i : Z,
  (findIndex_from i p s = -1 /\ forall x, In x s -> p x = false) \/
  (exists n x, findIndex_from i p s = i + Z.of_nat n /\ nth_error s n = Some x /\
     p x = true /\ forall m y, (m < n)%nat -> nth_error s m = Some y -> p y = false).
Proof.
  induction s as [|x r IH]; intro i; simpl.
  - left. split; [reflexivity|intros x []].
  - destruct (p x) eqn:E.
    + right. exists O, x. repeat split; [lia|exact E|]. intros m y Hm. lia.
    + destruct (IH (i + 1)) as [[H1 H2]|[n [y [H1 [H2 [H3 H4]]]]]].
      * left. split; [exact H1|]. intros z [<-|Hz]; [exact E|apply H2; exact Hz].
      * right. exists (S n), y. repeat split; [lia|exact H2|exact H3|].
        intros m z Hm Hz. destruct m as [|m]; simpl in Hz.
        -- inversion Hz; subst. exact E.
        -- apply (H4 m z); [lia|exact Hz].
Qed.

End Arrays.

(** ** The queries *)

Section Reads.

Import JS Notions.

Variable W : Type.
Variable call : fn -> object -> W -> value * W.

Lemma Array_map_length {A B} (f : A -> W -> B * W) (ks : list A) : forall w : W,
  List.length (fst (Array_map W f ks w)) = List.length ks.
Proof.
  induction ks as [|k r IH]; intro w; simpl; [reflexivity|].
  destruct (f k w) as [v w1]. specialize (IH w1).
  destruct (Array_map W f r w1) as [vs w2]. simpl in *. rewrite IH. reflexivity.
Qed.

Lemma resolved_length (e : object) (w : W) :
  List.length (fst (Enum.resolved W call e w)) = List.length (Enum.keys e).
Proof. apply Array_map_length. Qed.

(** Reading a fixed member gives its value and leaves the state alone. *)
Lemma Get_fixed (e : object) (k : string) (v : value) (w : W) :
  GetOwnProperty e k = Some (fixed_member v) -> Get W call e k w = (v, w).
Proof. intro H. unfold Get. rewrite H. reflexivity. Qed.

(** Reading a computed member calls its function on the instance. *)
Lemma Get_computed (e : object) (k : string) (f : fn) (w : W) :
  GetOwnProperty e k = Some (computed_member f) -> Get W call e k w = call f e w.
Proof. intro H. unfold Get. rewrite H. reflexivity. Qed.

(** An enumeration whose members are all fixed resolves to the values it
    stores, whatever the state. *)
Lemma Array_map_fixed (e : object) (ks : list string) (w : W) :
  (forall k, In k ks -> exists v, GetOwnProperty e k = Some (fixed_member v)) ->
  Array_map W (fun key => Get W call e key) ks w =
  (map (fun k => match GetOwnProperty e k with
                 | Some (DataProperty v _ _ _) => v
                 | _ => VUndefined
                 end) ks, w).
Proof.
  induction ks as [|k r IH]; intro H; simpl; [reflexivity|].
  destruct (H k (or_introl eq_refl)) as [v Hv].
  rewrite (Get_fixed e k v w Hv), IH by (intros k' Hk'; apply H; right; exact Hk').
  rewrite Hv. reflexivity.
Qed.

End Reads.

(** ** The counter of the class *)

Section Counter.

Import JS Notions Enum.

Variable constantCase : string -> string.
Variable getTypeName : enums -> string.

Lemma iota_loop_counter (rows : list string) : forall s : cstate,
  counter_value (__iota s) <= counter_value (__iota (snd (iota_loop rows s))).
Proof.
  induction rows as [|key rest IH]; intro s; [simpl; lia|].
  cbn [iota_loop]. rewrite _iota_value.
  destruct (Object_defineProperty (this s) key _) as [o|x]; simpl; [|lia].
  specialize (IH {| this := o; __iota := Some (counter_value (__iota s) + 1) |}).
  simpl in IH. lia.
Qed.

Lemma auto_loop_counter (rows : list string) : forall s : cstate,
  __iota (snd (auto_loop constantCase rows s)) = __iota s.
Proof.
  induction rows as [|row rest IH]; intro s; simpl; [reflexivity|].
  destruct (Object_defineProperty (this s) _ _) as [o|x]; simpl; [|reflexivity].
  rewrite IH. reflexivity.
Qed.

Lemma mapping_loop_counter (lit : object) (ks : list string) : forall s : cstate,
  __iota (snd (mapping_loop lit ks s)) = __iota s.
Proof.
  induction ks as [|k rest IH]; intro s; simpl; [reflexivity|].
  destruct (Object_defineProperty (this s) _ _) as [o|x]; simpl; [|reflexivity].
  rewrite IH. reflexivity.
Qed.

(** No call of the constructor moves the counter back. *)
Lemma new_Enum_counter (e : enums) (auto : option bool) (c : counter) :
  counter_value c <= counter_value (__iota (snd (new_Enum constantCase getTypeName e auto c))).
Proof.
  unfold new_Enum, constructor.
  destruct (default false auto && negb (isArray e)); [simpl; lia|].
  destruct e as [rows|entries].
  - destruct (default false auto).
    + pose proof (auto_loop_counter rows {| this := empty_object; __iota := c |}) as H.
      destruct (auto_loop constantCase rows _) as [[[]|x] s1]; simpl in *; rewrite H; lia.
    + pose proof (iota_loop_counter rows {| this := empty_object; __iota := c |}) as H.
      destruct (iota_loop rows _) as [[[]|x] s1]; simpl in *; lia.
  - pose proof (mapping_loop_counter (object_literal entries)
                  (Object_keys (object_literal entries))
                  {| this := empty_object; __iota := c |}) as H.
    destruct (mapping_loop _ _ _) as [[[]|x] s1]; simpl in *; rewrite H; lia.
Qed.

Lemma step_counter (c c' : counter) :
  step constantCase getTypeName c c' -> counter_value c <= counter_value c'.
Proof.
  intro H. destruct H.
  - apply new_Enum_counter.
  - rewrite _iota_value. simpl. lia.
Qed.

(** The counter only grows while the process runs. *)
Lemma runs_counter (c c' : counter) :
  runs constantCase getTypeName c c' -> counter_value c <= counter_value c'.
Proof.
  induction 1 as [c|c c1 c2 Hs _ IH]; [lia|].
  apply step_counter in Hs. lia.
Qed.

Lemma numbered_value (rows : list string) (n m : Z) (k : string) :
  lookup k (numbered n rows) = Some (fixed_member (VNumber (Int m))) ->
  n <= m < n + Z.of_nat (List.length rows).
Proof.
  intro H. apply lookup_In, numbered_In in H. destruct H as [i [Hi E]].
  inversion E; subst. assert (i < List.length rows)%nat; [|lia].
  apply nth_error_Some. congruence.
Qed.

(** C1.  An enumeration built from an array of keys without the auto flag
    (false or absent) gives its keys, in the order of the array, the
    numbers [base], [base + 1], [base + 2], ... where [base] is the value of
    the counter of the class when the constructor is called: non-negative
    and strictly increasing.  The counter belongs to the class and starts
    unset, so the first key of a process that has not used it yet gets 0;
    the constructor leaves it at [base] plus the number of keys.  Every
    number given by an enumeration built earlier in the process is smaller
    than every number of this one, so the two sets of values are disjoint. *)
Theorem iota_values_increasing_and_disjoint
    (rows : list string) (auto : option bool) (c : counter) (s : cstate) :
  default false auto = false ->
  runs constantCase getTypeName None c ->
  new_Enum constantCase getTypeName (EArray rows) auto c = (Normal tt, s) ->
  0 <= counter_value c
  /\ (forall i k, nth_error rows i = Some k ->
        GetOwnProperty (this s) k =
        Some (fixed_member (VNumber (Int (counter_value c + Z.of_nat i)))))
  /\ (forall i j ki kj ni nj, (i < j)%nat ->
        nth_error rows i = Some ki -> nth_error rows j = Some kj ->
        GetOwnProperty (this s) ki = Some (fixed_member (VNumber (Int ni))) ->
        GetOwnProperty (this s) kj = Some (fixed_member (VNumber (Int nj))) ->
        0 <= ni < nj)
  /\ (c = None -> forall k, nth_error rows 0 = Some k ->
        GetOwnProperty (this s) k = Some (fixed_member (VNumber (Int 0))))
  /\ counter_value (__iota s) = counter_value c + Z.of_nat (List.length rows)
  /\ (forall rows0 auto0 c0 s0 k0 k n0 n,
        default false auto0 = false ->
        runs constantCase getTypeName None c0 ->
        new_Enum constantCase getTypeName (EArray rows0) auto0 c0 = (Normal tt, s0) ->
        runs constantCase getTypeName (__iota s0) c ->
        GetOwnProperty (this s0) k0 = Some (fixed_member (VNumber (Int n0))) ->
        GetOwnProperty (this s) k = Some (fixed_member (VNumber (Int n))) ->
        n0 < n).
Proof.
  intros Ha Hr H.
  pose proof (runs_counter _ _ Hr) as H0. simpl in H0.
  destruct (new_Enum_iota constantCase getTypeName rows auto c s Ha H) as [Ht [Hc Hn]].
  assert (Hv : forall i k, nth_error rows i = Some k ->
                GetOwnProperty (this s) k =
                Some (fixed_member (VNumber (Int (counter_value c + Z.of_nat i))))).
  { intros i k Hi. rewrite Ht. unfold GetOwnProperty. simpl.
    apply numbered_lookup; assumption. }
  split; [exact H0|]. split; [exact Hv|]. split; [|split; [|split; [exact Hc|]]].
  - intros i j ki kj ni nj Hij Hi Hj Gi Gj.
    rewrite (Hv i ki Hi) in Gi. rewrite (Hv j kj Hj) in Gj.
    inversion Gi; inversion Gj; subst. lia.
  - intros -> k Hk. rewrite (Hv O k Hk). reflexivity.
  - intros rows0 auto0 c0 s0 k0 k n0 n Ha0 Hr0 H' Hr' G0 G.
    destruct (new_Enum_iota constantCase getTypeName rows0 auto0 c0 s0 Ha0 H')
      as [Ht0 [Hc0 _]].
    pose proof (runs_counter _ _ Hr') as Hle.
    rewrite Ht0 in G0. rewrite Ht in G. unfold GetOwnProperty in G0, G. simpl in G0, G.
    apply numbered_value in G0. apply numbered_value in G. lia.
Qed.

End Counter.

(** The example of C1: a process builds an enumeration of two keys, then
    one of three keys. *)
Lemma iota_values_example :
  let first := Enum.new_Enum Sample.constantCase Sample.getTypeName
                 (Enum.EArray ["RED"; "BLACK"]%string) None None in
  let second := Enum.new_Enum Sample.constantCase Sample.getTypeName
                  (Enum.EArray ["UP"; "DOWN"; "LEFT"]%string) (Some false)
                  (Enum.__iota (snd first)) in
  Notions.counter_value (Enum.__iota (snd second)) = 5
  /\ JS.GetOwnProperty (Enum.this (snd second)) "LEFT"
     = Some (Notions.fixed_member (JS.VNumber (JS.Int 4)))
  /\ forall k0 k n0 n,
       JS.GetOwnProperty (Enum.this (snd first)) k0
         = Some (Notions.fixed_member (JS.VNumber (JS.Int n0))) ->
       JS.GetOwnProperty (Enum.this (snd second)) k
         = Some (Notions.fixed_member (JS.VNumber (JS.Int n))) ->
       n0 < n.
Proof.
  intros first second.
  assert (R : Notions.runs Sample.constantCase Sample.getTypeName None
                (Enum.__iota (snd first))).
  { eapply Notions.runs_on; [apply (Notions.step_new _ _
      (Enum.EArray ["RED"; "BLACK"]%string) None None)|apply Notions.runs_here]. }
  destruct (iota_values_increasing_and_disjoint Sample.constantCase Sample.getTypeName
              ["UP"; "DOWN"; "LEFT"]%string (Some false) (Enum.__iota (snd first))
              (snd second) eq_refl R eq_refl) as [_ [Hv [_ [_ [Hc Hd]]]]].
  split; [exact Hc|]. split; [exact (Hv 2%nat "LEFT"%string eq_refl)|].
  intros k0 k n0 n G0 G.
  exact (Hd ["RED"; "BLACK"]%string None None (snd first) k0 k n0 n eq_refl
           (Notions.runs_here _ _ _) eq_refl (Notions.runs_here _ _ _) G0 G).
Defined.

(** ** Construction errors *)

Section Errors.

Import JS Notions Enum.

Variable constantCase : string -> string.
Variable getTypeName : enums -> string.

(** C5.  With the auto flag and a mapping the constructor throws a
    TypeError, and it does so as its first step: the instance is still
    without any property and the counter is untouched; more generally the
    call leaves the state it starts from as it is. *)
Theorem auto_with_mapping_throws (entries : list (string * value)) (c : counter) :
  new_Enum constantCase getTypeName (EMapping entries) (Some true) c =
  (Throw (TypeError ("Expected enums to be of type " ++ dquote ++ "Array" ++ dquote
                     ++ " got " ++ dquote ++ getTypeName (EMapping entries) ++ dquote)),
   {| this := {| properties := []; extensible := true |}; __iota := c |})
  /\ forall s : cstate,
       snd (constructor constantCase getTypeName (EMapping entries) (Some true) s) = s.
Proof. split; [reflexivity|intro s; reflexivity]. Qed.

Lemma new_Enum_auto_complete (rows : list string) (c : counter) :
  (forall r1 r2, In r1 rows -> In r2 rows -> constantCase r1 = constantCase r2 -> r1 = r2) ->
  exists s, new_Enum constantCase getTypeName (EArray rows) (Some true) c = (Normal tt, s).
Proof.
  intro Hinj. unfold new_Enum, constructor. simpl.
  destruct (auto_loop_complete constantCase rows empty_object c eq_refl) as [s1 ->].
  - intros row p _ H. discriminate.
  - exact Hinj.
  - eexists. reflexivity.
Qed.

(** C10, as the code has it.  In iota mode every occurrence of a key reads
    the counter, but the second definition of a key is refused: the
    constructor throws a TypeError at the first key that repeats an earlier
    one, with the earlier members as they were defined, and it returns
    exactly when no key is repeated.  In auto mode every row is normalized;
    a row whose identifier already holds another string makes the
    constructor throw a TypeError, and the constructor returns exactly when
    rows with the same identifier are the same string, in which case the
    identifier holds that string. *)
Theorem repeated_key_is_refused :
  (forall pre k post auto c,
     default false auto = false -> NoDup pre -> In k pre ->
     new_Enum constantCase getTypeName (EArray (pre ++ k :: post)) auto c =
     (Throw (TypeError ("Cannot redefine property: " ++ k)),
      {| this := {| properties := numbered (counter_value c) pre; extensible := true |};
         __iota := Some (counter_value c + Z.of_nat (List.length pre) + 1) |}))
  /\ (forall rows auto c,
        default false auto = false ->
        (exists s, new_Enum constantCase getTypeName (EArray rows) auto c = (Normal tt, s))
        <-> NoDup rows)
  /\ (forall pre row post other c s1,
        new_Enum constantCase getTypeName (EArray pre) (Some true) c = (Normal tt, s1) ->
        In other pre -> constantCase other = constantCase row -> other <> row ->
        exists s,
          new_Enum constantCase getTypeName (EArray (pre ++ row :: post)) (Some true) c =
          (Throw (TypeError ("Cannot redefine property: " ++ constantCase row)), s)
          /\ GetOwnProperty (this s) (constantCase row) = Some (fixed_member (VString other)))
  /\ (forall rows c,
        (exists s, new_Enum constantCase getTypeName (EArray rows) (Some true) c = (Normal tt, s))
        <-> (forall r1 r2, In r1 rows -> In r2 rows ->
               constantCase r1 = constantCase r2 -> r1 = r2))
  /\ (forall rows c s row,
        new_Enum constantCase getTypeName (EArray rows) (Some true) c = (Normal tt, s) ->
        In row rows ->
        GetOwnProperty (this s) (constantCase row) = Some (fixed_member (VString row))).
Proof.
  split; [|split; [|split; [|split]]].
  - intros pre k post auto c Ha Hn Hk. unfold new_Enum, constructor. rewrite Ha. simpl.
    rewrite (iota_loop_repeat pre k post empty_object c); try reflexivity; auto.
    + intros k' p [].
  - intros rows auto c Ha. split.
    + intros [s H]. apply (new_Enum_iota _ _ _ _ _ _ Ha H).
    + apply new_Enum_iota_complete. exact Ha.
  - intros pre row post other c s1 H Hin Hk Hne.
    unfold new_Enum, constructor in *. simpl in *.
    destruct (auto_loop constantCase pre _) as [[[]|x] s0] eqn:L; [|discriminate].
    rewrite (auto_loop_clash constantCase pre post row other c s0 L Hin Hk Hne).
    eexists. split; [reflexivity|].
    apply auto_loop_normal in L; [|reflexivity|intros k p []].
    destruct L as [_ [_ [_ [_ [Hr _]]]]]. rewrite <- Hk. apply Hr. exact Hin.
  - intros rows c. split.
    + intros [s H] r1 r2 H1 H2 E.
      apply new_Enum_auto in H. destruct H as [_ [_ [_ [Hr _]]]].
      pose proof (Hr r1 H1) as G1. pose proof (Hr r2 H2) as G2.
      rewrite E in G1. rewrite G1 in G2. inversion G2. reflexivity.
    + apply new_Enum_auto_complete.
  - intros rows c s row H Hin. apply new_Enum_auto in H.
    destruct H as [_ [_ [_ [Hr _]]]]. apply Hr. exact Hin.
Qed.

End Errors.

(** The example of C10: the key A twice.  The constructor throws at the
    second A, after reading the counter twice; A still holds 0. *)
Lemma repeated_key_example :
  Enum.new_Enum Sample.constantCase Sample.getTypeName
    (Enum.EArray (["A"%string] ++ "A"%string :: [])%list) None None =
  (JS.Throw (JS.TypeError "Cannot redefine property: A"),
   {| Enum.this := {| JS.properties := [("A"%string, Notions.fixed_member (JS.VNumber (JS.Int 0)))];
                      JS.extensible := true |};
      Enum.__iota := Some 2 |}).
Proof.
  apply (proj1 (repeated_key_is_refused Sample.constantCase Sample.getTypeName)
           ["A"%string] "A"%string [] None None eq_refl).
  - constructor; [intros []|constructor].
  - left. reflexivity.
Defined.

(** Against C10 as the specification has it: the second occurrence of a
    key does not overwrite the first, an error is raised. *)
Lemma repeated_key_raises :
  ~ exists s, Enum.new_Enum Sample.constantCase Sample.getTypeName
                (Enum.EArray ["A"; "A"]%string) None None = (JS.Normal tt, s).
Proof. intros [s H]. vm_compute in H. discriminate. Qed.

(** ** Auto mode *)

Section Auto.

Import JS Notions Enum.

Variable constantCase : string -> string.
Variable getTypeName : enums -> string.
Variable W : Type.
Variable call : fn -> object -> W -> value * W.

Lemma distinct_after_same (r : list value) : forall seen : list value,
  pairwise_distinct r ->
  (forall y x, In y seen -> In x r -> strict_equals y x = false) ->
  distinct_after seen r = r.
Proof.
  induction r as [|x r IH]; intros seen Hp Hs; simpl; [reflexivity|].
  inversion Hp as [|? ? Hf Hp']; subst.
  destruct (existsb (fun y => strict_equals y x) seen) eqn:E.
  - apply existsb_exists in E. destruct E as [y [Hy E]].
    rewrite (Hs y x Hy (or_introl eq_refl)) in E. discriminate.
  - f_equal. apply IH; [exact Hp'|].
    intros y z Hy Hz. apply in_app_or in Hy. destruct Hy as [Hy|[<-|[]]].
    + apply Hs; [exact Hy|right; exact Hz].
    + rewrite Forall_forall in Hf. apply Hf. exact Hz.
Qed.

(** Distinct strings are never strictly equal. *)
Lemma strings_pairwise_distinct (l : list string) :
  NoDup l -> pairwise_distinct (map VString l).
Proof.
  induction 1 as [|x l Hx Hn IH]; simpl; constructor; [|exact IH].
  apply Forall_forall. intros v Hv. apply in_map_iff in Hv.
  destruct Hv as [y [<- Hy]]. unfold strict_equals. simpl.
  apply String.eqb_neq. intros ->. contradiction.
Qed.

Lemma fresh_map (rows : list string) : forall seen : list string,
  (forall r1 r2, In r1 (seen ++ rows) -> In r2 (seen ++ rows) ->
     constantCase r1 = constantCase r2 -> r1 = r2) ->
  fresh (map constantCase seen) (map constantCase rows) =
  map constantCase (fresh seen rows).
Proof.
  induction rows as [|x r IH]; intros seen Hinj; simpl; [reflexivity|].
  assert (E : mem (constantCase x) (map constantCase seen) = mem x seen).
  { destruct (mem x seen) eqn:E.
    - apply mem_In. apply in_map. apply mem_In. exact E.
    - destruct (mem (constantCase x) (map constantCase seen)) eqn:E'; [|reflexivity].
      apply mem_In, in_map_iff in E'. destruct E' as [y [Ey Hy]].
      assert (y = x).
      { apply Hinj; [apply in_or_app; left; exact Hy
                    |apply in_or_app; right; left; reflexivity|exact Ey]. }
      subst y. apply mem_In in Hy. congruence. }
  rewrite E. destruct (mem x seen).
  - apply IH. intros r1 r2 H1 H2. apply Hinj.
    + apply in_app_or in H1. apply in_or_app. destruct H1; [left|right; right]; assumption.
    + apply in_app_or in H2. apply in_or_app. destruct H2; [left|right; right]; assumption.
  - simpl. f_equal. apply (IH (x :: seen)). intros r1 r2 H1 H2. apply Hinj.
    + destruct H1 as [<-|H1]; [apply in_or_app; right; left; reflexivity|].
      apply in_app_or in H1. apply in_or_app. destruct H1; [left|right; right]; assumption.
    + destruct H2 as [<-|H2]; [apply in_or_app; right; left; reflexivity|].
      apply in_app_or in H2. apply in_or_app. destruct H2; [left|right; right]; assumption.
Qed.

(** C2, as the code has it.  In auto mode every input string is stored,
    unchanged, under its normalized key, and the keys are the normalized
    input strings.  [values()] lists, key by key in the order of [keys()],
    the strings stored: these are the input strings, each once, and they
    come in the order of the input (a repeated string at its first place)
    when no normalized key is an array index; so [values()] is the input
    itself when moreover no input string is repeated. *)
Theorem auto_keys_normalized_values_original
    (rows : list string) (c : counter) (s : cstate) (w : W) :
  new_Enum constantCase getTypeName (EArray rows) (Some true) c = (Normal tt, s) ->
  (forall row, In row rows ->
     GetOwnProperty (this s) (constantCase row) = Some (fixed_member (VString row)))
  /\ (forall k, In k (keys (this s)) <-> exists row, In row rows /\ k = constantCase row)
  /\ Forall2 (fun k v => GetOwnProperty (this s) k = Some (fixed_member v))
       (keys (this s)) (fst (values W call (this s) w))
  /\ snd (values W call (this s) w) = w
  /\ (forall v, In v (fst (values W call (this s) w)) <->
                exists row, In row rows /\ v = VString row)
  /\ ((forall row, In row rows -> array_index (constantCase row) = None) ->
      keys (this s) = first_occurrences (map constantCase rows)
      /\ fst (values W call (this s) w) = map VString (first_occurrences rows)
      /\ (NoDup rows -> fst (values W call (this s) w) = map VString rows)).
Proof.
  intro H.
  pose proof (keys_declared constantCase getTypeName _ _ _ _ H) as Hk.
  unfold declared_keys in Hk. simpl in Hk.
  destruct (new_Enum_auto constantCase getTypeName rows c s H) as [_ [_ [Hkeys [Hr Hm]]]].
  set (e := this s) in *.
  assert (Hinj : forall r1 r2, In r1 rows -> In r2 rows ->
                   constantCase r1 = constantCase r2 -> r1 = r2).
  { intros r1 r2 H1 H2 E. pose proof (Hr r1 H1) as G1. pose proof (Hr r2 H2) as G2.
    rewrite E in G1. rewrite G1 in G2. inversion G2. reflexivity. }
  assert (HkIn : forall k, In k (keys e) <-> exists row, In row rows /\ k = constantCase row).
  { intro k. rewrite Hk, key_order_In, first_occurrences_In, in_map_iff.
    split; intros [r [H1 H2]]; exists r; split; auto. }
  (* the keys, as the normalized form of rows without repetition among them *)
  assert (Hsrc : exists src, keys e = map constantCase src /\ NoDup src
                             /\ (forall r, In r src <-> In r rows)
                             /\ ((forall row, In row rows -> array_index (constantCase row) = None)
                                 -> src = first_occurrences rows)).
  { assert (Hf : first_occurrences (map constantCase rows)
                 = map constantCase (first_occurrences rows)).
    { apply (fresh_map rows []). simpl. exact Hinj. }
    assert (Hp : Permutation (keys e) (map constantCase (first_occurrences rows))).
    { rewrite Hk, Hf. apply key_order_perm. }
    apply Permutation_map_inv in Hp.
    destruct Hp as [src [E Hp]]. exists src. split; [exact E|]. split; [|split].
    - apply (Permutation_NoDup Hp), first_occurrences_NoDup.
    - intro r. rewrite <- (first_occurrences_In rows r). split; apply Permutation_in;
        [apply Permutation_sym|]; exact Hp.
    - intro Hno. assert (E' : keys e = map constantCase (first_occurrences rows)).
      { rewrite Hk, Hf. apply key_order_no_index. intros k Hin.
        apply in_map_iff in Hin. destruct Hin as [r [<- Hin]].
        apply Hno. apply first_occurrences_In. exact Hin. }
      rewrite E' in E. clear - E Hinj Hp.
      assert (Hsub : forall r, In r src -> In r rows).
      { intros r Hr. apply first_occurrences_In.
        apply (Permutation_in _ (Permutation_sym Hp)). exact Hr. }
      assert (Hsub' : forall r, In r (first_occurrences rows) -> In r rows).
      { intros r Hr. apply first_occurrences_In. exact Hr. }
      revert E Hsub Hsub'. generalize (first_occurrences rows). clear Hp.
      induction src as [|a src IH]; intros [|b l] E Hs Hl; try discriminate; [reflexivity|].
      simpl in E. inversion E as [[E1 E2]].
      f_equal.
      + symmetry. apply Hinj; [apply Hl; left; reflexivity|apply Hs; left; reflexivity|exact E1].
      + apply IH; [exact E2| |]; intros r Hr; [apply Hs|apply Hl]; right; exact Hr. }
  destruct Hsrc as [src [Esrc [Hnd [Hin Hno]]]].
  assert (Hres : resolved W call e w = (map VString src, w)).
  { unfold resolved. rewrite Array_map_fixed.
    - f_equal. rewrite Esrc, map_map. apply map_ext_in. intros r Hr'.
      rewrite (Hr r (proj1 (Hin r) Hr')). reflexivity.
    - intros k Hk'. apply HkIn in Hk'. destruct Hk' as [r [Hr' ->]].
      exists (VString r). apply Hr. exact Hr'. }
  assert (Hval : values W call e w = (map VString src, w)).
  { unfold values. rewrite Hres. f_equal. rewrite values_distinct.
    - apply distinct_after_same; [apply strings_pairwise_distinct; exact Hnd|].
      intros y x [].
    - intros x Hx. apply in_map_iff in Hx. destruct Hx as [r [<- _]]. reflexivity. }
  rewrite Hval. simpl.
  split; [exact Hr|]. split; [exact HkIn|]. split; [|split; [reflexivity|split]].
  - rewrite Esrc. clear - Hr Hin. assert (Hs : forall r, In r src -> In r rows) by apply Hin.
    clear Hin. induction src as [|r src IH]; simpl; constructor.
    + apply Hr, Hs. left. reflexivity.
    + apply IH. intros r' Hr'. apply Hs. right. exact Hr'.
  - intro v. rewrite in_map_iff. split.
    + intros [r [<- Hr']]. exists r. split; [apply Hin; exact Hr'|reflexivity].
    + intros [r [Hr' ->]]. exists r. split; [reflexivity|apply Hin; exact Hr'].
  - intro Hidx. specialize (Hno Hidx). subst src. split; [|split].
    + rewrite Esrc. symmetry. apply (fresh_map rows []). simpl. exact Hinj.
    + reflexivity.
    + intro Hn. rewrite (first_occurrences_of_NoDup rows Hn). reflexivity.
Qed.

End Auto.

(** The example of C2: the font styles of the class documentation. *)
Lemma auto_font_styles_example :
  let r := Enum.new_Enum Sample.constantCase Sample.getTypeName
             (Enum.EArray ["italic"; "bold"; "underline"; "regular"]%string)
             (Some true) None in
  Enum.keys (Enum.this (snd r)) = ["ITALIC"; "BOLD"; "UNDERLINE"; "REGULAR"]%string
  /\ fst (Enum.values Z Sample.call (Enum.this (snd r)) 0)
     = map JS.VString ["italic"; "bold"; "underline"; "regular"]%string.
Proof.
  intro r.
  destruct (auto_keys_normalized_values_original Sample.constantCase Sample.getTypeName
              Z Sample.call ["italic"; "bold"; "underline"; "regular"]%string
              None (snd r) 0 eq_refl) as [_ [_ [_ [_ [_ H]]]]].
  destruct H as [Hk [_ Hv]].
  - intros row Hr. repeat (destruct Hr as [<-|Hr]; [reflexivity|]). destruct Hr.
  - split; [exact Hk|]. apply Hv.
    repeat (constructor; [simpl; intuition discriminate|]). constructor.
Defined.

(** Against C2 as the specification has it: an input string given twice is
    listed once by [values()]. *)
Lemma auto_repeated_string_listed_once :
  let r := Enum.new_Enum Sample.constantCase Sample.getTypeName
             (Enum.EArray ["a"; "a"]%string) (Some true) None in
  fst r = JS.Normal tt
  /\ fst (Enum.values Z Sample.call (Enum.this (snd r)) 0) = [JS.VString "a"]
  /\ fst (Enum.values Z Sample.call (Enum.this (snd r)) 0)
     <> map JS.VString ["a"; "a"]%string.
Proof. split; [reflexivity|]. split; [reflexivity|]. vm_compute. discriminate. Qed.

(** ** Looking values up *)

Section Lookup.

Import JS Notions Enum.

Variable constantCase : string -> string.
Variable getTypeName : enums -> string.
Variable W : Type.
Variable call : fn -> object -> W -> value * W.

Lemma Array_get_nth {A} (l : list A) (n : nat) : Array_get l (Z.of_nat n) = nth_error l n.
Proof.
  unfold Array_get. destruct (Z.of_nat n <? 0) eqn:E; [apply Z.ltb_lt in E; lia|].
  rewrite Nat2Z.id. reflexivity.
Qed.

(** [findForValue] on any object: the key at the first position whose
    resolved value is strictly equal to the query, or [undefined]. *)
Lemma findForValue_spec (e : object) (v : value) (w : W) :
  snd (findForValue W call e v w) = snd (resolved W call e w)
  /\ (forall k, fst (findForValue W call e v w) = VString k <->
        exists n x, nth_error (keys e) n = Some k /\
          nth_error (fst (resolved W call e w)) n = Some x /\
          strict_equals x v = true /\
          forall m y, (m < n)%nat -> nth_error (fst (resolved W call e w)) m = Some y ->
                      strict_equals y v = false)
  /\ (fst (findForValue W call e v w) = VUndefined <->
        forall x, In x (fst (resolved W call e w)) -> strict_equals x v = false)
  /\ (fst (findForValue W call e v w) = VUndefined \/
      exists k, fst (findForValue W call e v w) = VString k).
Proof.
  unfold findForValue. pose proof (resolved_length W call e w) as Hl.
  destruct (resolved W call e w) as [s w1]. simpl in *.
  unfold Array_findIndex.
  destruct (findIndex_from_spec (fun x => strict_equals x v) s 0)
    as [[Hi Hall]|[n [x [Hi [Hn [Hx Hfirst]]]]]]; rewrite Hi.
  - simpl. split; [reflexivity|]. split; [|split; [|left; reflexivity]].
    + intro k. split; [discriminate|].
      intros [n [x [_ [Hn [Hx _]]]]]. apply nth_error_In in Hn.
      rewrite (Hall x Hn) in Hx. discriminate.
    + split; [intros _; exact Hall|reflexivity].
  - rewrite Z.add_0_l, Array_get_nth.
    assert (Hlt : (n < List.length (keys e))%nat).
    { rewrite <- Hl. apply nth_error_Some. congruence. }
    destruct (nth_error (keys e) n) as [k0|] eqn:Hk;
      [|apply nth_error_None in Hk; lia].
    split; [reflexivity|]. split; [|split; [|right; exists k0; reflexivity]].
    + intro k. split.
      * intro E. inversion E; subst. exists n, x. repeat split; assumption.
      * intros [n' [x' [Hk' [Hn' [Hx' Hfirst']]]]].
        assert (n' = n).
        { destruct (Nat.lt_trichotomy n' n) as [Hlt'|[Heq|Hgt]]; [|exact Heq|].
          - rewrite (Hfirst n' x' Hlt' Hn') in Hx'. discriminate.
          - rewrite (Hfirst' n x Hgt Hn) in Hx. discriminate. }
        subst n'. congruence.
    + split; [discriminate|]. intro Hall. apply nth_error_In in Hn.
      rewrite (Hall x Hn) in Hx. discriminate.
Qed.

End Lookup.

(** ** The frozen instance *)

Section Frozen.

Import JS Notions Enum.

Variable constantCase : string -> string.
Variable getTypeName : enums -> string.
Variable W : Type.
Variable call : fn -> object -> W -> value * W.

Lemma freeze_frozen (o : object) : frozen (Object_freeze o).
Proof.
  split; [reflexivity|]. simpl. intros k p Hin. apply in_map_iff in Hin.
  destruct Hin as [[k' p'] [E _]]. inversion E. destruct p'; reflexivity.
Qed.

(** A descriptor accepted for a frozen property describes it as it is. *)
Lemma apply_descriptor_frozen (cur : property) (d : descriptor) :
  frozen_property cur = true ->
  IsAccessorDescriptor d && IsDataDescriptor d = false ->
  redefinition_allowed cur d = true ->
  apply_descriptor cur d = cur.
Proof.
  destruct d as [dv dw dg ds de dc].
  unfold redefinition_allowed, apply_descriptor, IsGenericDescriptor,
    IsAccessorDescriptor, IsDataDescriptor.
  destruct cur as [v w e c|g s e c]; simpl.
  - destruct w, c; simpl; try discriminate. intros _.
    destruct dc as [[|]|], de as [[|]|], e, dg as [g'|], ds as [s'|], dw as [[|]|];
      simpl; try discriminate;
      destruct dv as [v'|]; simpl; try discriminate; intros _ H;
      try (apply same_value_eq in H; subst); reflexivity.
  - destruct c; simpl; try discriminate. intros _.
    destruct dc as [[|]|], de as [[|]|], e, dv as [v'|], dw as [[|]|];
      simpl; try discriminate;
      destruct dg as [g'|], ds as [s'|]; simpl; try discriminate; intros _ H;
      repeat match goal with
             | H : _ && _ = true |- _ => apply andb_prop in H; destruct H
             | H : same_fn _ _ = true |- _ => apply same_fn_eq in H; subst
             end; reflexivity.
Qed.

(** [Object.defineProperty] on a frozen object throws or changes nothing. *)
Lemma frozen_defineProperty (o o' : object) (k : string) (d : descriptor) :
  frozen o -> Object_defineProperty o k d = Normal o' -> o' = o.
Proof.
  intros [Hx Hp]. unfold Object_defineProperty, DefineOwnProperty.
  destruct (IsAccessorDescriptor d && IsDataDescriptor d) eqn:Hb; [discriminate|].
  unfold GetOwnProperty. destruct (lookup k (properties o)) as [cur|] eqn:G.
  - pose proof (Hp k cur (lookup_In _ _ _ G)) as Hf.
    assert (Hc : prop_configurable cur = false).
    { destruct cur as [v w e c|g s e c]; simpl in *;
        [destruct w, c|destruct c]; simpl in *; congruence. }
    rewrite Hc. simpl. destruct (redefinition_allowed cur d) eqn:Hr; [|discriminate].
    rewrite (apply_descriptor_frozen cur d Hf Hb Hr), (replace_same k cur _ G).
    intro E. inversion E. destruct o; reflexivity.
  - rewrite Hx. discriminate.
Qed.

Lemma frozen_Set (o : object) (k : string) (v : value) (w : W) :
  frozen o -> snd (fst (Set_ W call o k v w)) = o.
Proof.
  intros [Hx Hp]. unfold Set_, GetOwnProperty.
  destruct (lookup k (properties o)) as [[u wr e c|g [st|] e c]|] eqn:G; try reflexivity.
  - destruct wr; [|reflexivity].
    pose proof (Hp k _ (lookup_In _ _ _ G)) as Hf. simpl in Hf. discriminate.
  - rewrite Hx. destruct (String.eqb k "__proto__"); reflexivity.
Qed.

Lemma frozen_Delete (o : object) (k : string) : frozen o -> snd (Delete o k) = o.
Proof.
  intros [Hx Hp]. unfold Delete, GetOwnProperty.
  destruct (lookup k (properties o)) as [p|] eqn:G; [|reflexivity].
  pose proof (Hp k p (lookup_In _ _ _ G)) as Hf.
  destruct p as [u wr e c|g st e c]; simpl in *; [destruct wr, c|destruct c];
    simpl in *; try discriminate; reflexivity.
Qed.

(** No attempt changes a frozen object. *)
Lemma frozen_attempt (op : operation) (o : object) (w : W) :
  frozen o -> snd (fst (attempt W call op o w)) = o.
Proof.
  intro Hf. destruct op as [k d|k v|k]; simpl.
  - destruct (Object_defineProperty o k d) as [o'|x] eqn:E; [|reflexivity].
    simpl. apply (frozen_defineProperty o o' k d Hf E).
  - pose proof (frozen_Set o k v w Hf) as H.
    destruct (Set_ W call o k v w) as [[ok o'] w']. exact H.
  - pose proof (frozen_Delete o k Hf) as H.
    destruct (Delete o k) as [ok o']. exact H.
Qed.

Lemma frozen_attempts (ops : list operation) : forall (o : object) (w : W),
  frozen o -> fst (attempts W call ops o w) = o.
Proof.
  induction ops as [|op r IH]; intros o w Hf; simpl; [reflexivity|].
  pose proof (frozen_attempt op o w Hf) as H.
  destruct (attempt W call op o w) as [[failed o'] w']. simpl in H. subst o'.
  apply IH. exact Hf.
Qed.

Lemma new_Enum_frozen (e0 : enums) (auto : option bool) (c : counter) (s : cstate) :
  new_Enum constantCase getTypeName e0 auto c = (Normal tt, s) -> frozen (this s).
Proof.
  unfold new_Enum, constructor.
  destruct (default false auto && negb (isArray e0)); [discriminate|].
  destruct (match e0 with
            | EArray rows => _
            | EMapping entries => _
            end) as [[[]|x] s1]; [|discriminate].
  intro H. inversion H. apply freeze_frozen.
Qed.

Lemma lookup_members (f : string -> property) (ks : list string) (k : string) :
  In k ks -> lookup k (map (fun k => (k, f k)) ks) = Some (f k).
Proof.
  induction ks as [|k0 r IH]; simpl; [intros []|].
  destruct (String.eqb k k0) eqn:E.
  - apply String.eqb_eq in E. subst. reflexivity.
  - intros [->|H]; [rewrite String.eqb_refl in E; discriminate|apply IH; exact H].
Qed.

(** Every property of an instance is a fixed or a computed member. *)
Lemma new_Enum_members (e0 : enums) (auto : option bool) (c : counter) (s : cstate) :
  new_Enum constantCase getTypeName e0 auto c = (Normal tt, s) ->
  forall k p, GetOwnProperty (this s) k = Some p ->
    (exists v, p = fixed_member v) \/ (exists f, p = computed_member f).
Proof.
  intros H k p G. apply lookup_In in G. destruct e0 as [rows|entries].
  - destruct (default false auto) eqn:Ha.
    + destruct auto as [[|]|]; try discriminate.
      apply new_Enum_auto in H. destruct H as [_ [_ [_ [_ Hm]]]].
      destruct (Hm k p G) as [r [_ [_ ->]]]. left. eexists. reflexivity.
    + apply (new_Enum_iota _ _ _ _ _ _ Ha) in H. destruct H as [Ht _].
      rewrite Ht in G. simpl in G. apply numbered_In in G.
      destruct G as [i [_ ->]]. left. eexists. reflexivity.
  - destruct (default false auto) eqn:Ha.
    + unfold new_Enum, constructor in H. rewrite Ha in H. discriminate.
    + rewrite (new_Enum_mapping constantCase getTypeName entries auto c Ha) in H.
      inversion H; subst. simpl in G. apply in_map_iff in G.
      destruct G as [k' [E _]]. inversion E; subst.
      destruct (entry (object_literal entries) k); simpl;
        first [left; eexists; reflexivity|right; eexists; reflexivity].
Qed.

(** C6.  The instance the constructor returns is frozen.  Whatever is
    attempted on it afterwards (defining a property with any descriptor,
    assigning to any key, deleting any key), once or any number of times in
    a row, leaves it as it is: the attempt fails or has no effect.  Adding
    a key fails, and so does assigning to any key, new or not, other than
    [__proto__] (an assignment to [__proto__] goes to the inherited setter,
    which returns without an error for a value that is not an object), and
    deleting a key of the instance. *)
Theorem instance_is_frozen
    (e0 : enums) (auto : option bool) (c : counter) (s : cstate) :
  new_Enum constantCase getTypeName e0 auto c = (Normal tt, s) ->
  frozen (this s)
  /\ (forall op w, snd (fst (attempt W call op (this s) w)) = this s)
  /\ (forall ops w, fst (attempts W call ops (this s) w) = this s)
  /\ (forall k d w, GetOwnProperty (this s) k = None ->
        fst (fst (attempt W call (Define k d) (this s) w)) = true)
  /\ (forall k v w, k <> "__proto__"%string ->
        fst (fst (attempt W call (Assign k v) (this s) w)) = true)
  /\ (forall k w, GetOwnProperty (this s) k <> None ->
        fst (fst (attempt W call (Remove k) (this s) w)) = true).
Proof.
  intro H. pose proof (new_Enum_frozen _ _ _ _ H) as Hf.
  pose proof (new_Enum_members _ _ _ _ H) as Hm.
  split; [exact Hf|]. split; [|split; [|split; [|split]]].
  - intros op w. apply frozen_attempt. exact Hf.
  - intros ops w. apply frozen_attempts. exact Hf.
  - intros k d w G. simpl. unfold Object_defineProperty, DefineOwnProperty.
    destruct (IsAccessorDescriptor d && IsDataDescriptor d); [reflexivity|].
    rewrite G. destruct Hf as [-> _]. reflexivity.
  - intros k v w Hk. simpl. unfold Set_.
    destruct (GetOwnProperty (this s) k) as [p|] eqn:G.
    + destruct (Hm k p G) as [[u ->]|[f ->]]; reflexivity.
    + destruct Hf as [-> _]. apply String.eqb_neq in Hk. rewrite Hk. reflexivity.
  - intros k w G. simpl. unfold Delete.
    destruct (GetOwnProperty (this s) k) as [p|] eqn:G'; [|congruence].
    destruct (Hm k p G') as [[u ->]|[f ->]]; reflexivity.
Qed.

(** Reading the members of an enumeration built from a mapping: a key
    whose entry is not a function gives the value of the entry and leaves
    the state alone; a key whose entry is a function gives what a call of
    the function on the instance gives, at every read. *)
Lemma mapping_reads (entries : list (string * value)) (auto : option bool)
    (c : counter) (s : cstate) (k : string) :
  new_Enum constantCase getTypeName (EMapping entries) auto c = (Normal tt, s) ->
  In k (Object_keys (object_literal entries)) ->
  (is_function (entry (object_literal entries) k) = false ->
     forall w, Get W call (this s) k w = (entry (object_literal entries) k, w))
  /\ (forall f, entry (object_literal entries) k = VFunction f ->
        forall w, Get W call (this s) k w = call f (this s) w).
Proof.
  intros H Hk. destruct (default false auto) eqn:Ha.
  - unfold new_Enum, constructor in H. rewrite Ha in H. discriminate.
  - rewrite (new_Enum_mapping constantCase getTypeName entries auto c Ha) in H.
    inversion H; subst. unfold Get, GetOwnProperty. cbn [this properties].
    rewrite (lookup_members (fun k => member_of (entry (object_literal entries) k)) _ k Hk).
    split.
    + intros Hn w. destruct (entry (object_literal entries) k); try reflexivity; discriminate.
    + intros f -> w. reflexivity.
Qed.

End Frozen.

(** The example of C6: three attempts in a row on the colours of the class
    documentation. *)
Lemma frozen_example :
  let r := Enum.new_Enum Sample.constantCase Sample.getTypeName
             (Enum.EArray ["RED"; "BLACK"]%string) None None in
  fst (Notions.attempts Z Sample.call
         [Notions.Assign "RED" (JS.VNumber (JS.Int 9));
          Notions.Define "PINK" (Enum.value_init (JS.VNumber (JS.Int 2)));
          Notions.Remove "BLACK"]%string (Enum.this (snd r)) 0)
  = Enum.this (snd r).
Proof.
  intro r.
  apply (proj1 (proj2 (proj2 (instance_is_frozen Sample.constantCase Sample.getTypeName
           Z Sample.call (Enum.EArray ["RED"; "BLACK"]%string) None None (snd r) eq_refl)))).
Defined.

(** C3 at a function that returns [NaN] (function 1 of the samples): the
    member reads as [NaN], and [values()] is empty, since [indexOf] never
    finds [NaN]. *)
Lemma computed_NaN_missing_from_values :
  let r := Enum.new_Enum Sample.constantCase Sample.getTypeName
             (Enum.EMapping [("A"%string, JS.VFunction 1%nat)]) None None in
  fst r = JS.Normal tt
  /\ JS.Get Z Sample.call (Enum.this (snd r)) "A" 0 = (JS.VNumber JS.NaN, 0)
  /\ Enum.values Z Sample.call (Enum.this (snd r)) 0 = ([], 0).
Proof. repeat split. Qed.

(** ** The queries, with their lookups *)

Section Matches.

Import JS Notions.

(** The key [findForValue] picks among [ks] for the resolved values [s]:
    the key at the first position whose value is strictly equal to the
    query, or [undefined]. *)
Lemma first_match_spec (ks : list string) (s : list value) (v : value) :
  List.length s = List.length ks ->
  let res := match Array_get ks (Array_findIndex (fun x => strict_equals x v) s) with
             | Some k => VString k
             | None => VUndefined
             end in
  (forall k, res = VString k <->
     exists n x, nth_error ks n = Some k /\ nth_error s n = Some x /\
       strict_equals x v = true /\
       forall m y, (m < n)%nat -> nth_error s m = Some y -> strict_equals y v = false)
  /\ (res = VUndefined <-> forall x, In x s -> strict_equals x v = false)
  /\ (res = VUndefined \/ exists k, res = VString k).
Proof.
  intros Hl res. unfold res, Array_findIndex.
  destruct (findIndex_from_spec (fun x => strict_equals x v) s 0)
    as [[Hi Hall]|[n [x [Hi [Hn [Hx Hfirst]]]]]]; rewrite Hi.
  - simpl. split; [|split; [|left; reflexivity]].
    + intro k. split; [discriminate|].
      intros [n [x [_ [Hn [Hx _]]]]]. apply nth_error_In in Hn.
      rewrite (Hall x Hn) in Hx. discriminate.
    + split; [intros _; exact Hall|reflexivity].
  - rewrite Z.add_0_l. unfold Array_get.
    destruct (Z.of_nat n <? 0) eqn:E; [apply Z.ltb_lt in E; lia|].
    rewrite Nat2Z.id.
    assert (Hlt : (n < List.length ks)%nat).
    { rewrite <- Hl. apply nth_error_Some. congruence. }
    destruct (nth_error ks n) as [k0|] eqn:Hk;
      [|apply nth_error_None in Hk; lia].
    split; [|split; [|right; exists k0; reflexivity]].
    + intro k. split.
      * intro E'. inversion E'; subst. exists n, x. repeat split; assumption.
      * intros [n' [x' [Hk' [Hn' [Hx' Hfirst']]]]].
        assert (n' = n).
        { destruct (Nat.lt_trichotomy n' n) as [Hlt'|[Heq|Hgt]]; [|exact Heq|].
          - rewrite (Hfirst n' x' Hlt' Hn') in Hx'. discriminate.
          - rewrite (Hfirst' n x Hgt Hn) in Hx. discriminate. }
        subst n'. congruence.
    + split; [discriminate|]. intro Hall. apply nth_error_In in Hn.
      rewrite (Hall x Hn) in Hx. discriminate.
Qed.


(** The keys [Object.keys] lists are own keys. *)
Lemma Object_keys_own (e : object) (k : string) :
  In k (Object_keys e) -> exists p, GetOwnProperty e k = Some p.
Proof.
  unfold Object_keys. intro H. apply filter_In in H. destruct H as [_ H].
  destruct (GetOwnProperty e k) as [p|]; [exists p; reflexivity|discriminate].
Qed.

End Matches.

Section Dispatch.

Import JS Notions Enum Prototype.

Variable W : Type.
Variable invoke : fn -> object -> W -> completion value * W.

Lemma call_method_absent {A : Type} (name : string) (body : object -> M W A)
    (e : object) (w : W) :
  GetOwnProperty e name = None ->
  call_method W invoke name body e w = body e w.
Proof. intro H. unfold call_method. rewrite H. reflexivity. Qed.

(** A fixed member that is not a function, under the name of a method: the
    call throws a TypeError and leaves the state as it is. *)
Lemma call_method_member {A : Type} (name : string) (body : object -> M W A)
    (e : object) (v : value) (w : W) :
  GetOwnProperty e name = Some (fixed_member v) -> is_function v = false ->
  call_method W invoke name body e w
  = (Throws (TypeError ("this." ++ name ++ " is not a function")), w).
Proof.
  intros H Hf. unfold call_method, Get. rewrite H. simpl.
  destruct v; try reflexivity; discriminate.
Qed.

Lemma keys_call (e : object) (w : W) :
  GetOwnProperty e "keys" = None ->
  call_method W invoke "keys" (keys W) e w = (Returns (Object_keys e), w).
Proof. intro H. rewrite (call_method_absent _ _ _ _ H). reflexivity. Qed.

Lemma read_Get (e : object) (k : string) (w w1 : W) (c : completion value) :
  read W invoke e k w c w1 -> Get W invoke e k w = (of_completion c, w1).
Proof.
  intro H. destruct H as [v w G|f w w1 c G E]; unfold Get; rewrite G; simpl.
  - reflexivity.
  - rewrite E. reflexivity.
Qed.

Lemma Array_map_reads (e : object) (ks : list string) (w w1 : W) (r : list value) :
  reads W invoke e ks w r w1 ->
  Array_map W (fun key => Get W invoke e key) ks w = (Returns r, w1).
Proof.
  induction 1 as [w|k ks w w1 w2 v vs Hr _ IH]; [reflexivity|].
  cbn [Array_map]. unfold bind at 1. rewrite (read_Get _ _ _ _ _ Hr). simpl.
  unfold bind at 1. rewrite IH. reflexivity.
Qed.

Lemma Array_map_throws (e : object) (ks : list string) (w w1 : W) (x : exn) :
  reads_throw W invoke e ks w x w1 ->
  Array_map W (fun key => Get W invoke e key) ks w = (Throws x, w1).
Proof.
  induction 1 as [k ks w w1 x Hr|k ks w w1 w2 v x Hr _ IH];
    cbn [Array_map]; unfold bind at 1; rewrite (read_Get _ _ _ _ _ Hr); simpl.
  - reflexivity.
  - unfold bind at 1. rewrite IH. reflexivity.
Qed.

Lemma reads_length (e : object) (ks : list string) (w w1 : W) (r : list value) :
  reads W invoke e ks w r w1 -> List.length r = List.length ks.
Proof. induction 1; simpl; congruence. Qed.

(** The value at a position is what the read of the key at that position
    gave. *)
Lemma reads_nth (e : object) (ks : list string) (w w1 : W) (r : list value) :
  reads W invoke e ks w r w1 ->
  forall n k, nth_error ks n = Some k ->
    exists x wa wb, nth_error r n = Some x /\ read W invoke e k wa (Normal x) wb.
Proof.
  induction 1 as [w|k0 ks w w1 w2 v vs Hr _ IH]; intros n k Hn.
  - destruct n; discriminate.
  - destruct n as [|n]; simpl in Hn.
    + inversion Hn; subst. exists v, w, w1. split; [reflexivity|exact Hr].
    + apply (IH n k Hn).
Qed.

(** Members are read to the end, or up to the first getter that throws. *)
Lemma reads_total (e : object) (ks : list string) :
  (forall k, In k ks -> (exists v, GetOwnProperty e k = Some (fixed_member v)) \/
                        (exists f, GetOwnProperty e k = Some (computed_member f))) ->
  forall w, (exists r w1, reads W invoke e ks w r w1) \/
            (exists x w1, reads_throw W invoke e ks w x w1).
Proof.
  induction ks as [|k ks IH]; intros Hm w.
  - left. exists [], w. constructor.
  - assert (Hm' : forall k', In k' ks ->
              (exists v, GetOwnProperty e k' = Some (fixed_member v)) \/
              (exists f, GetOwnProperty e k' = Some (computed_member f))).
    { intros k' Hk'. apply Hm. right. exact Hk'. }
    assert (Hk : exists c w1, read W invoke e k w c w1).
    { destruct (Hm k (or_introl eq_refl)) as [[v G]|[f G]].
      - exists (Normal v), w. apply read_fixed. exact G.
      - exists (fst (invoke f e w)), (snd (invoke f e w)).
        apply (read_computed W invoke e k f w _ _ G). apply surjective_pairing. }
    destruct Hk as [[v|x] [w1 Hr]].
    + destruct (IH Hm' w1) as [[r [w2 Hrs]]|[x [w2 Ht]]].
      * left. exists (v :: r), w2. apply (reads_cons W invoke e k ks w w1 w2 v r Hr Hrs).
      * right. exists x, w2. apply (throw_later W invoke e k ks w w1 w2 v x Hr Ht).
    + right. exists x, w1. apply (throw_here W invoke e k ks w w1 x Hr).
Qed.

(** The methods on an instance with no member named [keys]. *)
Lemma values_reads (e : object) (w w1 : W) (r : list value) :
  GetOwnProperty e "keys" = None ->
  reads W invoke e (Object_keys e) w r w1 ->
  values W invoke e w = (Returns (Array_filter first_occurrence r), w1).
Proof.
  intros Hk Hr. unfold values. unfold bind at 1. rewrite (keys_call e w Hk).
  unfold bind at 1. rewrite (Array_map_reads _ _ _ _ _ Hr). reflexivity.
Qed.

Lemma values_throws (e : object) (w w1 : W) (x : exn) :
  GetOwnProperty e "keys" = None ->
  reads_throw W invoke e (Object_keys e) w x w1 ->
  values W invoke e w = (Throws x, w1).
Proof.
  intros Hk Hr. unfold values. unfold bind at 1. rewrite (keys_call e w Hk).
  unfold bind at 1. rewrite (Array_map_throws _ _ _ _ _ Hr). reflexivity.
Qed.

Lemma findForValue_reads (e : object) (v : value) (w w1 : W) (r : list value) :
  GetOwnProperty e "keys" = None ->
  reads W invoke e (Object_keys e) w r w1 ->
  findForValue W invoke v e w
  = (Returns match Array_get (Object_keys e)
                     (Array_findIndex (fun x => strict_equals x v) r) with
             | Some k => VString k
             | None => VUndefined
             end, w1).
Proof.
  intros Hk Hr. unfold findForValue. unfold bind at 1. rewrite (keys_call e w Hk).
  unfold bind at 1. rewrite (Array_map_reads _ _ _ _ _ Hr).
  unfold bind at 1. rewrite (keys_call e w1 Hk). reflexivity.
Qed.

Lemma findForValue_throws (e : object) (v : value) (w w1 : W) (x : exn) :
  GetOwnProperty e "keys" = None ->
  reads_throw W invoke e (Object_keys e) w x w1 ->
  findForValue W invoke v e w = (Throws x, w1).
Proof.
  intros Hk Hr. unfold findForValue. unfold bind at 1. rewrite (keys_call e w Hk).
  unfold bind at 1. rewrite (Array_map_throws _ _ _ _ _ Hr). reflexivity.
Qed.


Variable constantCase : string -> string.
Variable getTypeName : enums -> string.


(** The keys of an instance are members, fixed or computed. *)
Lemma keys_are_members (e0 : enums) (auto : option bool) (c : counter) (s : cstate) :
  new_Enum constantCase getTypeName e0 auto c = (Normal tt, s) ->
  forall k, In k (Object_keys (this s)) ->
    (exists v, GetOwnProperty (this s) k = Some (fixed_member v)) \/
    (exists f, GetOwnProperty (this s) k = Some (computed_member f)).
Proof.
  intros H k Hk. destruct (Object_keys_own _ _ Hk) as [p G].
  destruct (new_Enum_members constantCase getTypeName _ _ _ _ H k p G) as [[v ->]|[f ->]].
  - left. exists v. exact G.
  - right. exists f. exact G.
Qed.

(** C7, as the code has it.  On an instance with no member named [keys] or
    [findForValue], [findForValue(value)] reads the members in the order of
    [keys()], each value being what the read of the key at its position
    gives, and returns the first key whose value is strictly equal to
    [value], or [undefined] when no value is; when the getter of a member
    throws, it throws the same exception.  The order of [keys()] is the
    order in which the keys were declared except that the keys that are
    array indices come first, in ascending numeric order; it is the
    declaration order when no key is an array index. *)
Theorem findForValue_first_match_in_keys_order
    (e0 : enums) (auto : option bool) (c : counter) (s : cstate) (v : value) (w : W) :
  new_Enum constantCase getTypeName e0 auto c = (Normal tt, s) ->
  GetOwnProperty (this s) "keys" = None ->
  GetOwnProperty (this s) "findForValue" = None ->
  call_method W invoke "keys" (keys W) (this s) w
  = (Returns (key_order (declared_keys constantCase e0 auto)), w)
  /\ ((forall k, In k (declared_keys constantCase e0 auto) -> array_index k = None) ->
      key_order (declared_keys constantCase e0 auto) = declared_keys constantCase e0 auto)
  /\ ((exists r w1,
         reads W invoke (this s) (key_order (declared_keys constantCase e0 auto)) w r w1)
      \/ (exists x w1,
            reads_throw W invoke (this s) (key_order (declared_keys constantCase e0 auto))
              w x w1))
  /\ (forall r w1,
        reads W invoke (this s) (key_order (declared_keys constantCase e0 auto)) w r w1 ->
        (forall n k, nth_error (key_order (declared_keys constantCase e0 auto)) n = Some k ->
           exists x wa wb, nth_error r n = Some x /\
                           read W invoke (this s) k wa (Normal x) wb)
        /\ exists res,
             call_method W invoke "findForValue" (findForValue W invoke v) (this s) w
             = (Returns res, w1)
             /\ (forall k, res = VString k <->
                   exists n x,
                     nth_error (key_order (declared_keys constantCase e0 auto)) n = Some k /\
                     nth_error r n = Some x /\ strict_equals x v = true /\
                     forall m y, (m < n)%nat -> nth_error r m = Some y ->
                                 strict_equals y v = false)
             /\ (res = VUndefined <-> forall x, In x r -> strict_equals x v = false)
             /\ (res = VUndefined \/ exists k, res = VString k))
  /\ (forall x w1,
        reads_throw W invoke (this s) (key_order (declared_keys constantCase e0 auto))
          w x w1 ->
        call_method W invoke "findForValue" (findForValue W invoke v) (this s) w
        = (Throws x, w1)).
Proof.
  intros H Hk Hf.
  pose proof (keys_declared constantCase getTypeName _ _ _ _ H) as Hd.
  unfold Enum.keys in Hd. rewrite <- Hd.
  split; [apply keys_call; exact Hk|]. split.
  { intro Hno. rewrite Hd. apply key_order_no_index. exact Hno. }
  split; [apply reads_total; apply (keys_are_members _ _ _ _ H)|].
  rewrite (call_method_absent _ _ _ _ Hf). split.
  - intros r w1 Hr. split; [apply (reads_nth _ _ _ _ _ Hr)|].
    rewrite (findForValue_reads _ v _ _ _ Hk Hr). eexists. split; [reflexivity|].
    apply first_match_spec. apply (reads_length _ _ _ _ _ Hr).
  - intros x w1 Hr. apply (findForValue_throws _ v _ _ _ Hk Hr).
Qed.

(** C9, as the code has it.  On an instance with no member named [keys] or
    [values], [values()] reads the members in the order of [keys()] (the
    declaration order with the array indices first, the declaration order
    itself when no key is an array index), each value being what the read
    of the key at its position gives, and never returns more values than
    there are keys.  When no value read is [NaN], it returns the values
    read without those strictly equal to an earlier one, and it returns as
    many values as there are keys exactly when no two values read are
    strictly equal.  When the getter of a member throws, it throws the
    same exception. *)
Theorem values_distinct_in_keys_order
    (e0 : enums) (auto : option bool) (c : counter) (s : cstate) (w : W) :
  new_Enum constantCase getTypeName e0 auto c = (Normal tt, s) ->
  GetOwnProperty (this s) "keys" = None ->
  GetOwnProperty (this s) "values" = None ->
  call_method W invoke "keys" (keys W) (this s) w
  = (Returns (key_order (declared_keys constantCase e0 auto)), w)
  /\ ((forall k, In k (declared_keys constantCase e0 auto) -> array_index k = None) ->
      key_order (declared_keys constantCase e0 auto) = declared_keys constantCase e0 auto)
  /\ ((exists r w1,
         reads W invoke (this s) (key_order (declared_keys constantCase e0 auto)) w r w1)
      \/ (exists x w1,
            reads_throw W invoke (this s) (key_order (declared_keys constantCase e0 auto))
              w x w1))
  /\ (forall r w1,
        reads W invoke (this s) (key_order (declared_keys constantCase e0 auto)) w r w1 ->
        (forall n k, nth_error (key_order (declared_keys constantCase e0 auto)) n = Some k ->
           exists x wa wb, nth_error r n = Some x /\
                           read W invoke (this s) k wa (Normal x) wb)
        /\ exists vs,
             call_method W invoke "values" (values W invoke) (this s) w = (Returns vs, w1)
             /\ (List.length vs
                 <= List.length (key_order (declared_keys constantCase e0 auto)))%nat
             /\ ((forall x, In x r -> is_NaN x = false) ->
                 vs = distinct r
                 /\ (List.length vs
                     = List.length (key_order (declared_keys constantCase e0 auto)) <->
                     pairwise_distinct r)))
  /\ (forall x w1,
        reads_throw W invoke (this s) (key_order (declared_keys constantCase e0 auto))
          w x w1 ->
        call_method W invoke "values" (values W invoke) (this s) w = (Throws x, w1)).
Proof.
  intros H Hk Hv.
  pose proof (keys_declared constantCase getTypeName _ _ _ _ H) as Hd.
  unfold Enum.keys in Hd. rewrite <- Hd.
  split; [apply keys_call; exact Hk|]. split.
  { intro Hno. rewrite Hd. apply key_order_no_index. exact Hno. }
  split; [apply reads_total; apply (keys_are_members _ _ _ _ H)|].
  rewrite (call_method_absent _ _ _ _ Hv). split.
  - intros r w1 Hr. split; [apply (reads_nth _ _ _ _ _ Hr)|].
    rewrite (values_reads _ _ _ _ Hk Hr). eexists. split; [reflexivity|].
    pose proof (reads_length _ _ _ _ _ Hr) as Hl. split.
    + rewrite <- Hl. apply filter_from_length.
    + intro Hn. rewrite (values_distinct r Hn). split; [reflexivity|].
      rewrite <- Hl. apply distinct_all.
  - intros x w1 Hr. apply (values_throws _ _ _ _ Hk Hr).
Qed.

End Dispatch.



(** The example of C7: the levels in the state 5.  The key found for 2 is
    [HIGH], for 1 the first of the two keys that hold it, for 5 the
    computed member, whose read moves the state; nothing is found for 3. *)
Lemma levels_findForValue_example :
  let r := Enum.new_Enum Sample.constantCase Sample.getTypeName Sample.levels None None in
  let find := fun n : Z =>
    Prototype.call_method Z Sample.invoke "findForValue"
      (Prototype.findForValue Z Sample.invoke (JS.VNumber (JS.Int n))) (Enum.this (snd r)) 5 in
  find 2 = (Prototype.Returns (JS.VString "HIGH"), 6)
  /\ find 1 = (Prototype.Returns (JS.VString "LOW"), 6)
  /\ find 5 = (Prototype.Returns (JS.VString "TICK"), 6)
  /\ find 3 = (Prototype.Returns JS.VUndefined, 6).
Proof.
  intros r find.
  assert (Hr : Notions.reads Z Sample.invoke (Enum.this (snd r))
                 (JS.key_order (Notions.declared_keys Sample.constantCase Sample.levels None))
                 5 [JS.VNumber (JS.Int 1); JS.VNumber (JS.Int 2); JS.VNumber (JS.Int 1);
                    JS.VNumber (JS.Int 5)] 6).
  { apply (Notions.reads_cons Z Sample.invoke _ _ _ 5 5 6);
      [apply Notions.read_fixed; reflexivity|].
    apply (Notions.reads_cons Z Sample.invoke _ _ _ 5 5 6);
      [apply Notions.read_fixed; reflexivity|].
    apply (Notions.reads_cons Z Sample.invoke _ _ _ 5 5 6);
      [apply Notions.read_fixed; reflexivity|].
    apply (Notions.reads_cons Z Sample.invoke _ _ _ 5 6 6);
      [apply (Notions.read_computed Z Sample.invoke _ _ 0%nat); reflexivity|].
    apply Notions.reads_nil. }
  assert (Hfind : forall n : Z,
            exists res, find n = (Prototype.Returns res, 6)
              /\ (forall k, res = JS.VString k <->
                    exists i x,
                      nth_error ["LOW"; "HIGH"; "ALSO_LOW"; "TICK"]%string i = Some k /\
                      nth_error [JS.VNumber (JS.Int 1); JS.VNumber (JS.Int 2);
                                 JS.VNumber (JS.Int 1); JS.VNumber (JS.Int 5)] i = Some x /\
                      JS.strict_equals x (JS.VNumber (JS.Int n)) = true /\
                      forall m y, (m < i)%nat ->
                        nth_error [JS.VNumber (JS.Int 1); JS.VNumber (JS.Int 2);
                                   JS.VNumber (JS.Int 1); JS.VNumber (JS.Int 5)] m = Some y ->
                        JS.strict_equals y (JS.VNumber (JS.Int n)) = false)
              /\ (res = JS.VUndefined <->
                  forall x, In x [JS.VNumber (JS.Int 1); JS.VNumber (JS.Int 2);
                                  JS.VNumber (JS.Int 1); JS.VNumber (JS.Int 5)] ->
                            JS.strict_equals x (JS.VNumber (JS.Int n)) = false)).
  { intro n.
    destruct (findForValue_first_match_in_keys_order Z Sample.invoke
                Sample.constantCase Sample.getTypeName Sample.levels None None (snd r)
                (JS.VNumber (JS.Int n)) 5 eq_refl eq_refl eq_refl) as [_ [_ [_ [H _]]]].
    destruct (H _ _ Hr) as [_ [res [E [Hk [Hu _]]]]].
    exists res. split; [exact E|]. split; [exact Hk|exact Hu]. }
  split; [|split; [|split]].
  - destruct (Hfind 2) as [res [E [Hk _]]]. rewrite E. f_equal. f_equal. apply Hk.
    exists 1%nat, (JS.VNumber (JS.Int 2)). repeat split.
    intros m y Hm Hy. destruct m as [|m]; [|lia]. inversion Hy. reflexivity.
  - destruct (Hfind 1) as [res [E [Hk _]]]. rewrite E. f_equal. f_equal. apply Hk.
    exists 0%nat, (JS.VNumber (JS.Int 1)). repeat split. intros m y Hm. lia.
  - destruct (Hfind 5) as [res [E [Hk _]]]. rewrite E. f_equal. f_equal. apply Hk.
    exists 3%nat, (JS.VNumber (JS.Int 5)). repeat split.
    intros m y Hm Hy.
    destruct m as [|[|[|m]]]; [| | |lia]; inversion Hy; reflexivity.
  - destruct (Hfind 3) as [res [E [_ Hu]]]. rewrite E. f_equal. f_equal. apply Hu.
    intros x Hx. repeat (destruct Hx as [<-|Hx]; [reflexivity|]). destruct Hx.
Defined.

(** Against C7 as the specification has it: of two keys with the same
    value, the one declared second is found when it is an array index. *)
Lemma findForValue_index_key_first :
  let r := Enum.new_Enum Sample.constantCase Sample.getTypeName
             (Enum.EMapping [("b", JS.VNumber (JS.Int 1)); ("0", JS.VNumber (JS.Int 1))]%string)
             None None in
  fst r = JS.Normal tt
  /\ Prototype.Get Z Sample.invoke (Enum.this (snd r)) "b" 0
     = (Prototype.Returns (JS.VNumber (JS.Int 1)), 0)
  /\ Prototype.call_method Z Sample.invoke "findForValue"
       (Prototype.findForValue Z Sample.invoke (JS.VNumber (JS.Int 1))) (Enum.this (snd r)) 0
     = (Prototype.Returns (JS.VString "0"), 0)
  /\ JS.VString "0" <> JS.VString "b".
Proof. repeat split. discriminate. Qed.

(** The example of C9: the levels in the state 5.  The value 1 of the
    third key is dropped, the value of the computed member comes last. *)
Lemma levels_values_example :
  let r := Enum.new_Enum Sample.constantCase Sample.getTypeName Sample.levels None None in
  Prototype.call_method Z Sample.invoke "values" (Prototype.values Z Sample.invoke)
    (Enum.this (snd r)) 5
  = (Prototype.Returns [JS.VNumber (JS.Int 1); JS.VNumber (JS.Int 2); JS.VNumber (JS.Int 5)], 6).
Proof.
  intro r.
  assert (Hr : Notions.reads Z Sample.invoke (Enum.this (snd r))
                 (JS.key_order (Notions.declared_keys Sample.constantCase Sample.levels None))
                 5 [JS.VNumber (JS.Int 1); JS.VNumber (JS.Int 2); JS.VNumber (JS.Int 1);
                    JS.VNumber (JS.Int 5)] 6).
  { apply (Notions.reads_cons Z Sample.invoke _ _ _ 5 5 6);
      [apply Notions.read_fixed; reflexivity|].
    apply (Notions.reads_cons Z Sample.invoke _ _ _ 5 5 6);
      [apply Notions.read_fixed; reflexivity|].
    apply (Notions.reads_cons Z Sample.invoke _ _ _ 5 5 6);
      [apply Notions.read_fixed; reflexivity|].
    apply (Notions.reads_cons Z Sample.invoke _ _ _ 5 6 6);
      [apply (Notions.read_computed Z Sample.invoke _ _ 0%nat); reflexivity|].
    apply Notions.reads_nil. }
  destruct (values_distinct_in_keys_order Z Sample.invoke
              Sample.constantCase Sample.getTypeName Sample.levels None None (snd r)
              5 eq_refl eq_refl eq_refl) as [_ [_ [_ [H _]]]].
  destruct (H _ _ Hr) as [_ [vs [E [_ Hd]]]].
  rewrite E. f_equal. f_equal. apply Hd.
  intros x Hx. repeat (destruct Hx as [<-|Hx]; [reflexivity|]). destruct Hx.
Defined.

(** Against C9 as the specification has it: the key declared second is an
    array index, so its value comes first in [values()]. *)
Lemma values_index_key_first :
  let r := Enum.new_Enum Sample.constantCase Sample.getTypeName
             (Enum.EArray ["b"; "0"]%string) None None in
  fst r = JS.Normal tt
  /\ Prototype.Get Z Sample.invoke (Enum.this (snd r)) "b" 0
     = (Prototype.Returns (JS.VNumber (JS.Int 0)), 0)
  /\ Prototype.Get Z Sample.invoke (Enum.this (snd r)) "0" 0
     = (Prototype.Returns (JS.VNumber (JS.Int 1)), 0)
  /\ Prototype.call_method Z Sample.invoke "values" (Prototype.values Z Sample.invoke)
       (Enum.this (snd r)) 0
     = (Prototype.Returns [JS.VNumber (JS.Int 1); JS.VNumber (JS.Int 0)], 0)
  /\ [JS.VNumber (JS.Int 1); JS.VNumber (JS.Int 0)]
     <> [JS.VNumber (JS.Int 0); JS.VNumber (JS.Int 1)].
Proof. repeat split. discriminate. Qed.

(** ** The message of InvalidCommandError *)

Section Hexadecimal.

Import JS Notions InvalidCommandError.
Local Open Scope string_scope.

Lemma append_assoc (a b c : string) : (a ++ b) ++ c = a ++ (b ++ c).
Proof. induction a as [|x a IH]; simpl; [reflexivity|]. rewrite IH. reflexivity. Qed.

Lemma append_empty (a : string) : a ++ "" = a.
Proof. induction a as [|x a IH]; simpl; [reflexivity|]. rewrite IH. reflexivity. Qed.

Lemma length_append (a b : string) :
  String.length (a ++ b) = (String.length a + String.length b)%nat.
Proof. induction a as [|x a IH]; simpl; [reflexivity|]. rewrite IH. reflexivity. Qed.

Lemma hex_value_from_append (a b : string) : forall acc : N,
  hex_value_from acc (a ++ b) =
  match hex_value_from acc a with
  | Some n => hex_value_from n b
  | None => None
  end.
Proof.
  induction a as [|x a IH]; intro acc; simpl; [reflexivity|].
  destruct (hex_digit_value x); [apply IH|reflexivity].
Qed.

Lemma hex_digit_value_digit (d : N) :
  (d < 16)%N -> hex_digit_value (hex_digit d) = Some d.
Proof.
  intro H.
  assert (E : (d = 0 \/ d = 1 \/ d = 2 \/ d = 3 \/ d = 4 \/ d = 5 \/ d = 6 \/ d = 7 \/
               d = 8 \/ d = 9 \/ d = 10 \/ d = 11 \/ d = 12 \/ d = 13 \/ d = 14 \/
               d = 15)%N) by lia.
  repeat (destruct E as [->|E]; [reflexivity|]). subst. reflexivity.
Qed.

(** With enough fuel, [hex_digits] puts in front of [acc] the digits of
    [n]: they denote [n], and they are as many as [n] needs. *)
Lemma hex_digits_spec (fuel : nat) : forall (n : N) (acc : string),
  (n < 16 ^ N.of_nat (S fuel))%N ->
  exists ds, hex_digits (S fuel) n acc = ds ++ acc
    /\ (forall a, hex_value_from a ds
                  = Some (a * 16 ^ N.of_nat (String.length ds) + n)%N)
    /\ (1 <= String.length ds)%nat
    /\ (n < 16 ^ N.of_nat (String.length ds))%N
    /\ (n <> 0%N -> 16 ^ N.of_nat (String.length ds - 1) <= n)%N.
Proof.
  induction fuel as [|f IH]; intros n acc Hn;
    cbn [hex_digits];
    pose proof (N.mod_lt n 16 ltac:(lia)) as Hm;
    pose proof (N.div_mod n 16 ltac:(lia)) as Hd;
    destruct (n / 16 =? 0)%N eqn:E.
  1, 3: apply N.eqb_eq in E; exists (String (hex_digit (n mod 16)) "");
    assert (Hn16 : (n mod 16 = n)%N) by lia;
    cbn [String.length Nat.sub];
    change (16 ^ N.of_nat 1)%N with 16%N; change (16 ^ N.of_nat 0)%N with 1%N;
    (split; [reflexivity|]); (split; [|split; [lia|split; lia]]);
    intro a; cbn [hex_value_from]; rewrite (hex_digit_value_digit _ Hm); f_equal; lia.
  - apply N.eqb_neq in E. exfalso. apply E. apply N.div_small. simpl in Hn. lia.
  - apply N.eqb_neq in E.
    assert (Hq : (n / 16 < 16 ^ N.of_nat (S f))%N).
    { apply N.Div0.div_lt_upper_bound.
      rewrite (Nat2N.inj_succ (S f)), N.pow_succ_r' in Hn. lia. }
    destruct (IH (n / 16)%N (String (hex_digit (n mod 16)) acc) Hq)
      as [ds [Hds [Hv [Hl [Hu Hlo]]]]].
    exists (ds ++ String (hex_digit (n mod 16)) "").
    change (hex_digits (S f) (n / 16) (String (hex_digit (n mod 16)) acc)
            = (ds ++ String (hex_digit (n mod 16)) "") ++ acc
            /\ (forall a, hex_value_from a (ds ++ String (hex_digit (n mod 16)) "")
                 = Some (a * 16 ^ N.of_nat
                           (String.length (ds ++ String (hex_digit (n mod 16)) "")) + n)%N)
            /\ (1 <= String.length (ds ++ String (hex_digit (n mod 16)) ""))%nat
            /\ (n < 16 ^ N.of_nat (String.length (ds ++ String (hex_digit (n mod 16)) "")))%N
            /\ (n <> 0%N ->
                16 ^ N.of_nat (String.length (ds ++ String (hex_digit (n mod 16)) "") - 1)
                <= n)%N).
    rewrite Hds, append_assoc. split; [reflexivity|].
    rewrite length_append. simpl String.length.
    replace (String.length ds + 1)%nat with (S (String.length ds)) by lia.
    rewrite Nat2N.inj_succ, N.pow_succ_r'.
    split; [|split; [lia|split]].
    + intro a. rewrite hex_value_from_append, Hv. cbn [hex_value_from].
      rewrite (hex_digit_value_digit _ Hm). f_equal. lia.
    + lia.
    + intros _. specialize (Hlo E).
      replace (S (String.length ds) - 1)%nat with (S (String.length ds - 1)) by lia.
      rewrite Nat2N.inj_succ, N.pow_succ_r'.
      generalize dependent (16 ^ N.of_nat (String.length ds - 1))%N. intros P HP.
      pose proof (N.mul_le_mono_l _ _ 16 HP). pose proof (N.Div0.mul_div_le n 16). lia.
Qed.

Lemma hex_fuel (n : N) : (n < 16 ^ N.of_nat (S (N.to_nat (N.log2 n))))%N.
Proof.
  rewrite Nat2N.inj_succ, N2Nat.id.
  assert (H2 : (n < 2 ^ N.succ (N.log2 n))%N).
  { destruct n as [|p]; [simpl; lia|]. apply N.log2_spec. lia. }
  assert (H : (2 ^ N.succ (N.log2 n) <= 16 ^ N.succ (N.log2 n))%N).
  { apply N.pow_le_mono_l. lia. }
  lia.
Qed.

(** [toString(16)] of a non-negative integer: its lower-case hexadecimal
    digits, without leading zero. *)
Lemma hex_of_N_spec (n : N) :
  hex_value (hex_of_N n) = Some n
  /\ (1 <= String.length (hex_of_N n))%nat
  /\ (n < 16 ^ N.of_nat (String.length (hex_of_N n)))%N
  /\ (n <> 0%N -> 16 ^ N.of_nat (String.length (hex_of_N n) - 1) <= n)%N.
Proof.
  unfold hex_of_N.
  destruct (hex_digits_spec (N.to_nat (N.log2 n)) n "" (hex_fuel n))
    as [ds [E [Hv [Hl [Hu Hlo]]]]].
  rewrite E, append_empty. split; [|split; [exact Hl|split; [exact Hu|exact Hlo]]].
  unfold hex_value. destruct ds as [|x ds]; [simpl in Hl; lia|].
  rewrite Hv. reflexivity.
Qed.

Lemma hex_length_one (n : N) : String.length (hex_of_N n) = 1%nat <-> (n < 16)%N.
Proof.
  destruct (hex_of_N_spec n) as [_ [Hl [Hu Hlo]]]. split.
  - intro E. rewrite E in Hu. simpl in Hu. lia.
  - intro H. destruct (String.length (hex_of_N n)) as [|[|k]] eqn:E; [lia|reflexivity|].
    exfalso. assert (n <> 0%N -> 16 <= n)%N.
    { intro Hz. specialize (Hlo Hz).
      replace (S (S k) - 1)%nat with (S k) in Hlo by lia.
      rewrite Nat2N.inj_succ, N.pow_succ_r' in Hlo.
      assert (1 <= 16 ^ N.of_nat k)%N; [|lia].
      apply N.lt_pred_le. simpl. apply N.neq_0_lt_0, N.pow_nonzero. lia. }
    destruct (N.eq_dec n 0) as [->|Hz]; [vm_compute in E; discriminate|].
    specialize (H0 Hz). lia.
Qed.

Lemma hex_length_two (n : N) :
  (String.length (hex_of_N n) <= 2)%nat <-> (n < 256)%N.
Proof.
  destruct (hex_of_N_spec n) as [_ [Hl [Hu Hlo]]]. split.
  - intro H. destruct (String.length (hex_of_N n)) as [|[|[|k]]]; simpl in Hu; lia.
  - intro H. destruct (String.length (hex_of_N n)) as [|[|[|k]]] eqn:E; try lia.
    exfalso. assert (Hz : n <> 0%N).
    { intros ->. vm_compute in E. discriminate. }
    specialize (Hlo Hz).
    replace (S (S (S k)) - 1)%nat with (S (S k)) in Hlo by lia.
    rewrite !Nat2N.inj_succ, !N.pow_succ_r' in Hlo.
    assert (1 <= 16 ^ N.of_nat k)%N; [|lia].
    apply N.lt_pred_le. simpl. apply N.neq_0_lt_0, N.pow_nonzero. lia.
Qed.

(** [d2h] of a non-negative integer: its hexadecimal digits, with a zero in
    front when there is one digit only. *)
Lemma d2h_spec (n : Z) :
  (0 <= n)%Z ->
  hex_value (d2h (Int n)) = Some (Z.to_N n)
  /\ (2 <= String.length (d2h (Int n)))%nat
  /\ (String.length (d2h (Int n)) = 2%nat <-> (n < 256)%Z).
Proof.
  intro Hn. unfold d2h, Number_toString16.
  destruct (n <? 0)%Z eqn:E; [apply Z.ltb_lt in E; lia|].
  set (m := Z.to_N n). destruct (hex_of_N_spec m) as [Hv [Hl _]].
  pose proof (hex_length_one m) as H1. pose proof (hex_length_two m) as H2.
  assert (Hm : (m < 256)%N <-> (n < 256)%Z) by (unfold m; lia).
  destruct (String.length (hex_of_N m) =? 1)%nat eqn:E1.
  - apply Nat.eqb_eq in E1. split; [|split].
    + unfold hex_value in *. simpl. destruct (hex_of_N m); [discriminate|exact Hv].
    + simpl. lia.
    + simpl. rewrite E1. split; [intros _|reflexivity].
      apply Hm. apply proj1 in H1. specialize (H1 E1). lia.
  - apply Nat.eqb_neq in E1. split; [exact Hv|]. split; [lia|].
    rewrite <- Hm, <- H2. lia.
Qed.

End Hexadecimal.

Section Message.

Import JS Notions InvalidCommandError.
Local Open Scope string_scope.

Variable object_toString : value -> string.

Lemma message_suffix (message : string) (context : option (list string)) :
  (if (0 <? List.length (default [] context))%nat
   then message ++ " (" ++ join (default [] context) ++ ")"
   else message) = message ++ context_suffix context.
Proof.
  destruct context as [[|x l]|]; simpl; rewrite ?append_empty; reflexivity.
Qed.

(** C4, as the code has it.  For a target that is a non-negative integer
    the message is "Can't find <type> with the value <hex>" where <hex> is
    the target in lower-case hexadecimal digits, with a zero in front when
    it has one digit: two digits at least, and exactly two when the target
    is a byte (below 256).  For a target that is not a number the message
    is "Can't find <type> called " followed by the target, in double
    quotes, as [toString] renders it: a string verbatim.  The context, in
    parentheses and separated by commas, follows when it is not empty. *)
Theorem InvalidCommandError_message
    (value : JS.value) (type : string) (target : JS.value)
    (context : option (list string)) :
  (forall n, target = VNumber (Int n) -> (0 <= n)%Z ->
     constructor object_toString value type target context
     = "Can't find " ++ type ++ " with the value " ++ d2h (Int n) ++ context_suffix context
     /\ hex_value (d2h (Int n)) = Some (Z.to_N n)
     /\ (2 <= String.length (d2h (Int n)))%nat
     /\ (String.length (d2h (Int n)) = 2%nat <-> (n < 256)%Z))
  /\ (is_number target = false ->
      constructor object_toString value type target context
      = "Can't find " ++ type ++ " called " ++ Enum.dquote
        ++ ToString object_toString target ++ Enum.dquote ++ context_suffix context)
  /\ (forall t, target = VString t -> ToString object_toString target = t)
  /\ (context_suffix context = "" <-> default [] context = []).
Proof.
  split; [|split; [|split]].
  - intros n -> Hn. split; [|apply d2h_spec; exact Hn].
    unfold constructor. rewrite message_suffix. simpl.
    rewrite ?append_assoc. simpl. rewrite ?append_assoc. reflexivity.
  - intro Ht. unfold constructor. rewrite message_suffix.
    destruct target; try discriminate; simpl;
      rewrite ?append_assoc; simpl; rewrite ?append_assoc; reflexivity.
  - intros t ->. reflexivity.
  - destruct context as [[|x l]|]; simpl; split; try reflexivity; discriminate.
Qed.

End Message.

(** The examples of C4. *)
Lemma InvalidCommandError_examples :
  InvalidCommandError.constructor Sample.object_toString JS.VUndefined "command"
    (JS.VNumber (JS.Int 15)) None
  = "Can't find command with the value 0f"%string
  /\ InvalidCommandError.constructor Sample.object_toString JS.VUndefined "class"
       (JS.VString "Foo") (Some ["bar"%string])
     = ("Can't find class called " ++ Enum.dquote ++ "Foo" ++ Enum.dquote ++ " (bar)")%string.
Proof.
  split.
  - apply (proj1 (InvalidCommandError_message Sample.object_toString JS.VUndefined
             "command" (JS.VNumber (JS.Int 15)) None) 15 eq_refl). lia.
  - apply (proj1 (proj2 (InvalidCommandError_message Sample.object_toString JS.VUndefined
             "class" (JS.VString "Foo") (Some ["bar"%string]))) eq_refl).
Defined.

(** Against C4 as the specification has it: the target 256 is rendered
    with three digits. *)
Lemma target_256_has_three_digits :
  InvalidCommandError.constructor Sample.object_toString JS.VUndefined "command"
    (JS.VNumber (JS.Int 256)) None
  = "Can't find command with the value 100"%string
  /\ String.length (InvalidCommandError.d2h (JS.Int 256)) <> 2%nat.
Proof. split; [reflexivity|]. vm_compute. discriminate. Qed.

(** * Further properties of the two classes *)

(** ** What [values()] keeps *)

Section Kept.

Import JS Notions Enum.

Lemma number_equal_trans (x y z : number) :
  number_equal x y = true -> number_equal y z = true -> number_equal x z = true.
Proof.
  destruct x, y, z; simpl; try discriminate; auto;
    rewrite ?Z.eqb_eq; intros; subst; auto; try apply Z.eqb_refl.
Qed.

Lemma strict_equals_trans (x y z : value) :
  strict_equals x y = true -> strict_equals y z = true -> strict_equals x z = true.
Proof.
  unfold strict_equals. destruct x, y, z; simpl; try discriminate; auto.
  - destruct b, b0, b1; simpl; auto.
  - apply number_equal_trans.
  - rewrite !String.eqb_eq. congruence.
  - rewrite !Nat.eqb_eq. congruence.
  - rewrite !Nat.eqb_eq. congruence.
Qed.

(** The test of the filter on the element that follows [seen]: it passes
    when it is strictly equal to itself and to nothing before it. *)
Lemma first_occurrence_test (seen r : list value) (x : value) :
  first_occurrence x (Z.of_nat (List.length seen)) (seen ++ x :: r) =
  negb (existsb (fun y => strict_equals y x) seen) && strict_equals x x.
Proof.
  unfold first_occurrence, Array_indexOf. rewrite indexOf_from_app.
  destruct (existsb (fun y => strict_equals y x) seen) eqn:E; simpl.
  - pose proof (indexOf_from_found seen 0 x E). apply Z.eqb_neq. lia.
  - destruct (strict_equals x x) eqn:Ex; [apply Z.eqb_refl|].
    apply Z.eqb_neq.
    destruct (existsb (fun y => strict_equals y x) r) eqn:Er.
    + pose proof (indexOf_from_found r (Z.of_nat (List.length seen) + 1) x Er). lia.
    + rewrite (indexOf_from_missing r _ x Er). lia.
Qed.

Lemma filter_first_occurrence_kept (r : list value) : forall seen : list value,
  let out := filter_from (Z.of_nat (List.length seen))
               (fun v i => first_occurrence v i (seen ++ r)) r in
  pairwise_distinct out
  /\ (forall y, In y out ->
        In y r /\ is_NaN y = false /\ forall z, In z seen -> strict_equals z y = false)
  /\ (forall x, In x r -> is_NaN x = false ->
        (exists z, In z seen /\ strict_equals z x = true) \/
        (exists y, In y out /\ strict_equals y x = true)).
Proof.
  induction r as [|x r IH]; intro seen.
  - simpl. split; [constructor|]. split; [intros y []|intros x []].
  - cbn [filter_from]. rewrite first_occurrence_test.
    specialize (IH (seen ++ [x])).
    rewrite <- app_assoc, length_app in IH. cbn [List.length app] in IH.
    replace (Z.of_nat (List.length seen + 1)) with (Z.of_nat (List.length seen) + 1) in IH by lia.
    cbv zeta in IH. destruct IH as [Hp [Hk Hc]].
    set (out' := filter_from (Z.of_nat (List.length seen) + 1)
                   (fun v i => first_occurrence v i (seen ++ x :: r)) r) in *.
    assert (Hcover : forall x0, In x0 r -> is_NaN x0 = false ->
              (exists z, In z seen /\ strict_equals z x0 = true) \/
              strict_equals x x0 = true \/
              (exists y, In y out' /\ strict_equals y x0 = true)).
    { intros x0 H0 Hn. destruct (Hc x0 H0 Hn) as [[z [Hz E]]|H]; [|right; right; exact H].
      apply in_app_or in Hz. destruct Hz as [Hz|[<-|[]]].
      - left. exists z. split; assumption.
      - right. left. exact E. }
    destruct (existsb (fun y => strict_equals y x) seen) eqn:E; simpl.
    + apply existsb_exists in E. destruct E as [z [Hz Ez]].
      split; [exact Hp|]. split.
      * intros y Hy. destruct (Hk y Hy) as [H1 [H2 H3]]. split; [right; exact H1|].
        split; [exact H2|]. intros z' Hz'. apply H3. apply in_or_app. left. exact Hz'.
      * intros x0 [<-|H0] Hn.
        -- left. exists z. split; assumption.
        -- destruct (Hcover x0 H0 Hn) as [H|[H|H]]; [left; exact H| |right; exact H].
           left. exists z. split; [exact Hz|]. apply (strict_equals_trans z x x0 Ez H).
    + assert (Hs : forall z, In z seen -> strict_equals z x = false).
      { intros z Hz. destruct (strict_equals z x) eqn:Ez; [|reflexivity].
        assert (existsb (fun y => strict_equals y x) seen = true)
          by (apply existsb_exists; exists z; split; assumption).
        congruence. }
      destruct (strict_equals x x) eqn:Ex.
      * split; [|split].
        -- constructor; [|exact Hp]. apply Forall_forall. intros y Hy.
           destruct (Hk y Hy) as [_ [_ H3]]. apply H3. apply in_or_app. right. left. reflexivity.
        -- intros y [<-|Hy].
           ++ split; [left; reflexivity|]. split; [|exact Hs].
              apply strict_equals_not_NaN in Ex. apply Ex.
           ++ destruct (Hk y Hy) as [H1 [H2 H3]]. split; [right; exact H1|].
              split; [exact H2|]. intros z' Hz'. apply H3. apply in_or_app. left. exact Hz'.
        -- intros x0 [<-|H0] Hn.
           ++ right. exists x. split; [left; reflexivity|exact Ex].
           ++ destruct (Hcover x0 H0 Hn) as [H|[H|[y [Hy Ey]]]]; [left; exact H| |].
              ** right. exists x. split; [left; reflexivity|exact H].
              ** right. exists y. split; [right; exact Hy|exact Ey].
      * split; [exact Hp|]. split.
        -- intros y Hy. destruct (Hk y Hy) as [H1 [H2 H3]]. split; [right; exact H1|].
           split; [exact H2|]. intros z' Hz'. apply H3. apply in_or_app. left. exact Hz'.
        -- intros x0 [<-|H0] Hn.
           ++ rewrite strict_equals_refl, Hn in Ex. discriminate.
           ++ destruct (Hcover x0 H0 Hn) as [H|[H|H]]; [left; exact H| |right; exact H].
              apply strict_equals_not_NaN in H. destruct H as [H _].
              rewrite strict_equals_refl, H in Ex. discriminate.
Qed.

End Kept.

Section Values.

Import JS Notions Enum.

Variable W : Type.
Variable call : fn -> object -> W -> value * W.

Lemma hasValue_resolved (e : object) (v : value) (w : W) :
  fst (hasValue W call e v w) = true <->
  exists x, In x (fst (resolved W call e w)) /\ strict_equals x v = true.
Proof.
  unfold hasValue, values. destruct (resolved W call e w) as [s w1]. simpl.
  destruct (filter_first_occurrence_kept s []) as [_ [Hk Hc]]. simpl in Hk, Hc.
  unfold Array_includes. rewrite existsb_exists. split.
  - intros [x [Hx E]]. destruct (Hk x Hx) as [H1 [H2 _]].
    rewrite (same_value_zero_strict x v H2) in E. exists x. split; assumption.
  - intros [x [Hx E]]. pose proof (strict_equals_not_NaN x v E) as [Hn _].
    destruct (Hc x Hx Hn) as [[z [[] _]]|[y [Hy Ey]]].
    exists y. split; [exact Hy|].
    destruct (Hk y Hy) as [_ [H2 _]]. rewrite (same_value_zero_strict y v H2).
    apply (strict_equals_trans y x v Ey E).
Qed.

End Values.

(** ** Enumerations as built *)

Section Built.

Import JS Notions Enum.

Variable constantCase : string -> string.
Variable getTypeName : enums -> string.
Variable W : Type.
Variable call : fn -> object -> W -> value * W.

(** The own keys of an instance are the declared keys. *)
Lemma own_keys_declared (e0 : enums) (auto : option bool) (c : counter) (s : cstate) :
  new_Enum constantCase getTypeName e0 auto c = (Normal tt, s) ->
  NoDup (declared_keys constantCase e0 auto)
  /\ (forall k, In k (map fst (properties (this s))) <->
                In k (declared_keys constantCase e0 auto))
  /\ (forall k p, In (k, p) (properties (this s)) -> prop_enumerable p = true).
Proof.
  intro H. destruct e0 as [rows|entries].
  - destruct (default false auto) eqn:Ha.
    + destruct auto as [[|]|]; try discriminate. unfold declared_keys. simpl.
      apply new_Enum_auto in H. destruct H as [_ [_ [Hk [_ Hm]]]].
      split; [apply first_occurrences_NoDup|]. split.
      * intro k. rewrite Hk. tauto.
      * intros k p Hin. destruct (Hm k p Hin) as [r [_ [_ ->]]]. reflexivity.
    + unfold declared_keys. rewrite Ha.
      apply (new_Enum_iota _ _ _ _ _ _ Ha) in H. destruct H as [Ht [_ Hn]].
      split; [exact Hn|]. rewrite Ht. simpl. split.
      * intro k. rewrite numbered_keys. tauto.
      * intros k p Hin. apply numbered_In in Hin. destruct Hin as [i [_ ->]]. reflexivity.
  - destruct (default false auto) eqn:Ha.
    + unfold new_Enum, constructor in H. rewrite Ha in H. discriminate.
    + rewrite (new_Enum_mapping constantCase getTypeName entries auto c Ha) in H.
      inversion H; subst. unfold declared_keys. simpl.
      split; [apply first_occurrences_NoDup|]. split.
      * intro k. rewrite members_keys, literal_keys. apply key_order_In.
      * intros k p Hin. apply in_map_iff in Hin. destruct Hin as [k' [E _]].
        inversion E; subst. destruct (entry (object_literal entries) k); reflexivity.
Qed.

(** Every key of an enumeration built from an array is a fixed member. *)
Lemma array_built_fixed (rows : list string) (auto : option bool) (c : counter) (s : cstate) :
  new_Enum constantCase getTypeName (EArray rows) auto c = (Normal tt, s) ->
  forall k, In k (keys (this s)) -> exists v, GetOwnProperty (this s) k = Some (fixed_member v).
Proof.
  intros H k Hk.
  rewrite (keys_declared constantCase getTypeName _ _ _ _ H) in Hk.
  apply (proj1 (key_order_In _ _)) in Hk. unfold declared_keys in Hk.
  destruct (default false auto) eqn:Ha.
  - destruct auto as [[|]|]; try discriminate.
    apply first_occurrences_In, in_map_iff in Hk. destruct Hk as [row [<- Hr]].
    apply new_Enum_auto in H. destruct H as [_ [_ [_ [Hm _]]]].
    eexists. apply Hm. exact Hr.
  - apply (new_Enum_iota _ _ _ _ _ _ Ha) in H. destruct H as [Ht [_ Hn]].
    apply In_nth_error in Hk. destruct Hk as [i Hi].
    eexists. rewrite Ht. unfold GetOwnProperty. simpl.
    apply (numbered_lookup rows _ i k Hn Hi).
Qed.

(** What the queries resolve on such an enumeration: the stored values,
    with the state untouched. *)
Lemma array_built_resolved (rows : list string) (auto : option bool) (c : counter)
    (s : cstate) (w : W) :
  new_Enum constantCase getTypeName (EArray rows) auto c = (Normal tt, s) ->
  resolved W call (this s) w =
  (map (fun k => match GetOwnProperty (this s) k with
                 | Some (DataProperty v _ _ _) => v
                 | _ => VUndefined
                 end) (keys (this s)), w).
Proof.
  intro H. unfold resolved. apply Array_map_fixed. apply (array_built_fixed _ _ _ _ H).
Qed.

(** On an object whose keys are fixed members with values that are
    pairwise not strictly equal, [findForValue] sends the value of a key
    back to the key. *)
Lemma fixed_findForValue (e : object) (w : W) :
  (forall k, In k (keys e) -> exists v, GetOwnProperty e k = Some (fixed_member v)) ->
  NoDup (keys e) ->
  (forall k1 k2 v1 v2, In k1 (keys e) -> In k2 (keys e) -> k1 <> k2 ->
     GetOwnProperty e k1 = Some (fixed_member v1) ->
     GetOwnProperty e k2 = Some (fixed_member v2) -> strict_equals v1 v2 = false) ->
  forall k v, In k (keys e) -> GetOwnProperty e k = Some (fixed_member v) ->
    is_NaN v = false -> findForValue W call e v w = (VString k, w).
Proof.
  intros Hfix Hnd Hdist k v Hk G Hn.
  destruct (findForValue_spec W call e v w) as [Hw [Hf _]].
  assert (Hres : resolved W call e w =
                 (map (fun k => match GetOwnProperty e k with
                                | Some (DataProperty v _ _ _) => v
                                | _ => VUndefined
                                end) (keys e), w)).
  { unfold resolved. apply Array_map_fixed. exact Hfix. }
  rewrite Hres in Hw, Hf. simpl in Hw, Hf.
  apply injective_projections; [|exact Hw]. simpl. apply Hf.
  destruct (In_nth_error _ _ Hk) as [n Hnth]. exists n, v. split; [exact Hnth|].
  split; [|split].
  - rewrite nth_error_map, Hnth. simpl. rewrite G. reflexivity.
  - rewrite strict_equals_refl, Hn. reflexivity.
  - intros m y Hm Hy. rewrite nth_error_map in Hy.
    destruct (nth_error (keys e) m) as [k'|] eqn:Hk'; [|discriminate].
    simpl in Hy. injection Hy as Hy. subst y.
    assert (Hne : k' <> k).
    { intros ->. assert (m = n); [|lia].
      apply (proj1 (NoDup_nth_error (keys e)) Hnd m n);
        [apply nth_error_Some; congruence|congruence]. }
    destruct (Hfix k' (nth_error_In _ _ Hk')) as [v' G'].
    rewrite G'. simpl.
    apply (Hdist k' k v' v (nth_error_In _ _ Hk') Hk Hne G' G).
Qed.

Lemma map_pairwise_distinct (g : string -> value) (ks : list string) :
  NoDup ks ->
  (forall k1 k2, In k1 ks -> In k2 ks -> k1 <> k2 -> strict_equals (g k1) (g k2) = false) ->
  pairwise_distinct (map g ks).
Proof.
  induction 1 as [|k ks Hk Hn IH]; intro Hd; simpl; constructor.
  - apply Forall_forall. intros y Hy. apply in_map_iff in Hy. destruct Hy as [k' [<- Hk']].
    apply Hd; [left; reflexivity|right; exact Hk'|]. intros ->. contradiction.
  - apply IH. intros k1 k2 H1 H2. apply Hd; right; assumption.
Qed.

(** Auto mode, read back.  [findForValue] sends every input string to its
    normalized key, and [hasValue] accepts exactly the input strings. *)
Theorem auto_values_read_back
    (rows : list string) (c : counter) (s : cstate) (w : W) :
  new_Enum constantCase getTypeName (EArray rows) (Some true) c = (Normal tt, s) ->
  (forall row, In row rows ->
     findForValue W call (this s) (VString row) w = (VString (constantCase row), w))
  /\ (forall v, fst (hasValue W call (this s) v w) = true <->
                exists row, In row rows /\ v = VString row).
Proof.
  intro H.
  pose proof (keys_declared constantCase getTypeName _ _ _ _ H) as Hk.
  unfold declared_keys in Hk. simpl in Hk.
  pose proof (array_built_fixed _ _ _ _ H) as Hfix.
  pose proof (array_built_resolved rows (Some true) c s w H) as Hres.
  destruct (new_Enum_auto constantCase getTypeName rows c s H) as [_ [_ [_ [Hr _]]]].
  assert (Hin : forall k, In k (keys (this s)) <-> exists row, In row rows /\ k = constantCase row).
  { intro k. rewrite Hk, key_order_In, first_occurrences_In, in_map_iff.
    split; intros [r [H1 H2]]; exists r; split; auto. }
  assert (Hnd : NoDup (keys (this s))).
  { rewrite Hk. apply key_order_NoDup, first_occurrences_NoDup. }
  split.
  - intros row Hrow. apply (fixed_findForValue (this s) w Hfix Hnd).
    + intros k1 k2 v1 v2 H1 H2 Hne G1 G2.
      apply Hin in H1. destruct H1 as [r1 [Hr1 ->]].
      apply Hin in H2. destruct H2 as [r2 [Hr2 ->]].
      rewrite (Hr r1 Hr1) in G1. rewrite (Hr r2 Hr2) in G2.
      inversion G1; inversion G2; subst. unfold strict_equals. simpl.
      apply String.eqb_neq. intros ->. apply Hne. reflexivity.
    + apply Hin. exists row. split; [exact Hrow|reflexivity].
    + apply Hr. exact Hrow.
    + reflexivity.
  - intro v. rewrite hasValue_resolved, Hres. simpl. split.
    + intros [x [Hx E]]. apply in_map_iff in Hx. destruct Hx as [k [<- Hk']].
      apply Hin in Hk'. destruct Hk' as [r [Hr' ->]]. rewrite (Hr r Hr') in E. simpl in E.
      exists r. split; [exact Hr'|].
      destruct v; simpl in E; try discriminate. apply String.eqb_eq in E. congruence.
    + intros [r [Hr' ->]]. exists (VString r). split.
      * apply in_map_iff. exists (constantCase r). rewrite (Hr r Hr'). split; [reflexivity|].
        apply Hin. exists r. split; [exact Hr'|reflexivity].
      * unfold strict_equals. simpl. apply String.eqb_refl.
Qed.

End Built.

(** ** The counter, the mapping branch and the rendering *)

Section More.

Import JS Notions Enum.

Variable constantCase : string -> string.
Variable getTypeName : enums -> string.
Variable W : Type.
Variable call : fn -> object -> W -> value * W.

(** Only the iota branch uses the counter: a call with a mapping or with
    the auto flag leaves it as it is, whether it returns or throws, and a
    call in iota mode with at least one key moves it forward, whether it
    returns or throws. *)
Theorem only_iota_mode_moves_the_counter (e : enums) (auto : option bool) (c : counter) :
  (isArray e = false \/ default false auto = true ->
   __iota (snd (new_Enum constantCase getTypeName e auto c)) = c)
  /\ (forall k rest, e = EArray (k :: rest) -> default false auto = false ->
        counter_value c <
        counter_value (__iota (snd (new_Enum constantCase getTypeName e auto c)))).
Proof.
  split.
  - intro H. unfold new_Enum, constructor.
    destruct (default false auto && negb (isArray e)) eqn:G; [reflexivity|].
    destruct e as [rows|entries].
    + destruct H as [H|H]; [discriminate|]. rewrite H.
      pose proof (auto_loop_counter constantCase rows {| this := empty_object; __iota := c |}) as Hc.
      destruct (auto_loop constantCase rows _) as [[[]|x] s1]; simpl in *; exact Hc.
    + pose proof (mapping_loop_counter (object_literal entries)
                    (Object_keys (object_literal entries))
                    {| this := empty_object; __iota := c |}) as Hc.
      destruct (mapping_loop _ _ _) as [[[]|x] s1]; simpl in *; exact Hc.
  - intros k rest -> Ha. unfold new_Enum, constructor. rewrite Ha. simpl andb. cbv iota.
    cbn [iota_loop]. rewrite _iota_value. cbn [this __iota].
    destruct (Object_defineProperty empty_object k _) as [o|x].
    + pose proof (iota_loop_counter rest {| this := o; __iota := Some (counter_value c + 1) |})
        as Hc.
      destruct (iota_loop rest _) as [[[]|x] s1]; simpl in *; lia.
    + simpl. lia.
Qed.

Lemma lookup_replace (k k' : string) (p : property) (ps : list (string * property)) :
  lookup k' (replace k p ps) =
  if String.eqb k' k then option_map (fun _ => p) (lookup k ps) else lookup k' ps.
Proof.
  induction ps as [|[k0 p0] ps IH]; simpl.
  - destruct (String.eqb k' k); reflexivity.
  - destruct (String.eqb k k0) eqn:E; simpl.
    + apply String.eqb_eq in E. subst k0.
      destruct (String.eqb k' k); reflexivity.
    + destruct (String.eqb k' k0) eqn:E'.
      * apply String.eqb_eq in E'. subst k0.
        rewrite String.eqb_sym, E. reflexivity.
      * exact IH.
Qed.

Lemma create_lookup (o : object) (k k' : string) (v : value) :
  lookup k (properties (CreateDataProperty o k' v)) =
  if String.eqb k k' then Some (DataProperty v true true true) else lookup k (properties o).
Proof.
  unfold CreateDataProperty, GetOwnProperty.
  destruct (lookup k' (properties o)) as [p|] eqn:G; simpl.
  - rewrite lookup_replace, G. reflexivity.
  - rewrite lookup_app. destruct (String.eqb k k') eqn:E.
    + apply String.eqb_eq in E. subst. rewrite G. simpl. rewrite String.eqb_refl. reflexivity.
    + destruct (lookup k (properties o)); [reflexivity|]. simpl. rewrite E. reflexivity.
Qed.

(** In an object literal the last entry of a key gives its value. *)
Lemma literal_lookup (entries : list (string * value)) (k : string) : forall o : object,
  lookup k (properties
              (fold_left (fun o kv => CreateDataProperty o (fst kv) (snd kv)) entries o)) =
  match last_value k entries with
  | Some v => Some (DataProperty v true true true)
  | None => lookup k (properties o)
  end.
Proof.
  induction entries as [|[k' v] r IH]; intro o; simpl; [reflexivity|].
  rewrite IH. destruct (last_value k r); [reflexivity|].
  rewrite create_lookup. destruct (String.eqb k k'); reflexivity.
Qed.

Lemma last_value_In (entries : list (string * value)) (k : string) :
  last_value k entries <> None <-> In k (map fst entries).
Proof.
  induction entries as [|[k' v] r IH]; simpl; [tauto|].
  destruct (last_value k r) eqn:E.
  - split; [intros _; right; apply IH; discriminate|discriminate].
  - destruct (String.eqb k k') eqn:E'.
    + apply String.eqb_eq in E'. subst. split; [intros _; left; reflexivity|discriminate].
    + apply String.eqb_neq in E'. split; [congruence|].
      intros [->|H]; [congruence|]. apply IH in H. congruence.
Qed.

(** Without the auto flag, construction from a mapping always returns and
    leaves the counter as it is.  A key given several times in the mapping
    is one key, with the value of its last entry: a computed member when
    that value is a function, a fixed member holding it otherwise.  The
    instance has no other key. *)
Theorem mapping_construction_returns
    (entries : list (string * value)) (auto : option bool) (c : counter) :
  default false auto = false ->
  exists s,
    new_Enum constantCase getTypeName (EMapping entries) auto c = (Normal tt, s)
    /\ __iota s = c
    /\ (forall k v, last_value k entries = Some v ->
          GetOwnProperty (this s) k = Some (member_of v))
    /\ (forall k, last_value k entries = None -> GetOwnProperty (this s) k = None).
Proof.
  intro Ha. eexists. split; [apply (new_Enum_mapping _ _ _ _ _ Ha)|].
  cbn [this __iota]. split; [reflexivity|].
  assert (Hin : forall k, In k (Object_keys (object_literal entries)) <->
                          last_value k entries <> None).
  { intro k. rewrite literal_keys, key_order_In, first_occurrences_In. symmetry.
    apply last_value_In. }
  split.
  - intros k v Hv. unfold GetOwnProperty. cbn [properties].
    rewrite (lookup_members (fun k => member_of (entry (object_literal entries) k))).
    + unfold entry, GetOwnProperty, object_literal. rewrite literal_lookup, Hv. reflexivity.
    + apply Hin. congruence.
  - intros k Hv. unfold GetOwnProperty. cbn [properties]. apply lookup_None.
    rewrite members_keys. intro Hk. apply Hin in Hk. contradiction.
Qed.

End More.

Lemma auto_read_back_example :
  Enum.findForValue Z Sample.call
    (Enum.this (snd (Enum.new_Enum Sample.constantCase Sample.getTypeName
                       (Enum.EArray ["italic"; "bold"]%string) (Some true) None)))
    (JS.VString "bold") 0
  = (JS.VString "BOLD", 0).
Proof.
  apply (proj1 (auto_values_read_back Sample.constantCase Sample.getTypeName Z Sample.call
                  ["italic"; "bold"]%string None _ 0 eq_refl) "bold"%string).
  right. left. reflexivity.
Defined.

Lemma counter_example :
  Enum.__iota (snd (Enum.new_Enum Sample.constantCase Sample.getTypeName
                      Sample.answers None (Some 4))) = Some 4.
Proof.
  apply (proj1 (only_iota_mode_moves_the_counter Sample.constantCase Sample.getTypeName
                  Sample.answers None (Some 4))).
  left. reflexivity.
Defined.

Lemma mapping_last_entry_example :
  exists s,
    Enum.new_Enum Sample.constantCase Sample.getTypeName
      (Enum.EMapping [("A"%string, JS.VNumber (JS.Int 1)); ("A"%string, JS.VFunction 0%nat)])
      None None = (JS.Normal tt, s)
    /\ JS.GetOwnProperty (Enum.this s) "A" = Some (Notions.computed_member 0%nat).
Proof.
  destruct (mapping_construction_returns Sample.constantCase Sample.getTypeName
              [("A"%string, JS.VNumber (JS.Int 1)); ("A"%string, JS.VFunction 0%nat)]
              None None eq_refl) as [s [H [_ [Hv _]]]].
  exists s. split; [exact H|]. apply (Hv "A"%string (JS.VFunction 0%nat)). reflexivity.
Defined.

(** ** The queries on instances as built *)

Section Bridge.

Import JS Notions Enum Prototype.

(** [includes] on what the filter of [values()] keeps finds the values
    strictly equal to an element of the filtered array. *)
Lemma includes_first_occurrences (r : list value) (v : value) :
  Array_includes (Array_filter first_occurrence r) v = true <->
  exists x, In x r /\ strict_equals x v = true.
Proof.
  destruct (filter_first_occurrence_kept r []) as [_ [Hk Hc]]. simpl in Hk, Hc.
  unfold Array_includes. rewrite existsb_exists. split.
  - intros [x [Hx E]]. destruct (Hk x Hx) as [H1 [H2 _]].
    rewrite (same_value_zero_strict x v H2) in E. exists x. split; assumption.
  - intros [x [Hx E]]. pose proof (strict_equals_not_NaN x v E) as [Hn _].
    destruct (Hc x Hx Hn) as [[z [[] _]]|[y [Hy Ey]]].
    exists y. split; [exact Hy|].
    destruct (Hk y Hy) as [_ [H2 _]]. rewrite (same_value_zero_strict y v H2).
    apply (strict_equals_trans y x v Ey E).
Qed.







Variable W : Type.
Variable invoke : fn -> object -> W -> completion value * W.



(** Fixed members are read to the end, in any state, and the state stays
    as it is. *)
Lemma reads_fixed (e : object) (ks : list string) (w : W) :
  (forall k, In k ks -> exists v, GetOwnProperty e k = Some (fixed_member v)) ->
  reads W invoke e ks w
    (map (fun k => match GetOwnProperty e k with
                   | Some (DataProperty v _ _ _) => v
                   | _ => VUndefined
                   end) ks) w.
Proof.
  induction ks as [|k ks IH]; intro H; simpl; [constructor|].
  destruct (H k (or_introl eq_refl)) as [v G].
  apply (reads_cons W invoke e k ks w w w).
  - rewrite G. simpl. apply read_fixed. exact G.
  - apply IH. intros k' Hk'. apply H. right. exact Hk'.
Qed.

Lemma hasValue_reads (e : object) (v : value) (w w1 : W) (r : list value) :
  GetOwnProperty e "keys" = None ->
  GetOwnProperty e "values" = None ->
  reads W invoke e (Object_keys e) w r w1 ->
  hasValue W invoke v e w
  = (Returns (Array_includes (Array_filter first_occurrence r) v), w1).
Proof.
  intros Hk Hv Hr. unfold hasValue, bind.
  rewrite (call_method_absent W invoke _ _ _ _ Hv), (values_reads W invoke _ _ _ _ Hk Hr).
  reflexivity.
Qed.

Lemma hasValue_throws (e : object) (v : value) (w w1 : W) (x : exn) :
  GetOwnProperty e "keys" = None ->
  GetOwnProperty e "values" = None ->
  reads_throw W invoke e (Object_keys e) w x w1 ->
  hasValue W invoke v e w = (Throws x, w1).
Proof.
  intros Hk Hv Hr. unfold hasValue, bind.
  rewrite (call_method_absent W invoke _ _ _ _ Hv), (values_throws W invoke _ _ _ _ Hk Hr).
  reflexivity.
Qed.

Lemma hasKey_keys (e : object) (name : value) (w : W) :
  GetOwnProperty e "keys" = None ->
  hasKey W invoke name e w = (Returns (Array_includes (map VString (Object_keys e)) name), w).
Proof.
  intro Hk. unfold hasKey, bind. rewrite (keys_call W invoke e w Hk). reflexivity.
Qed.

Variable call : fn -> object -> W -> value * W.

(** On an instance whose members are all fixed, with no member named
    [keys] or [values], the methods return what the bodies in [Enum]
    give. *)
Lemma values_fixed (e : object) (w : W) :
  (forall k, In k (Object_keys e) -> exists v, GetOwnProperty e k = Some (fixed_member v)) ->
  GetOwnProperty e "keys" = None ->
  Prototype.values W invoke e w = (Returns (fst (Enum.values W call e w)), w).
Proof.
  intros Hfix Hk. rewrite (values_reads W invoke e w w _ Hk (reads_fixed e _ w Hfix)).
  unfold Enum.values, resolved, Enum.keys. rewrite (Array_map_fixed W call e _ w Hfix).
  reflexivity.
Qed.

Lemma hasValue_fixed (e : object) (v : value) (w : W) :
  (forall k, In k (Object_keys e) -> exists v, GetOwnProperty e k = Some (fixed_member v)) ->
  GetOwnProperty e "keys" = None ->
  GetOwnProperty e "values" = None ->
  Prototype.hasValue W invoke v e w = (Returns (fst (Enum.hasValue W call e v w)), w).
Proof.
  intros Hfix Hk Hv. rewrite (hasValue_reads e v w w _ Hk Hv (reads_fixed e _ w Hfix)).
  unfold Enum.hasValue, Enum.values, resolved, Enum.keys.
  rewrite (Array_map_fixed W call e _ w Hfix). reflexivity.
Qed.

Lemma findForValue_fixed (e : object) (v : value) (w : W) :
  (forall k, In k (Object_keys e) -> exists v, GetOwnProperty e k = Some (fixed_member v)) ->
  GetOwnProperty e "keys" = None ->
  Prototype.findForValue W invoke v e w
  = (Returns (fst (Enum.findForValue W call e v w)), w).
Proof.
  intros Hfix Hk.
  rewrite (findForValue_reads W invoke e v w w _ Hk (reads_fixed e _ w Hfix)).
  unfold Enum.findForValue, resolved, Enum.keys.
  rewrite (Array_map_fixed W call e _ w Hfix). reflexivity.
Qed.

(** In a program whose functions all return, on an instance with no
    member named [keys] or [values], the methods return what the bodies
    in [Enum] give. *)
Lemma Get_total (e : object) (k : string) (w : W) :
  GetOwnProperty e k <> None ->
  Prototype.Get W (returning W call) e k w
  = (Returns (fst (JS.Get W call e k w)), snd (JS.Get W call e k w)).
Proof.
  intro H. unfold Prototype.Get, JS.Get, returning.
  destruct (GetOwnProperty e k) as [[u wr en cf|[g|] st en cf]|]; try reflexivity.
  - destruct (call g e w) as [u w1]. reflexivity.
  - congruence.
Qed.

Lemma Array_map_total (e : object) (ks : list string) : forall w : W,
  (forall k, In k ks -> GetOwnProperty e k <> None) ->
  Prototype.Array_map W (fun key => Prototype.Get W (returning W call) e key) ks w
  = (Returns (fst (JS.Array_map W (fun key => JS.Get W call e key) ks w)),
     snd (JS.Array_map W (fun key => JS.Get W call e key) ks w)).
Proof.
  induction ks as [|k ks IH]; intros w H; [reflexivity|].
  cbn [Prototype.Array_map JS.Array_map]. unfold bind at 1.
  rewrite (Get_total e k w (H k (or_introl eq_refl))).
  destruct (JS.Get W call e k w) as [u w1]. cbn [fst snd]. unfold bind at 1.
  rewrite (IH w1) by (intros k' Hk'; apply H; right; exact Hk').
  destruct (JS.Array_map W (fun key => JS.Get W call e key) ks w1) as [us w2].
  reflexivity.
Qed.

Lemma Object_keys_present (e : object) (k : string) :
  In k (Object_keys e) -> GetOwnProperty e k <> None.
Proof. intro H. destruct (Object_keys_own e k H) as [p ->]. discriminate. Qed.

Lemma Prototype_values_total (e : object) (w : W) :
  GetOwnProperty e "keys" = None ->
  Prototype.values W (returning W call) e w
  = (Returns (fst (Enum.values W call e w)), snd (Enum.values W call e w)).
Proof.
  intro Hk. unfold Prototype.values. unfold bind at 1.
  rewrite (keys_call W (returning W call) e w Hk). unfold bind at 1.
  rewrite (Array_map_total e _ w (Object_keys_present e)).
  unfold Enum.values, resolved, Enum.keys.
  destruct (JS.Array_map W (fun key => JS.Get W call e key) (Object_keys e) w) as [us w1].
  reflexivity.
Qed.

Lemma Prototype_hasValue_total (e : object) (v : value) (w : W) :
  GetOwnProperty e "keys" = None ->
  GetOwnProperty e "values" = None ->
  Prototype.hasValue W (returning W call) v e w
  = (Returns (fst (Enum.hasValue W call e v w)), snd (Enum.hasValue W call e v w)).
Proof.
  intros Hk Hv. unfold Prototype.hasValue, bind.
  rewrite (call_method_absent W (returning W call) _ _ _ _ Hv), (Prototype_values_total e w Hk).
  unfold Enum.hasValue. destruct (Enum.values W call e w) as [us w1]. reflexivity.
Qed.

Lemma Prototype_findForValue_total (e : object) (v : value) (w : W) :
  GetOwnProperty e "keys" = None ->
  Prototype.findForValue W (returning W call) v e w
  = (Returns (fst (Enum.findForValue W call e v w)), snd (Enum.findForValue W call e v w)).
Proof.
  intro Hk. unfold Prototype.findForValue. unfold bind at 1.
  rewrite (keys_call W (returning W call) e w Hk). unfold bind at 1.
  rewrite (Array_map_total e _ w (Object_keys_present e)).
  unfold Enum.findForValue, resolved, Enum.keys.
  destruct (JS.Array_map W (fun key => JS.Get W call e key) (Object_keys e) w) as [us w1].
  cbn [fst snd]. unfold bind at 1. rewrite (keys_call W (returning W call) e w1 Hk).
  reflexivity.
Qed.

End Bridge.

Section Answers.

Import JS Notions Enum Prototype.

Variable W : Type.
Variable invoke : fn -> object -> W -> completion value * W.
Variable constantCase : string -> string.
Variable getTypeName : enums -> string.

(** On an instance with no member named [keys] or [hasKey], [hasKey(name)]
    returns, leaves the state as it is, and is true exactly when [name] is
    a string that is one of [keys()]: it is false for every name that is
    not a string, a number included, whatever the keys are. *)
Theorem hasKey_iff_string_key
    (e0 : enums) (auto : option bool) (c : counter) (s : cstate) (name : value) (w : W) :
  new_Enum constantCase getTypeName e0 auto c = (Normal tt, s) ->
  GetOwnProperty (this s) "keys" = None ->
  GetOwnProperty (this s) "hasKey" = None ->
  exists ks b,
    call_method W invoke "keys" (keys W) (this s) w = (Returns ks, w)
    /\ call_method W invoke "hasKey" (hasKey W invoke name) (this s) w = (Returns b, w)
    /\ (b = true <-> exists k, name = VString k /\ In k ks)
    /\ (type_of name <> TString -> b = false).
Proof.
  intros _. generalize (this s). intros e Hk Hh.
  exists (Object_keys e), (Array_includes (map VString (Object_keys e)) name).
  split; [apply keys_call; exact Hk|]. split.
  { rewrite (call_method_absent W invoke _ _ _ _ Hh). apply hasKey_keys. exact Hk. }
  assert (H : Array_includes (map VString (Object_keys e)) name = true <->
              exists k, name = VString k /\ In k (Object_keys e)).
  { unfold Array_includes. rewrite existsb_exists. split.
    - intros [x [Hx E]]. apply in_map_iff in Hx. destruct Hx as [k [<- Hin]].
      exists k. split; [|exact Hin].
      destruct name; simpl in E; try discriminate.
      apply String.eqb_eq in E. congruence.
    - intros [k [-> Hin]]. exists (VString k). split; [apply in_map; exact Hin|].
      unfold same_value_zero. simpl. apply String.eqb_refl. }
  split; [exact H|].
  intro Ht. destruct (Array_includes (map VString (Object_keys e)) name); [|reflexivity].
  destruct (proj1 H eq_refl) as [k [-> _]]. exfalso. apply Ht. reflexivity.
Qed.

(** On an instance with no member named [keys] or [values] whose members
    are read without an exception, [values()] returns values read only,
    never [NaN] and never two values that are strictly equal, and it loses
    nothing else: every value read that is not [NaN] is strictly equal to
    one of the values returned. *)
Theorem values_are_distinct_and_cover
    (e0 : enums) (auto : option bool) (c : counter) (s : cstate)
    (w w1 : W) (r : list value) :
  new_Enum constantCase getTypeName e0 auto c = (Normal tt, s) ->
  GetOwnProperty (this s) "keys" = None ->
  GetOwnProperty (this s) "values" = None ->
  reads W invoke (this s) (Object_keys (this s)) w r w1 ->
  exists vs,
    call_method W invoke "values" (values W invoke) (this s) w = (Returns vs, w1)
    /\ pairwise_distinct vs
    /\ (forall y, In y vs -> In y r /\ is_NaN y = false)
    /\ (forall x, In x r -> is_NaN x = false ->
          exists y, In y vs /\ strict_equals y x = true).
Proof.
  intros _. generalize (this s). intros e Hk Hv Hr.
  exists (Array_filter first_occurrence r).
  split.
  { rewrite (call_method_absent W invoke _ _ _ _ Hv). apply values_reads; assumption. }
  destruct (filter_first_occurrence_kept r []) as [Hp [Hin Hc]].
  split; [exact Hp|]. split.
  - intros y Hy. destruct (Hin y Hy) as [H1 [H2 _]]. split; assumption.
  - intros x Hx Hn. destruct (Hc x Hx Hn) as [[z [[] _]]|H]. exact H.
Qed.

(** On an instance with no member named like a method, from the same state,
    [hasValue(value)] is true exactly when [findForValue(value)] returns a
    key; the key it returns is one [hasKey] accepts, and the two calls
    leave the same state.  When the getter of a member throws, both throw
    the same exception. *)
Theorem hasValue_iff_findForValue_finds
    (e0 : enums) (auto : option bool) (c : counter) (s : cstate) (v : value) (w : W) :
  new_Enum constantCase getTypeName e0 auto c = (Normal tt, s) ->
  plain (this s) ->
  (forall r w1, reads W invoke (this s) (Object_keys (this s)) w r w1 ->
     exists b res,
       call_method W invoke "hasValue" (hasValue W invoke v) (this s) w = (Returns b, w1)
       /\ call_method W invoke "findForValue" (findForValue W invoke v) (this s) w
          = (Returns res, w1)
       /\ (b = true <-> exists k, res = VString k)
       /\ (b = false <-> res = VUndefined)
       /\ (forall k, res = VString k ->
             call_method W invoke "hasKey" (hasKey W invoke (VString k)) (this s) w1
             = (Returns true, w1)))
  /\ (forall x w1, reads_throw W invoke (this s) (Object_keys (this s)) w x w1 ->
        call_method W invoke "hasValue" (hasValue W invoke v) (this s) w = (Throws x, w1)
        /\ call_method W invoke "findForValue" (findForValue W invoke v) (this s) w
           = (Throws x, w1)).
Proof.
  intros _. generalize (this s). intros e Hp.
  assert (Hk : GetOwnProperty e "keys" = None) by (apply Hp; simpl; tauto).
  assert (Hv : GetOwnProperty e "values" = None) by (apply Hp; simpl; tauto).
  assert (Hhk : GetOwnProperty e "hasKey" = None) by (apply Hp; simpl; tauto).
  assert (Hhv : GetOwnProperty e "hasValue" = None) by (apply Hp; simpl; tauto).
  assert (Hf : GetOwnProperty e "findForValue" = None) by (apply Hp; simpl; tauto).
  rewrite (call_method_absent W invoke _ _ _ _ Hhv), (call_method_absent W invoke _ _ _ _ Hf).
  split.
  - intros r w1 Hr.
    rewrite (hasValue_reads W invoke e v w w1 r Hk Hv Hr),
            (findForValue_reads W invoke e v w w1 r Hk Hr).
    eexists. eexists. split; [reflexivity|]. split; [reflexivity|].
    pose proof (includes_first_occurrences r v) as Hh.
    destruct (first_match_spec (Object_keys e) r v (reads_length W invoke _ _ _ _ _ Hr))
      as [Hm [Hu Hd]].
    set (b := Array_includes (Array_filter first_occurrence r) v) in *.
    set (res := match Array_get (Object_keys e)
                        (Array_findIndex (fun x => strict_equals x v) r) with
                | Some k => VString k
                | None => VUndefined
                end) in *.
    assert (H1 : b = true <-> exists k, res = VString k).
    { rewrite Hh. split.
      - intros [x [Hx E]]. destruct Hd as [Hd|Hd]; [|exact Hd].
        rewrite ((proj1 Hu) Hd x Hx) in E. discriminate.
      - intros [k Hres]. apply Hm in Hres. destruct Hres as [n [x [_ [Hn [E _]]]]].
        exists x. split; [apply (nth_error_In _ _ Hn)|exact E]. }
    split; [exact H1|]. split.
    + split.
      * intro Hb. destruct Hd as [Hd|[k Hres]]; [exact Hd|].
        assert (b = true) by (apply H1; exists k; exact Hres). congruence.
      * intro Hres. destruct b eqn:Eb; [|reflexivity].
        destruct (proj1 H1 eq_refl) as [k Hk']. congruence.
    + intros k Hres. apply Hm in Hres. destruct Hres as [n [x [Hn _]]].
      rewrite (call_method_absent W invoke _ _ _ _ Hhk), (hasKey_keys W invoke e _ w1 Hk).
      f_equal. f_equal. unfold Array_includes. apply existsb_exists.
      exists (VString k). split.
      * apply in_map. apply (nth_error_In _ _ Hn).
      * unfold same_value_zero. simpl. apply String.eqb_refl.
  - intros x w1 Hr. split.
    + apply hasValue_throws; assumption.
    + apply findForValue_throws; assumption.
Qed.


(** A member named [keys] that is not a function breaks every query: on
    an instance that has one, the methods [values], [hasKey], [findForValue]
    and [toString] of the class throw the TypeError of the call
    [this.keys()], and so does [hasValue] when no member is named
    [values]; the state is left as it is. *)
Theorem member_named_keys_breaks_the_queries
    (e0 : enums) (auto : option bool) (c : counter) (s : cstate)
    (u v name : value) (w : W) :
  new_Enum constantCase getTypeName e0 auto c = (Normal tt, s) ->
  GetOwnProperty (this s) "keys" = Some (fixed_member u) ->
  is_function u = false ->
  exists m,
    call_method W invoke "keys" (keys W) (this s) w = (Throws (TypeError m), w)
    /\ values W invoke (this s) w = (Throws (TypeError m), w)
    /\ hasKey W invoke name (this s) w = (Throws (TypeError m), w)
    /\ findForValue W invoke v (this s) w = (Throws (TypeError m), w)
    /\ toString W invoke (this s) w = (Throws (TypeError m), w)
    /\ (GetOwnProperty (this s) "values" = None ->
        hasValue W invoke v (this s) w = (Throws (TypeError m), w)).
Proof.
  intros _. generalize (this s). intros e G Hf. exists ("this.keys is not a function"%string).
  pose proof (call_method_member W invoke "keys" (keys W) e u w G Hf) as E.
  simpl in E.
  assert (Ev : values W invoke e w = (Throws (TypeError "this.keys is not a function"), w)).
  { unfold values. unfold bind at 1. rewrite E. reflexivity. }
  split; [exact E|]. split; [exact Ev|]. split; [|split; [|split]].
  - unfold hasKey, bind. rewrite E. reflexivity.
  - unfold findForValue. unfold bind at 1. rewrite E. reflexivity.
  - unfold toString. unfold bind at 1. rewrite E. reflexivity.
  - intro Hv. unfold hasValue, bind.
    rewrite (call_method_absent W invoke _ _ _ _ Hv), Ev. reflexivity.
Qed.

(** On an instance with no member named [keys] or [hasKey], [keys()]
    lists every declared key once and nothing else: it is a rearrangement
    of the declared keys without repetition, a string is in it exactly
    when the instance has it as an own property, and [hasKey] accepts
    exactly the declared keys. *)
Theorem keys_are_the_declared_keys
    (e0 : enums) (auto : option bool) (c : counter) (s : cstate) (w : W) :
  new_Enum constantCase getTypeName e0 auto c = (Normal tt, s) ->
  GetOwnProperty (this s) "keys" = None ->
  GetOwnProperty (this s) "hasKey" = None ->
  exists ks,
    call_method W invoke "keys" (keys W) (this s) w = (Returns ks, w)
    /\ NoDup ks
    /\ Permutation ks (declared_keys constantCase e0 auto)
    /\ (forall k, In k ks <-> GetOwnProperty (this s) k <> None)
    /\ (forall k, exists b,
          call_method W invoke "hasKey" (hasKey W invoke (VString k)) (this s) w
          = (Returns b, w)
          /\ (b = true <-> In k (declared_keys constantCase e0 auto))).
Proof.
  intros H Hk Hh. exists (Object_keys (this s)).
  pose proof (keys_declared constantCase getTypeName _ _ _ _ H) as Hd.
  unfold Enum.keys in Hd.
  destruct (own_keys_declared constantCase getTypeName _ _ _ _ H) as [Hn [Ho _]].
  assert (Hin : forall k, In k (Object_keys (this s)) <->
                          In k (declared_keys constantCase e0 auto)).
  { intro k. rewrite Hd. apply key_order_In. }
  split; [apply keys_call; exact Hk|].
  split; [rewrite Hd; apply key_order_NoDup; exact Hn|].
  split; [rewrite Hd; apply key_order_perm|]. split.
  - intro k. rewrite Hin, <- Ho. unfold GetOwnProperty.
    pose proof (lookup_None k (properties (this s))) as Hl.
    destruct (lookup k (properties (this s))) as [p|] eqn:E.
    + split; [discriminate|]. intros _.
      destruct (in_dec string_dec k (map fst (properties (this s)))) as [Hi|Hi]; [exact Hi|].
      apply Hl in Hi. discriminate.
    + split; [|congruence]. intro Hi. exfalso. apply (proj1 Hl eq_refl Hi).
  - intro k. eexists. split.
    { rewrite (call_method_absent W invoke _ _ _ _ Hh). apply hasKey_keys. exact Hk. }
    rewrite <- Hin. unfold Array_includes. rewrite existsb_exists. split.
    + intros [x [Hx E]]. apply in_map_iff in Hx. destruct Hx as [k' [<- Hk']].
      simpl in E. apply String.eqb_eq in E. subst. exact Hk'.
    + intro Hk'. exists (VString k). split; [apply in_map; exact Hk'|].
      simpl. apply String.eqb_refl.
Qed.

(** An enumeration built from an array (iota or auto mode) has no computed
    member: when none of its keys is named like a method, [values()],
    [hasValue] and [findForValue] return, leave the state as it is and
    give the same answer in every state. *)
Theorem array_built_queries_are_pure
    (rows : list string) (auto : option bool) (c : counter) (s : cstate) (v : value) :
  new_Enum constantCase getTypeName (EArray rows) auto c = (Normal tt, s) ->
  plain (this s) ->
  (exists vs, forall w : W,
     call_method W invoke "values" (values W invoke) (this s) w = (Returns vs, w))
  /\ (exists b, forall w : W,
        call_method W invoke "hasValue" (hasValue W invoke v) (this s) w = (Returns b, w))
  /\ (exists res, forall w : W,
        call_method W invoke "findForValue" (findForValue W invoke v) (this s) w
        = (Returns res, w)).
Proof.
  intros H Hp.
  assert (Hk : GetOwnProperty (this s) "keys" = None) by (apply Hp; simpl; tauto).
  assert (Hv : GetOwnProperty (this s) "values" = None) by (apply Hp; simpl; tauto).
  assert (Hhv : GetOwnProperty (this s) "hasValue" = None) by (apply Hp; simpl; tauto).
  assert (Hf : GetOwnProperty (this s) "findForValue" = None) by (apply Hp; simpl; tauto).
  pose proof (array_built_fixed constantCase getTypeName _ _ _ _ H) as Hfix.
  unfold Enum.keys in Hfix.
  split; [|split]; eexists; intro w.
  - rewrite (call_method_absent W invoke _ _ _ _ Hv).
    apply (values_reads W invoke _ w w _ Hk (reads_fixed W invoke _ _ w Hfix)).
  - rewrite (call_method_absent W invoke _ _ _ _ Hhv).
    apply (hasValue_reads W invoke _ v w w _ Hk Hv (reads_fixed W invoke _ _ w Hfix)).
  - rewrite (call_method_absent W invoke _ _ _ _ Hf).
    apply (findForValue_reads W invoke _ v w w _ Hk (reads_fixed W invoke _ _ w Hfix)).
Qed.

(** Iota mode, read back, for an enumeration none of whose keys is named
    like a method, built in a process that has drawn fewer than 2^53
    numbers from the counter.  [findForValue] sends the number of every
    key back to that key; [hasValue] accepts exactly the integers from the
    counter at the call to the counter plus the number of keys, the last
    excluded; [values()] returns as many values as there are keys. *)
Theorem iota_values_read_back
    (rows : list string) (auto : option bool) (c : counter) (s : cstate) (w : W) :
  default false auto = false ->
  new_Enum constantCase getTypeName (EArray rows) auto c = (Normal tt, s) ->
  runs constantCase getTypeName None c ->
  counter_value c + Z.of_nat (List.length rows) <= 2 ^ 53 ->
  plain (this s) ->
  (forall i k, nth_error rows i = Some k ->
     call_method W invoke "findForValue"
       (findForValue W invoke (VNumber (Int (counter_value c + Z.of_nat i)))) (this s) w
     = (Returns (VString k), w))
  /\ (forall n, exists b,
        call_method W invoke "hasValue" (hasValue W invoke (VNumber (Int n))) (this s) w
        = (Returns b, w)
        /\ (b = true <->
            counter_value c <= n < counter_value c + Z.of_nat (List.length rows)))
  /\ (exists vs,
        call_method W invoke "values" (values W invoke) (this s) w = (Returns vs, w)
        /\ List.length vs = List.length rows).
Proof.
  intros Ha H _ _ Hp.
  assert (Hks : GetOwnProperty (this s) "keys" = None) by (apply Hp; simpl; tauto).
  assert (Hv : GetOwnProperty (this s) "values" = None) by (apply Hp; simpl; tauto).
  assert (Hhv : GetOwnProperty (this s) "hasValue" = None) by (apply Hp; simpl; tauto).
  assert (Hf : GetOwnProperty (this s) "findForValue" = None) by (apply Hp; simpl; tauto).
  pose (call := fun (_ : fn) (_ : object) (w0 : W) => (VUndefined, w0)).
  pose proof (keys_declared constantCase getTypeName _ _ _ _ H) as Hk.
  unfold declared_keys in Hk. rewrite Ha in Hk.
  pose proof (array_built_fixed constantCase getTypeName _ _ _ _ H) as Hfix.
  pose proof (array_built_resolved constantCase getTypeName W call rows auto c s w H) as Hres.
  destruct (new_Enum_iota constantCase getTypeName rows auto c s Ha H) as [Ht [_ Hn]].
  assert (Hin : forall k, In k (Enum.keys (this s)) <-> In k rows).
  { intro k. rewrite Hk. apply key_order_In. }
  assert (Hnd : NoDup (Enum.keys (this s))) by (rewrite Hk; apply key_order_NoDup; exact Hn).
  assert (Hval : forall i k, nth_error rows i = Some k ->
            GetOwnProperty (this s) k =
            Some (fixed_member (VNumber (Int (counter_value c + Z.of_nat i))))).
  { intros i k Hi. rewrite Ht. unfold GetOwnProperty. simpl.
    apply numbered_lookup; assumption. }
  assert (Hidx : forall k v, In k (Enum.keys (this s)) ->
            GetOwnProperty (this s) k = Some (fixed_member v) ->
            exists i, nth_error rows i = Some k /\
                      v = VNumber (Int (counter_value c + Z.of_nat i))).
  { intros k v Hk' G. apply Hin, In_nth_error in Hk'. destruct Hk' as [i Hi].
    exists i. split; [exact Hi|]. rewrite (Hval i k Hi) in G. inversion G. reflexivity. }
  assert (Hdist : forall k1 k2 v1 v2, In k1 (Enum.keys (this s)) ->
            In k2 (Enum.keys (this s)) ->
            k1 <> k2 -> GetOwnProperty (this s) k1 = Some (fixed_member v1) ->
            GetOwnProperty (this s) k2 = Some (fixed_member v2) ->
            strict_equals v1 v2 = false).
  { intros k1 k2 v1 v2 H1 H2 Hne G1 G2.
    destruct (Hidx k1 v1 H1 G1) as [i1 [Hi1 ->]].
    destruct (Hidx k2 v2 H2 G2) as [i2 [Hi2 ->]].
    unfold strict_equals. simpl. apply Z.eqb_neq. intro E.
    assert (i1 = i2) by lia. subst. congruence. }
  split; [|split].
  - intros i k Hi.
    rewrite (call_method_absent W invoke _ _ _ _ Hf),
            (findForValue_fixed W invoke call (this s) _ w Hfix Hks).
    rewrite (fixed_findForValue W call (this s) w Hfix Hnd Hdist k
               (VNumber (Int (counter_value c + Z.of_nat i)))).
    + reflexivity.
    + apply Hin. apply (nth_error_In _ _ Hi).
    + apply Hval. exact Hi.
    + reflexivity.
  - intro n. eexists. split.
    { rewrite (call_method_absent W invoke _ _ _ _ Hhv).
      apply (hasValue_fixed W invoke call (this s) _ w Hfix Hks Hv). }
    rewrite (hasValue_resolved W call), Hres. simpl. split.
    + intros [x [Hx E]]. apply in_map_iff in Hx. destruct Hx as [k [<- Hk']].
      destruct (Hfix k Hk') as [v G]. destruct (Hidx k v Hk' G) as [i [Hi ->]].
      rewrite G in E. simpl in E. unfold strict_equals in E. simpl in E.
      apply Z.eqb_eq in E. assert (i < List.length rows)%nat; [|lia].
      apply nth_error_Some. congruence.
    + intro Hr. set (i := Z.to_nat (n - counter_value c)).
      assert (Hi : (i < List.length rows)%nat) by (unfold i; lia).
      destruct (nth_error rows i) as [k|] eqn:Ek; [|apply nth_error_None in Ek; lia].
      exists (VNumber (Int n)). split.
      * apply in_map_iff. exists k. rewrite (Hval i k Ek). simpl.
        split; [unfold i; repeat (f_equal; try lia)|].
        apply Hin. apply (nth_error_In _ _ Ek).
      * unfold strict_equals. simpl. apply Z.eqb_refl.
  - eexists. split.
    { rewrite (call_method_absent W invoke _ _ _ _ Hv).
      apply (values_fixed W invoke call (this s) w Hfix Hks). }
    unfold Enum.values. rewrite Hres. cbn [fst].
    rewrite values_distinct.
    + rewrite (proj2 (distinct_all _)).
      * rewrite length_map, Hk. apply Permutation_length, key_order_perm.
      * apply map_pairwise_distinct; [exact Hnd|].
        intros k1 k2 H1 H2 Hne.
        destruct (Hfix k1 H1) as [v1 G1]. destruct (Hfix k2 H2) as [v2 G2].
        rewrite G1, G2. simpl. apply (Hdist k1 k2 v1 v2 H1 H2 Hne G1 G2).
    + intros x Hx. apply in_map_iff in Hx. destruct Hx as [k [<- Hk']].
      destruct (Hfix k Hk') as [v G]. destruct (Hidx k v Hk' G) as [i [_ ->]].
      rewrite G. reflexivity.
Qed.

(** The items of [toString()] on members numbered from [n] on, while the
    numbers stay below 2^53. *)
Lemma items_numbered (e : object) (rows : list string) (w : W) : forall n : Z,
  (forall i k, nth_error rows i = Some k ->
     GetOwnProperty e k = Some (fixed_member (VNumber (Int (n + Z.of_nat i))))) ->
  0 <= n -> n + Z.of_nat (List.length rows) <= 2 ^ 53 ->
  Array_map W (item W invoke e) rows w = (Returns (numbered_text n rows), w).
Proof.
  induction rows as [|k r IH]; intros n Hval H0 Hb; [reflexivity|].
  cbn [Array_map numbered_text]. cbn [List.length] in Hb.
  unfold bind at 1. unfold item at 1. unfold bind at 1. unfold Get.
  rewrite (Hval O k eq_refl). cbn [fixed_member]. rewrite Z.add_0_r.
  cbn [ToString Number_toString].
  destruct (Z.abs n <=? 2 ^ 53) eqn:E; [|apply Z.leb_gt in E; lia].
  destruct (n <? 0) eqn:E'; [apply Z.ltb_lt in E'; lia|].
  unfold bind at 1. rewrite (IH (n + 1)); [reflexivity| |lia|lia].
  intros i k' Hi. rewrite (Hval (S i) k' Hi). repeat (f_equal; try lia).
Qed.

(** [toString()] of an enumeration built in iota mode from keys none of
    which is an array index or named [keys] or [toString], in a process
    that has drawn fewer than 2^53 numbers from the counter: the items
    [key=number], numbered from the counter on in the order of the keys,
    separated by a comma and a space; the state is left as it is. *)
Theorem iota_toString
    (rows : list string) (auto : option bool) (c : counter) (s : cstate) (w : W) :
  default false auto = false ->
  new_Enum constantCase getTypeName (EArray rows) auto c = (Normal tt, s) ->
  runs constantCase getTypeName None c ->
  counter_value c + Z.of_nat (List.length rows) <= 2 ^ 53 ->
  (forall k, In k rows -> array_index k = None) ->
  GetOwnProperty (this s) "keys" = None ->
  GetOwnProperty (this s) "toString" = None ->
  call_method W invoke "toString" (toString W invoke) (this s) w
  = (Returns (String.concat ", " (numbered_text (counter_value c) rows)), w).
Proof.
  intros Ha H Hrun Hb Hno Hk Hts.
  pose proof (keys_declared constantCase getTypeName _ _ _ _ H) as Hd.
  unfold declared_keys, Enum.keys in Hd. rewrite Ha, (key_order_no_index rows Hno) in Hd.
  destruct (new_Enum_iota constantCase getTypeName rows auto c s Ha H) as [Ht [_ Hn]].
  pose proof (runs_counter constantCase getTypeName _ _ Hrun) as H0. simpl in H0.
  rewrite (call_method_absent W invoke _ _ _ _ Hts). unfold toString.
  unfold bind at 1. rewrite (keys_call W invoke _ w Hk), Hd.
  unfold bind at 1.
  rewrite (items_numbered (this s) rows w (counter_value c)); [reflexivity| |exact H0|exact Hb].
  intros i k Hi. rewrite Ht. unfold GetOwnProperty. simpl.
  apply numbered_lookup; assumption.
Qed.

End Answers.

(** The colours of the class documentation, built first in a process. *)
Lemma iota_colours_example :
  let r := Enum.new_Enum Sample.constantCase Sample.getTypeName
             (Enum.EArray ["RED"; "BLACK"; "GREEN"]%string) None None in
  Prototype.call_method Z Sample.invoke "findForValue"
    (Prototype.findForValue Z Sample.invoke (JS.VNumber (JS.Int 1))) (Enum.this (snd r)) 0
  = (Prototype.Returns (JS.VString "BLACK"), 0)
  /\ exists b,
       Prototype.call_method Z Sample.invoke "hasValue"
         (Prototype.hasValue Z Sample.invoke (JS.VNumber (JS.Int 3))) (Enum.this (snd r)) 0
       = (Prototype.Returns b, 0)
       /\ (b = true <-> 0 <= 3 < 3).
Proof.
  intro r.
  assert (Hp : Notions.plain (Enum.this (snd r))).
  { intros m Hm. repeat (destruct Hm as [<-|Hm]; [reflexivity|]). destruct Hm. }
  destruct (iota_values_read_back Z Sample.invoke Sample.constantCase Sample.getTypeName
              ["RED"; "BLACK"; "GREEN"]%string None None (snd r) 0 eq_refl eq_refl
              (Notions.runs_here _ _ None) ltac:(simpl; lia) Hp)
    as [Hf [Hh _]].
  split; [exact (Hf 1%nat "BLACK"%string eq_refl)|exact (Hh 3)].
Defined.

Lemma iota_colours_text_example :
  Prototype.call_method Z Sample.invoke "toString" (Prototype.toString Z Sample.invoke)
    (Enum.this (snd (Enum.new_Enum Sample.constantCase Sample.getTypeName
                       (Enum.EArray ["RED"; "BLACK"; "GREEN"]%string) None None))) 0
  = (Prototype.Returns "RED=0, BLACK=1, GREEN=2"%string, 0).
Proof.
  apply (iota_toString Z Sample.invoke Sample.constantCase Sample.getTypeName
           ["RED"; "BLACK"; "GREEN"]%string None None _ 0 eq_refl eq_refl
           (Notions.runs_here _ _ None)).
  - simpl. lia.
  - intros k Hk. repeat (destruct Hk as [<-|Hk]; [reflexivity|]). destruct Hk.
  - reflexivity.
  - reflexivity.
Defined.

(** The keys of the levels: a number is not a key, even the number a key
    holds. *)
Lemma levels_hasKey_example :
  let r := Enum.new_Enum Sample.constantCase Sample.getTypeName Sample.levels None None in
  exists ks b,
    Prototype.call_method Z Sample.invoke "keys" (Prototype.keys Z) (Enum.this (snd r)) 0
    = (Prototype.Returns ks, 0)
    /\ Prototype.call_method Z Sample.invoke "hasKey"
         (Prototype.hasKey Z Sample.invoke (JS.VNumber (JS.Int 1))) (Enum.this (snd r)) 0
       = (Prototype.Returns b, 0)
    /\ b = false.
Proof.
  intro r.
  destruct (hasKey_iff_string_key Z Sample.invoke Sample.constantCase Sample.getTypeName
              Sample.levels None None (snd r)
              (JS.VNumber (JS.Int 1)) 0 eq_refl eq_refl eq_refl) as [ks [b [Hk [Hb [_ Hn]]]]].
  exists ks, b. split; [exact Hk|]. split; [exact Hb|].
  apply Hn. discriminate.
Defined.

Lemma keys_example :
  let r := Enum.new_Enum Sample.constantCase Sample.getTypeName
             (Enum.EArray ["b"; "0"]%string) None None in
  exists ks,
    Prototype.call_method Z Sample.invoke "keys" (Prototype.keys Z) (Enum.this (snd r)) 0
    = (Prototype.Returns ks, 0)
    /\ Permutation ks ["b"; "0"]%string.
Proof.
  intro r.
  destruct (keys_are_the_declared_keys Z Sample.invoke Sample.constantCase Sample.getTypeName
              (Enum.EArray ["b"; "0"]%string) None None (snd r) 0 eq_refl eq_refl eq_refl)
    as [ks [Hk [_ [Hp _]]]].
  exists ks. split; [exact Hk|exact Hp].
Defined.

(** The values of the levels in the state 5 are pairwise distinct. *)
Lemma levels_distinct_example :
  let r := Enum.new_Enum Sample.constantCase Sample.getTypeName Sample.levels None None in
  exists vs,
    Prototype.call_method Z Sample.invoke "values" (Prototype.values Z Sample.invoke)
      (Enum.this (snd r)) 5
    = (Prototype.Returns vs, 6)
    /\ Notions.pairwise_distinct vs.
Proof.
  intro r.
  assert (Hr : Notions.reads Z Sample.invoke (Enum.this (snd r))
                 (JS.Object_keys (Enum.this (snd r)))
                 5 [JS.VNumber (JS.Int 1); JS.VNumber (JS.Int 2); JS.VNumber (JS.Int 1);
                    JS.VNumber (JS.Int 5)] 6).
  { apply (Notions.reads_cons Z Sample.invoke _ _ _ 5 5 6);
      [apply Notions.read_fixed; reflexivity|].
    apply (Notions.reads_cons Z Sample.invoke _ _ _ 5 5 6);
      [apply Notions.read_fixed; reflexivity|].
    apply (Notions.reads_cons Z Sample.invoke _ _ _ 5 5 6);
      [apply Notions.read_fixed; reflexivity|].
    apply (Notions.reads_cons Z Sample.invoke _ _ _ 5 6 6);
      [apply (Notions.read_computed Z Sample.invoke _ _ 0%nat); reflexivity|].
    apply Notions.reads_nil. }
  destruct (values_are_distinct_and_cover Z Sample.invoke
              Sample.constantCase Sample.getTypeName Sample.levels None None (snd r) 5 6 _
              eq_refl eq_refl eq_refl Hr) as [vs [E [Hd _]]].
  exists vs. split; [exact E|exact Hd].
Defined.

(** The levels with a member whose getter throws: both queries throw what
    the getter throws. *)
Lemma throwing_getter_example :
  let r := Enum.new_Enum Sample.constantCase Sample.getTypeName
             (Enum.EMapping [("LOW", JS.VNumber (JS.Int 1)); ("BAD", JS.VFunction 2%nat)]%string)
             None None in
  Prototype.call_method Z Sample.invoke "hasValue"
    (Prototype.hasValue Z Sample.invoke (JS.VNumber (JS.Int 1))) (Enum.this (snd r)) 0
  = (Prototype.Throws (JS.Thrown (JS.VString "boom")), 0)
  /\ Prototype.call_method Z Sample.invoke "findForValue"
       (Prototype.findForValue Z Sample.invoke (JS.VNumber (JS.Int 1))) (Enum.this (snd r)) 0
     = (Prototype.Throws (JS.Thrown (JS.VString "boom")), 0).
Proof.
  intro r.
  assert (Hp : Notions.plain (Enum.this (snd r))).
  { intros m Hm. repeat (destruct Hm as [<-|Hm]; [reflexivity|]). destruct Hm. }
  apply (proj2 (hasValue_iff_findForValue_finds Z Sample.invoke
                  Sample.constantCase Sample.getTypeName
                  (Enum.EMapping [("LOW", JS.VNumber (JS.Int 1));
                                  ("BAD", JS.VFunction 2%nat)]%string) None None (snd r)
                  (JS.VNumber (JS.Int 1)) 0 eq_refl Hp)).
  apply (Notions.throw_later Z Sample.invoke _ _ _ 0 0 0 (JS.VNumber (JS.Int 1)));
    [apply Notions.read_fixed; reflexivity|].
  apply Notions.throw_here. apply (Notions.read_computed Z Sample.invoke _ _ 2%nat); reflexivity.
Defined.


(** An enumeration with a key named [keys]: [findForValue] throws. *)
Lemma member_named_keys_example :
  let r := Enum.new_Enum Sample.constantCase Sample.getTypeName
             (Enum.EArray ["keys"; "A"]%string) None None in
  exists m,
    Prototype.findForValue Z Sample.invoke (JS.VNumber (JS.Int 1)) (Enum.this (snd r)) 0
    = (Prototype.Throws (JS.TypeError m), 0).
Proof.
  intro r.
  destruct (member_named_keys_breaks_the_queries Z Sample.invoke
              Sample.constantCase Sample.getTypeName
              (Enum.EArray ["keys"; "A"]%string) None None (snd r)
              (JS.VNumber (JS.Int 0)) (JS.VNumber (JS.Int 1)) JS.VUndefined 0
              eq_refl eq_refl eq_refl) as [m [_ [_ [_ [E _]]]]].
  exists m. exact E.
Defined.

Lemma pure_queries_example :
  let r := Enum.new_Enum Sample.constantCase Sample.getTypeName
             (Enum.EArray ["italic"; "bold"]%string) (Some true) None in
  exists vs, forall w : Z,
    Prototype.call_method Z Sample.invoke "values" (Prototype.values Z Sample.invoke)
      (Enum.this (snd r)) w
    = (Prototype.Returns vs, w).
Proof.
  intro r.
  assert (Hp : Notions.plain (Enum.this (snd r))).
  { intros m Hm. repeat (destruct Hm as [<-|Hm]; [reflexivity|]). destruct Hm. }
  apply (proj1 (array_built_queries_are_pure Z Sample.invoke
                  Sample.constantCase Sample.getTypeName
                  ["italic"; "bold"]%string (Some true) None (snd r) JS.VUndefined
                  eq_refl Hp)).
Defined.

(** ** More on the message *)

Section Targets.

Import JS Notions InvalidCommandError.
Local Open Scope string_scope.

Variable object_toString : value -> string.

(** [d2h] never returns fewer than two characters, whatever the number.  A
    negative integer is rendered as a minus sign and the hexadecimal digits
    of its absolute value, without a zero in front: the sign counts as a
    character. *)
Theorem d2h_at_least_two_characters (d : number) :
  (2 <= String.length (d2h d))%nat
  /\ (forall z, d = Int z -> (z < 0)%Z ->
        d2h d = "-" ++ hex_of_N (Z.to_N (- z))
        /\ hex_value (hex_of_N (Z.to_N (- z))) = Some (Z.to_N (- z))).
Proof.
  assert (Hneg : forall z, (z < 0)%Z -> d2h (Int z) = "-" ++ hex_of_N (Z.to_N (- z))).
  { intros z Hz. unfold d2h, Number_toString16.
    destruct (z <? 0)%Z eqn:E; [|apply Z.ltb_ge in E; lia].
    destruct (hex_of_N_spec (Z.to_N (- z))) as [_ [Hl _]].
    simpl String.length.
    destruct (String.length (hex_of_N (Z.to_N (- z)))) as [|n]; [lia|reflexivity]. }
  split.
  - destruct d as [| |z]; [simpl; lia|simpl; lia|].
    destruct (Z.lt_ge_cases z 0) as [Hz|Hz].
    + rewrite (Hneg z Hz). simpl.
      destruct (hex_of_N_spec (Z.to_N (- z))) as [_ [Hl _]]. lia.
    + apply (d2h_spec z Hz).
  - intros z -> Hz. split; [apply Hneg; exact Hz|apply hex_of_N_spec].
Qed.

Lemma append_cancel_l (a x y : string) : a ++ x = a ++ y -> x = y.
Proof. induction a as [|c a IH]; simpl; [auto|]. intro H. inversion H. auto. Qed.

Lemma append_cancel_r (b : string) : forall x y : string,
  String.length x = String.length y -> x ++ b = y ++ b -> x = y.
Proof.
  induction x as [|c x IH]; intros [|c' y] Hl H; simpl in *; try discriminate.
  - reflexivity.
  - inversion H. f_equal. apply IH; [lia|assumption].
Qed.

(** The message tells integer targets from 0 to 2^53, the integers a
    double counts exactly, apart: for the same type and context, two
    different targets never give the same message.  The first argument of
    the constructor plays no part in the message. *)
Theorem message_tells_targets_apart
    (v1 v2 : value) (type : string) (a b : Z) (context : option (list string)) :
  (0 <= a < 2 ^ 53)%Z -> (0 <= b < 2 ^ 53)%Z -> a <> b ->
  constructor object_toString v1 type (VNumber (Int a)) context
  <> constructor object_toString v2 type (VNumber (Int b)) context
  /\ forall target,
       constructor object_toString v1 type target context
       = constructor object_toString v2 type target context.
Proof.
  intros [Ha _] [Hb _] Hne. split; [|reflexivity].
  unfold constructor. rewrite !message_suffix. intro H.
  assert (Hl : String.length ("Can't find " ++ type ++ " " ++ "with the value " ++ d2h (Int a))
               = String.length ("Can't find " ++ type ++ " " ++ "with the value " ++ d2h (Int b))).
  { apply (f_equal String.length) in H. rewrite !length_append in H.
    rewrite !length_append. lia. }
  apply (append_cancel_r _ _ _ Hl) in H.
  apply append_cancel_l, append_cancel_l in H.
  apply (append_cancel_l " with the value ") in H.
  destruct (d2h_spec a Ha) as [Hva _]. destruct (d2h_spec b Hb) as [Hvb _].
  rewrite H in Hva. rewrite Hva in Hvb. inversion Hvb. lia.
Qed.

End Targets.

Lemma targets_apart_example :
  InvalidCommandError.constructor Sample.object_toString JS.VUndefined "command"
    (JS.VNumber (JS.Int 1)) None
  <> InvalidCommandError.constructor Sample.object_toString JS.VNull "command"
       (JS.VNumber (JS.Int 16)) None.
Proof.
  apply (proj1 (message_tells_targets_apart Sample.object_toString JS.VUndefined JS.VNull
                  "command" 1 16 None ltac:(lia) ltac:(lia) ltac:(lia))).
Defined.

Lemma negative_target_example :
  InvalidCommandError.d2h (JS.Int (-5)) = "-5"%string.
Proof.
  apply (proj2 (d2h_at_least_two_characters (JS.Int (-5))) (-5) eq_refl). lia.
Defined.
